(** * Volts-Tracker-Bot: a shallow embedding of [bot.js]

    The Telegram bot keeps, per chat, the set of wallet addresses the chat
    asked to track ([userWallets]) and the ids of the messages it sent
    ([botMessageIds]); it forwards every address to the streaming engine
    ([this.websocket], file [websocket-backend.js]) and fans the engine's
    transaction records out to the chats that track the record's wallet.

    JavaScript [Map] and [Set] iterate in insertion order, and the code relies
    on it ([forEach], [Array.from(...)[0]]), so both are embedded as lists in
    insertion order without repeated keys or elements.  Handlers run to
    completion on one event loop; a handler is a function from the state to
    the new state and the list of effects it emitted, in order. *)

From Stdlib Require Import ZArith String Ascii List Bool Lia.
From stdpp Require Import base decidable list strings.

Import ListNotations.
Local Open Scope string_scope.
Local Open Scope list_scope.
Local Open Scope Z_scope.

(** ** JavaScript strings

    A character of a Rocq string stands for one code unit.  Wallet addresses
    and the short constants that the code measures ([length], [substring])
    are ASCII; the emoji of the notification text are only searched for and
    concatenated. *)

Module JsString.

(** [s.substring(0, n)] *)
Definition substring0 (n : nat) (s : string) : string := String.substring 0 n s.

(** [s.startsWith(p)] *)
Definition startsWith (p s : string) : bool := String.prefix p s.

(** [s.includes(p)] *)
Definition includes (p s : string) : bool :=
  match String.index 0 p s with Some _ => true | None => false end.

(** [s.replace(p, r)] with a string pattern: the first occurrence only. *)
Definition replace (p r s : string) : string :=
  match String.index 0 p s with
  | Some i =>
      String.substring 0 i s +:+ r +:+
      String.substring (i + String.length p) (String.length s - (i + String.length p)) s
  | None => s
  end.

(** White space that [trim] strips (the ASCII part of it). *)
Definition is_space (c : ascii) : bool :=
  let n := nat_of_ascii c in
  ((9 <=? n) && (n <=? 13) || (n =? 32))%nat.

Fixpoint trimStart (s : string) : string :=
  match s with
  | String c s' => if is_space c then trimStart s' else s
  | EmptyString => EmptyString
  end.

Fixpoint trimEnd (s : string) : string :=
  match s with
  | String c s' =>
      match trimEnd s' with
      | EmptyString => if is_space c then EmptyString else String c EmptyString
      | t => String c t
      end
  | EmptyString => EmptyString
  end.

(** [s.trim()] *)
Definition trim (s : string) : string := trimEnd (trimStart s).

(** A string is falsy exactly when it is empty. *)
Definition truthy (s : string) : bool := negb (String.eqb s "").

End JsString.

(** ** JavaScript [Set] of strings, in insertion order *)

Module JsSet.

Definition t := list string.

Definition has (a : string) (s : t) : bool := bool_decide (a ∈ s).

(** [s.add(a)]: appended at the end unless already present. *)
Definition add (a : string) (s : t) : t := if has a s then s else s ++ [a].

(** [s.delete(a)] *)
Definition delete (a : string) (s : t) : t := filter (λ x, x ≠ a) s.

Definition size (s : t) : Z := Z.of_nat (length s).

End JsSet.

(** ** JavaScript [Map] keyed by chat id, in insertion order *)

Module JsMap.

Section WithValue.
Context {V : Type}.

Definition t := list (Z * V).

Fixpoint get (k : Z) (m : t) : option V :=
  match m with
  | [] => None
  | (k', v) :: m' => if bool_decide (k' = k) then Some v else get k m'
  end.

Definition has (k : Z) (m : t) : bool :=
  match get k m with Some _ => true | None => false end.

(** [m.set(k, v)]: an existing key keeps its position. *)
Fixpoint set (k : Z) (v : V) (m : t) : t :=
  match m with
  | [] => [(k, v)]
  | (k', v') :: m' =>
      if bool_decide (k' = k) then (k, v) :: m' else (k', v') :: set k v m'
  end.

Definition keys (m : t) : list Z := map fst m.

End WithValue.

Arguments t : clear implicits.

End JsMap.

(** ** Values, records, messages and effects *)

(** The values a field of an engine record can hold. *)
Inductive JsVal :=
| JsUndefined
| JsNull
| JsBool (b : bool)
| JsNum (n : Z)
| JsStr (s : string).

(** [!!v] *)
Definition truthy (v : JsVal) : bool :=
  match v with
  | JsUndefined | JsNull => false
  | JsBool b => b
  | JsNum n => negb (n =? 0)
  | JsStr s => JsString.truthy s
  end.

(** [v === s] for a string constant [s] *)
Definition strict_eq_string (v : JsVal) (s : string) : bool :=
  match v with JsStr s' => String.eqb s' s | _ => false end.

(** [set.has(v)] on a set of strings (SameValueZero never equates a string
    with a value of another type). *)
Definition set_has_val (v : JsVal) (s : JsSet.t) : bool :=
  match v with JsStr a => JsSet.has a s | _ => false end.

(** The record handed to [onTransactionReceived]:
    [{wallet, token, buySell, amount, signature, timestamp}].  The wallet is
    kept as an arbitrary value because the bot tests its type; the other
    fields are strings, [token] and [amount] possibly absent. *)
Record TransactionData := {
  wallet : JsVal;
  token : option string;
  buySell : string;
  amount : option string;
  signature : string;
  timestamp : Z
}.

(** The texts the bot sends.  Templates that only interpolate counters are
    kept as constructors carrying the interpolated data; the notification
    carries its full text. *)
Inductive Message :=
| MsgAlreadyTracking (walletAddress : string)
| MsgWalletLimitReached (limit : Z) (wallets : list string)
| MsgWalletAdded (walletAddress : string) (currentCount limit : Z)
| MsgInvalidAddress
| MsgStoppedTracking (walletAddress : string) (yourWallets totalTracked : Z)
| MsgWalletNotFound
| MsgNotTrackingAny
| MsgTransaction (text : string)
| MsgAutoCleanup (limit : Z) (count : Z)
| MsgOther.

(** [MsgInvalidAddress] is this text. *)
Definition invalid_address_text : string :=
  "❌ Invalid Solana wallet address. Please check and try again.".

Inductive LogEntry :=
| WarnNoWallet
| DebugSending (chatId : Z) (walletPrefix : string)
| DebugSkipped (chatId : Z) (walletPrefix : string)
| InfoNotified (notifiedUsers : Z) (walletPrefix : string)
| NotificationSent (chatId : Z)
| ErrorFailedToSend (chatId : Z)
| ConsoleErrorNotifyUsers
| ConsoleErrorSendAndTrack (chatId : Z).

(** What a handler does to the outside, in order. *)
Inductive Effect :=
| SendTracked (chatId : Z) (m : Message)
    (* [this.bot.sendMessage], called inside [sendAndTrackMessage] *)
| SendPlain (chatId : Z) (m : Message)
    (* [this.bot.sendMessage], called directly *)
| AddWallet (a : string)      (* [this.websocket.addWallet(a)] *)
| RemoveWallet (a : string)   (* [this.websocket.removeWallet(a)] *)
| Log (l : LogEntry).

Global Instance JsVal_eq_dec : EqDecision JsVal.
Proof. solve_decision. Defined.
Global Instance Message_eq_dec : EqDecision Message.
Proof. solve_decision. Defined.
Global Instance LogEntry_eq_dec : EqDecision LogEntry.
Proof. solve_decision. Defined.
Global Instance Effect_eq_dec : EqDecision Effect.
Proof. solve_decision. Defined.

(** How a call of [this.bot.sendMessage] ends. *)
Inductive SendOutcome :=
| Sent (message_id : Z)
| SendThrew       (* the call throws *)
| SendRejected.   (* the returned promise rejects *)

(** How a promise settles. *)
Inductive Settled :=
| Fulfilled
| Rejected.

Inductive JsError := TypeError.

(** The result of evaluating code that may throw. *)
Inductive Completion (A : Type) :=
| Normal (a : A)
| Throw (e : JsError).
Arguments Normal {A} a.
Arguments Throw {A} e.

(** [try { body } catch (error) { handler }], on effect lists. *)
Definition try_catch {A} (body : list Effect * Completion A)
    (handler : list Effect) (after : A -> list Effect) : list Effect * Completion unit :=
  match body with
  | (effs, Normal a) => (effs ++ after a, Normal tt)
  | (effs, Throw _) => (effs ++ handler, Normal tt)
  end.

(** ** The engine's control surface, as far as the bot uses it *)

(** Modelled from the spec: the engine object, [websocket-backend.js] not
    being part of the sources; of its state the bot reads [trackedWallets],
    the set of addresses currently subscribed (section 3), in insertion
    order. *)
Record Backend := {
  trackedWallets : JsSet.t
}.

(** Modelled from the spec: [websocket-backend.js] is not part of the
    sources; [addWallet] and [removeWallet] mutate the address registry, the
    set of addresses currently subscribed (spec, sections 4.2 and 6). *)
Definition addWallet (a : string) (ws : Backend) : Backend :=
  {| trackedWallets := JsSet.add a (trackedWallets ws) |}.

(** Modelled from the spec: [removeWallet(address)] takes the address out of
    the registry (sections 4.2 and 6). *)
Definition removeWallet (a : string) (ws : Backend) : Backend :=
  {| trackedWallets := JsSet.delete a (trackedWallets ws) |}.

(** ** The bot *)

Definition MAX_MESSAGES_PER_USER : Z := 50.

Record Bot := {
  userWallets : JsMap.t JsSet.t;       (* telegramId -> Set(wallets) *)
  botMessageIds : JsMap.t (list Z);    (* telegramId -> Array(messageIds) *)
  lastUserActivity : Z;
  INACTIVITY_LIMIT : Z;
  MAX_WALLETS_PER_USER : Z;
  websocket : Backend
}.

Definition with_userWallets (uw : JsMap.t JsSet.t) (st : Bot) : Bot :=
  {| userWallets := uw; botMessageIds := botMessageIds st;
     lastUserActivity := lastUserActivity st; INACTIVITY_LIMIT := INACTIVITY_LIMIT st;
     MAX_WALLETS_PER_USER := MAX_WALLETS_PER_USER st; websocket := websocket st |}.

Definition with_botMessageIds (ids : JsMap.t (list Z)) (st : Bot) : Bot :=
  {| userWallets := userWallets st; botMessageIds := ids;
     lastUserActivity := lastUserActivity st; INACTIVITY_LIMIT := INACTIVITY_LIMIT st;
     MAX_WALLETS_PER_USER := MAX_WALLETS_PER_USER st; websocket := websocket st |}.

Definition with_websocket (ws : Backend) (st : Bot) : Bot :=
  {| userWallets := userWallets st; botMessageIds := botMessageIds st;
     lastUserActivity := lastUserActivity st; INACTIVITY_LIMIT := INACTIVITY_LIMIT st;
     MAX_WALLETS_PER_USER := MAX_WALLETS_PER_USER st; websocket := ws |}.

(** [updateUserActivity()], [now] being [Date.now()]. *)
Definition updateUserActivity (now : Z) (st : Bot) : Bot :=
  {| userWallets := userWallets st; botMessageIds := botMessageIds st;
     lastUserActivity := now; INACTIVITY_LIMIT := INACTIVITY_LIMIT st;
     MAX_WALLETS_PER_USER := MAX_WALLETS_PER_USER st; websocket := websocket st |}.

(** The constructor: empty maps, a fresh engine, the two limits read from the
    environment ([parseInt(...) || 300000], [parseInt(...) || 3]). *)
Definition new_bot (now inactivityLimit maxWallets : Z) : Bot :=
  {| userWallets := []; botMessageIds := [];
     lastUserActivity := now; INACTIVITY_LIMIT := inactivityLimit;
     MAX_WALLETS_PER_USER := maxWallets;
     websocket := {| trackedWallets := [] |} |}.

(** The wallets of a chat; a chat without an entry has none. *)
Definition walletsOf (chatId : Z) (st : Bot) : JsSet.t :=
  default [] (JsMap.get chatId (userWallets st)).

(** The message ids stored for a chat. *)
Definition messageIdsOf (chatId : Z) (st : Bot) : list Z :=
  default [] (JsMap.get chatId (botMessageIds st)).

(** [getTotalTrackedWallets()] *)
Definition getTotalTrackedWallets (st : Bot) : Z :=
  fold_left (λ total (e : Z * JsSet.t), total + JsSet.size (snd e)) (userWallets st) 0.

(** ** Handlers of [LVMLabsWalletBot] *)

Section BotHandlers.

(** [this.websocket.validateWalletAddress]: a pure format check that lives
    in the engine's file; the bot only calls it. *)
Variable validateWalletAddress : string -> bool.

(** [new Date(ts).toLocaleString('en-US', {timeZone: 'UTC', hour12: false})] *)
Variable formatTimestamp : Z -> string.

Definition nl : string := String (ascii_of_nat 10) EmptyString.

(** *** [getWalletFromTransaction] *)
Definition getWalletFromTransaction (transactionData : TransactionData) (st : Bot) : string :=
  let fallback :=
    match trackedWallets (websocket st) with
    | firstWallet :: _ =>
        if JsString.truthy firstWallet then firstWallet else "Unknown Wallet"
    | [] => "Unknown Wallet"
    end in
  match wallet transactionData with
  | JsStr s =>
      if JsString.truthy s && (20 <? String.length s)%nat then s else fallback
  | _ => fallback
  end.

(** The shape both notification templates share. *)
Definition transactionText (shortWallet emoji verb amountText tokenText sig time : string)
  : string :=
  "🔔 *New Transaction*" +:+ nl +:+ nl +:+
  "👛 Wallet `" +:+ shortWallet +:+ "` " +:+ emoji +:+ verb +:+ " " +:+ amountText +:+
  " in " +:+ tokenText +:+ nl +:+ nl +:+
  "📝 *Signature:* `" +:+ sig +:+ "`" +:+ nl +:+
  "⏰ *Time:* " +:+ time +:+ nl +:+ nl +:+
  "[View on Solscan](https://solscan.io/tx/" +:+ sig +:+ ")".

(** [walletAddress.length > 8 ? walletAddress.substring(0, 8) + '...' : walletAddress] *)
Definition shortWallet (walletAddress : string) : string :=
  if (8 <? String.length walletAddress)%nat
  then JsString.substring0 8 walletAddress +:+ "..."
  else walletAddress.

(** [x && x !== c] on a field that is a string or absent. *)
Definition present_and_not (c : string) (x : option string) : option string :=
  match x with
  | Some s => if JsString.truthy s && negb (String.eqb s c) then Some s else None
  | None => None
  end.

(** *** [formatTransactionMessage]

    With [token] and [amount] strings or absent, nothing in the [try] block
    throws, so its [catch] branch does not appear. *)
Definition formatTransactionMessage (data : TransactionData) (st : Bot) : string :=
  let time := formatTimestamp (timestamp data) in
  let walletAddress :=
    let w := getWalletFromTransaction data st in
    if JsString.truthy w then w else "Unknown" in
  let short := shortWallet walletAddress in
  match present_and_not "Unknown" (token data), present_and_not "N/A SOL" (amount data) with
  | Some tok, Some amt =>
      let tokenSymbol := if JsString.startsWith "$" tok then tok else "$" +:+ tok in
      let buySellText := if String.eqb (buySell data) "BUY" then "bought" else "sold" in
      let '(emoji, amountText) :=
        if JsString.includes "🟢" amt
        then ("🟢 ", JsString.trim (JsString.replace "🟢 " "" amt))
        else if JsString.includes "🔴" amt
        then ("🔴 ", JsString.trim (JsString.replace "🔴 " "" amt))
        else (if String.eqb (buySell data) "BUY" then "🟢 " else "🔴 ", amt) in
      transactionText short emoji buySellText amountText tokenSymbol (signature data) time
  | _, _ =>
      let tokenDisplay := default "Unknown Token" (present_and_not "Unknown" (token data)) in
      let amountDisplay := default "0 SOL" (present_and_not "N/A SOL" (amount data)) in
      let buySellText :=
        if String.eqb (buySell data) "BUY" then "bought"
        else if String.eqb (buySell data) "SELL" then "sold" else "transacted" in
      let emoji :=
        if String.eqb (buySell data) "BUY" then "🟢 "
        else if String.eqb (buySell data) "SELL" then "🔴 " else "" in
      transactionText short emoji buySellText amountDisplay tokenDisplay (signature data) time
  end.

(** *** [/track <address>]: [arg] is [match[1]], [now] is [Date.now()]. *)
Definition track (chatId : Z) (arg : string) (now : Z) (st : Bot) : Bot * list Effect :=
  let walletAddress := JsString.trim arg in
  let st := updateUserActivity now st in
  if validateWalletAddress walletAddress then
    let st :=
      if JsMap.has chatId (userWallets st) then st
      else with_userWallets (JsMap.set chatId [] (userWallets st)) st in
    let userWalletSet := walletsOf chatId st in
    if JsSet.has walletAddress userWalletSet then
      (st, [SendTracked chatId (MsgAlreadyTracking walletAddress)])
    else if JsSet.size userWalletSet >=? MAX_WALLETS_PER_USER st then
      (st, [SendTracked chatId
              (MsgWalletLimitReached (MAX_WALLETS_PER_USER st) userWalletSet)])
    else
      let userWalletSet := JsSet.add walletAddress userWalletSet in
      let st := with_userWallets (JsMap.set chatId userWalletSet (userWallets st)) st in
      let st := with_websocket (addWallet walletAddress (websocket st)) st in
      (st, [AddWallet walletAddress;
            SendTracked chatId
              (MsgWalletAdded walletAddress (JsSet.size userWalletSet)
                 (MAX_WALLETS_PER_USER st))])
  else
    (st, [SendTracked chatId MsgInvalidAddress]).

(** The [forEach] of [/untrack] that looks for another chat with the wallet. *)
Definition walletStillTrackedByOthers (chatId : Z) (walletAddress : string)
    (uw : JsMap.t JsSet.t) : bool :=
  fold_left
    (λ (found : bool) (e : Z * JsSet.t),
       if negb (bool_decide (fst e = chatId)) && JsSet.has walletAddress (snd e)
       then true else found)
    uw false.

(** *** [/untrack <address>] *)
Definition untrack (chatId : Z) (arg : string) (now : Z) (st : Bot) : Bot * list Effect :=
  let walletAddress := JsString.trim arg in
  let st := updateUserActivity now st in
  match JsMap.get chatId (userWallets st) with
  | Some userWalletSet =>
      if JsSet.has walletAddress userWalletSet then
        let userWalletSet := JsSet.delete walletAddress userWalletSet in
        let st := with_userWallets (JsMap.set chatId userWalletSet (userWallets st)) st in
        let '(st, calls) :=
          if negb (walletStillTrackedByOthers chatId walletAddress (userWallets st))
          then (with_websocket (removeWallet walletAddress (websocket st)) st,
                [RemoveWallet walletAddress])
          else (st, []) in
        (st, calls ++
             [SendTracked chatId
                (MsgStoppedTracking walletAddress (JsSet.size userWalletSet)
                   (JsSet.size (trackedWallets (websocket st))))])
      else (st, [SendTracked chatId MsgWalletNotFound])
  | None => (st, [SendTracked chatId MsgNotTrackingAny])
  end.

(** A command that only records the activity and answers with a text
    ([/start], [/list], [/status], [/help], the menus). *)
Definition otherCommand (chatId : Z) (now : Z) (st : Bot) : Bot * list Effect :=
  (updateUserActivity now st, [SendTracked chatId MsgOther]).

(** *** [notifyUsers] *)

(** [walletInTransaction.substring(0,8)], evaluated inside the log lines:
    only a string has the method. *)
Definition walletPrefix (walletInTransaction : JsVal) : Completion string :=
  match walletInTransaction with
  | JsStr s => Normal (JsString.substring0 8 s)
  | _ => Throw TypeError
  end.

(** The [forEach] over [userWallets]; [notifiedUsers] is the counter.  An
    exception ends the loop; what was emitted before it stays emitted. *)
Fixpoint notifyUsers_forEach (transactionData : TransactionData) (st : Bot)
    (entries : JsMap.t JsSet.t) (notifiedUsers : Z) : list Effect * Completion Z :=
  match entries with
  | [] => ([], Normal notifiedUsers)
  | (chatId, walletSet) :: rest =>
      if set_has_val (wallet transactionData) walletSet then
        let message := formatTransactionMessage transactionData st in
        match walletPrefix (wallet transactionData) with
        | Normal p =>
            let '(effs, c) :=
              notifyUsers_forEach transactionData st rest (notifiedUsers + 1) in
            (Log (DebugSending chatId p) :: SendTracked chatId (MsgTransaction message) :: effs, c)
        | Throw e => ([], Throw e)
        end
      else
        match walletPrefix (wallet transactionData) with
        | Normal p =>
            let '(effs, c) := notifyUsers_forEach transactionData st rest notifiedUsers in
            (Log (DebugSkipped chatId p) :: effs, c)
        | Throw e => ([], Throw e)
        end
  end.

(** The body of the [try] block. *)
Definition notifyUsers_try (transactionData : TransactionData) (st : Bot)
  : list Effect * Completion LogEntry :=
  match notifyUsers_forEach transactionData st (userWallets st) 0 with
  | (effs, Normal notifiedUsers) =>
      match walletPrefix (wallet transactionData) with
      | Normal p => (effs, Normal (InfoNotified notifiedUsers p))
      | Throw e => (effs, Throw e)
      end
  | (effs, Throw e) => (effs, Throw e)
  end.

Definition notifyUsers (transactionData : TransactionData) (st : Bot)
  : list Effect * Completion unit :=
  let walletInTransaction := wallet transactionData in
  if negb (truthy walletInTransaction)
     || strict_eq_string walletInTransaction "Unknown Wallet"
  then ([Log WarnNoWallet], Normal tt)
  else
    try_catch (notifyUsers_try transactionData st)
      [Log ConsoleErrorNotifyUsers]
      (λ info, [Log info]).

(** *** [sendAndTrackMessage]

    The call of [this.bot.sendMessage] is the effect [SendTracked] of the
    calling handler; what follows the [await] runs when the send has
    ended, with its outcome. *)

(** [cleanupOldMessageIds()] *)
Definition cleanupOldMessageIds (st : Bot) : Bot :=
  with_botMessageIds
    (map (λ e : Z * list Z,
            let messageIds := snd e in
            if Z.of_nat (length messageIds) >? MAX_MESSAGES_PER_USER * 2
            then (fst e,
                  drop (Z.to_nat (Z.of_nat (length messageIds) - MAX_MESSAGES_PER_USER))
                    messageIds)
            else e)
       (botMessageIds st))
    st.

Definition sendAndTrackMessage_resume (chatId : Z) (outcome : SendOutcome) (st : Bot)
  : Bot * list Effect * Settled :=
  match outcome with
  | Sent message_id =>
      let ids :=
        if JsMap.has chatId (botMessageIds st) then botMessageIds st
        else JsMap.set chatId [] (botMessageIds st) in
      let messageIds := default [] (JsMap.get chatId ids) ++ [message_id] in
      let messageIds :=
        if Z.of_nat (length messageIds) >? MAX_MESSAGES_PER_USER
        then drop (Z.to_nat (Z.of_nat (length messageIds) - MAX_MESSAGES_PER_USER))
               messageIds
        else messageIds in
      let st := with_botMessageIds (JsMap.set chatId messageIds ids) st in
      let st :=
        if Z.of_nat (length messageIds) mod 10 =? 0 then cleanupOldMessageIds st else st in
      (st, [], Fulfilled)
  | SendThrew | SendRejected =>
      (st, [Log (ConsoleErrorSendAndTrack chatId)], Rejected)
  end.

(** The [.then] and [.catch] that [notifyUsers] chains on the promise. *)
Definition notifyUsers_settled (chatId : Z) (outcome : SendOutcome) (st : Bot)
  : Bot * list Effect :=
  match sendAndTrackMessage_resume chatId outcome st with
  | (st, effs, Fulfilled) => (st, effs ++ [Log (NotificationSent chatId)])
  | (st, effs, Rejected) => (st, effs ++ [Log (ErrorFailedToSend chatId)])
  end.

(** The end of [clearBotMessages]: [this.botMessageIds.set(chatId, [])]. *)
Definition clearBotMessages_end (chatId : Z) (st : Bot) : Bot :=
  with_botMessageIds (JsMap.set chatId [] (botMessageIds st)) st.

(** *** [handleInactivityCleanup] *)

(** [allWallets]: every wallet of every chat, once, in order of first
    appearance. *)
Definition allWallets (uw : JsMap.t JsSet.t) : JsSet.t :=
  fold_left
    (λ (acc : JsSet.t) (e : Z * JsSet.t),
       fold_left (λ acc w, JsSet.add w acc) (snd e) acc)
    uw [].

Definition handleInactivityCleanup (st : Bot) : Bot * list Effect :=
  let notices :=
    flat_map
      (λ e : Z * JsSet.t,
         if JsSet.size (snd e) >? 0
         then [SendPlain (fst e) (MsgAutoCleanup (INACTIVITY_LIMIT st) (JsSet.size (snd e)))]
         else [])
      (userWallets st) in
  let all := allWallets (userWallets st) in
  let ws := fold_left (λ ws w, removeWallet w ws) all (websocket st) in
  (with_userWallets [] (with_websocket ws st), notices ++ map RemoveWallet all).

(** The callback of [startInactivityMonitor], run every five seconds. *)
Definition inactivityMonitor_tick (now : Z) (st : Bot) : Bot * list Effect :=
  let timeSinceLastActivity := now - lastUserActivity st in
  let timeRemaining := Z.max 0 (INACTIVITY_LIMIT st - timeSinceLastActivity) in
  if (timeRemaining =? 0) && (getTotalTrackedWallets st >? 0)
  then handleInactivityCleanup st
  else (st, []).

(** ** The event loop *)

Inductive Event :=
| Track (chatId : Z) (arg : string) (now : Z)
| Untrack (chatId : Z) (arg : string) (now : Z)
| OtherCommand (chatId : Z) (now : Z)
| TransactionReceived (transactionData : TransactionData)
| SendEnded (chatId : Z) (outcome : SendOutcome)
| NotificationEnded (chatId : Z) (outcome : SendOutcome)
| ClearEnded (chatId : Z)
| MonitorTick (now : Z).

Definition step (ev : Event) (st : Bot) : Bot * list Effect :=
  match ev with
  | Track chatId arg now => track chatId arg now st
  | Untrack chatId arg now => untrack chatId arg now st
  | OtherCommand chatId now => otherCommand chatId now st
  | TransactionReceived transactionData => (st, fst (notifyUsers transactionData st))
  | SendEnded chatId outcome =>
      let '(st, effs, _) := sendAndTrackMessage_resume chatId outcome st in (st, effs)
  | NotificationEnded chatId outcome => notifyUsers_settled chatId outcome st
  | ClearEnded chatId => (clearBotMessages_end chatId st, [])
  | MonitorTick now => inactivityMonitor_tick now st
  end.

(** The state after a sequence of events, and everything emitted. *)
Fixpoint run (evs : list Event) (st : Bot) : Bot * list Effect :=
  match evs with
  | [] => (st, [])
  | ev :: evs' =>
      let '(st1, effs1) := step ev st in
      let '(st2, effs2) := run evs' st1 in
      (st2, effs1 ++ effs2)
  end.

End BotHandlers.


(** ** The engine's normalizer and dispatcher

    [websocket-backend.js] is not part of the sources; this module follows
    the specification's sections 3, 4.4 and 4.6. *)

Module Engine.

(** Modelled from the spec: one balance change of a provider payload
    (section 4.4, step 1): the address it concerns and the signed change of
    its token balance. *)
Record Change := {
  address : string;
  delta : Z
}.

(** Modelled from the spec: a provider push payload (sections 4.4 and 6):
    balance changes, the token's mint, a transaction signature that may be
    missing. *)
Record Payload := {
  changes : list Change;
  mint : string;
  payloadSignature : option string;
  observedAt : Z
}.

(** Modelled from the spec: the direction of a record (section 3). *)
Inductive Direction := BUY | SELL | UNKNOWN.

(** Modelled from the spec: the signature of a record: the provider's, or
    the marker synthesized when the payload has none (section 4.4, edge
    cases). *)
Inductive RecordSignature :=
| ProviderSignature (s : string)
| FallbackMarker.

(** Modelled from the spec: the canonical record of section 3; its display
    amount and its reference to the raw payload play no part in what is
    dispatched and are left out. *)
Record TransactionRecord := {
  recordAddress : string;
  direction : Direction;
  tokenSymbol : string;
  recordSignature : RecordSignature;
  recordObservedAt : Z
}.

(** Modelled from the spec: the tracked address set of section 3 and what
    the suppression of duplicate signatures has to remember. *)
Record State := {
  tracked : JsSet.t;                 (* TrackedAddressSet *)
  seen : list (string * string)      (* (address, signature) pairs already dispatched *)
}.

(** Modelled from the spec: the engine before any call. *)
Definition initial : State := {| tracked := []; seen := [] |}.

Global Instance RecordSignature_eq_dec : EqDecision RecordSignature.
Proof. solve_decision. Defined.

Section Normalizer.

(** The metadata lookup (cache or provider); [None] when resolution fails. *)
Variable resolveSymbol : string -> option string.

(** Modelled from the spec: [websocket-backend.js] is not part of the
    sources.  Section 4.4, steps 1 and 2: the addresses the payload
    references, intersected with the tracked set; each relevant address
    once, since one record is built per (address, payload) pair. *)
Definition relevantAddresses (st : State) (p : Payload) : list string :=
  remove_dups (filter (λ a, a ∈ tracked st) (map address (changes p))).

(** Modelled from the spec: section 4.4, step 3: an increase is a BUY, a
    decrease a SELL, otherwise the direction is unknown.  The change
    consulted is the first one the payload lists for the address. *)
Definition directionOf (a : string) (p : Payload) : Direction :=
  match List.find (λ c, bool_decide (address c = a)) (changes p) with
  | Some c => if delta c >? 0 then BUY else if delta c <? 0 then SELL else UNKNOWN
  | None => UNKNOWN
  end.

(** Modelled from the spec: section 4.4, steps 4 and 5, and its edge case
    for a missing signature. *)
Definition buildRecord (a : string) (p : Payload) : TransactionRecord :=
  {| recordAddress := a;
     direction := directionOf a p;
     tokenSymbol := default "Unknown Token" (resolveSymbol (mint p));
     recordSignature :=
       match payloadSignature p with
       | Some s => ProviderSignature s
       | None => FallbackMarker
       end;
     recordObservedAt := observedAt p |}.

(** Modelled from the spec: the data-model invariant of section 3,
    duplicate signatures for the same address must be suppressed: a record
    whose (address, signature) pair was dispatched before is dropped, any
    other is dispatched and its pair remembered.  A record without a
    provider signature is never dropped. *)
Fixpoint dispatchAll (addrs : list string) (p : Payload) (st : State)
  : State * list TransactionRecord :=
  match addrs with
  | [] => (st, [])
  | a :: rest =>
      match payloadSignature p with
      | Some s =>
          if bool_decide ((a, s) ∈ seen st) then dispatchAll rest p st
          else
            let st1 := {| tracked := tracked st; seen := (a, s) :: seen st |} in
            let '(st2, out) := dispatchAll rest p st1 in
            (st2, buildRecord a p :: out)
      | None =>
          let '(st2, out) := dispatchAll rest p st in
          (st2, buildRecord a p :: out)
      end
  end.

(** Modelled from the spec: section 4.4 and 4.6, one payload normalized and
    its records handed to the callback. *)
Definition onPayload (p : Payload) (st : State) : State * list TransactionRecord :=
  dispatchAll (relevantAddresses st p) p st.

(** Modelled from the spec: what reaches the engine (section 6): registry
    calls and provider pushes, processed in arrival order (section 5). *)
Inductive Event :=
| AddWalletCall (a : string)
| RemoveWalletCall (a : string)
| Push (p : Payload).

(** Modelled from the spec: sections 4.2 and 4.4, one event handled. *)
Definition step (ev : Event) (st : State) : State * list TransactionRecord :=
  match ev with
  | AddWalletCall a => ({| tracked := JsSet.add a (tracked st); seen := seen st |}, [])
  | RemoveWalletCall a => ({| tracked := JsSet.delete a (tracked st); seen := seen st |}, [])
  | Push p => onPayload p st
  end.

(** Modelled from the spec: everything dispatched over a sequence of
    events, in order (section 5). *)
Fixpoint run (evs : list Event) (st : State) : State * list TransactionRecord :=
  match evs with
  | [] => (st, [])
  | ev :: evs' =>
      let '(st1, out1) := step ev st in
      let '(st2, out2) := run evs' st1 in
      (st2, out1 ++ out2)
  end.

(** The records dispatched for address [a] with provider signature [s]. *)
Definition dispatchedFor (a s : string) (out : list TransactionRecord)
  : list TransactionRecord :=
  filter (λ r, recordAddress r = a ∧ recordSignature r = ProviderSignature s) out.

End Normalizer.

(** What is known between a state and what a computation from it returned:
    pairs stay seen, a seen pair is not dispatched, no pair is dispatched
    twice, and a dispatched pair is seen afterwards. *)
Definition suppresses (st : State) (r : State * list TransactionRecord) : Prop :=
  (∀ x, x ∈ seen st → x ∈ seen r.1)
  ∧ (∀ a s, (a, s) ∈ seen st → dispatchedFor a s r.2 = [])
  ∧ (∀ a s, (length (dispatchedFor a s r.2) ≤ 1)%nat)
  ∧ (∀ a s, dispatchedFor a s r.2 ≠ [] → (a, s) ∈ seen r.1).

End Engine.


(** ** The engine's credential pool

    [websocket-backend.js] is not part of the sources; this module follows
    the specification's sections 3 and 4.1. *)

Module CredentialPool.

(** Modelled from the spec: a credential (section 3): opaque key, call
    counter, last-rotated and cooldown-until timestamps. *)
Record Credential := {
  key : string;
  callCount : nat;
  lastRotated : N;
  cooldownUntil : N
}.

(** Modelled from the spec: the pool (sections 4.1 and 6): the credentials
    in configured order, the active one, and the rotation configuration. *)
Record Pool := {
  credentials : list Credential;
  active : nat;          (* index of the active credential *)
  threshold : nat;       (* calls per rotation window *)
  interval : N;          (* wall-clock rotation interval *)
  cooldown : N           (* rest of a rate-limited credential *)
}.

Definition with_credentials (cs : list Credential) (i : nat) (p : Pool) : Pool :=
  {| credentials := cs; active := i; threshold := threshold p;
     interval := interval p; cooldown := cooldown p |}.

(** Modelled from the spec: the pool as configured: the keys in their
    order, the first one active, nothing cooling. *)
Definition configure (keys : list string) (T : nat) (rotationInterval rest now : N) : Pool :=
  {| credentials :=
       map (λ k, {| key := k; callCount := 0; lastRotated := now; cooldownUntil := 0 |}) keys;
     active := 0; threshold := T; interval := rotationInterval; cooldown := rest |}.

(** Modelled from the spec: a credential is in cooldown until its
    cooldown-until timestamp. *)
Definition cooling (now : N) (c : Credential) : bool := (now <? cooldownUntil c)%N.

(** Modelled from the spec: the credential at an index exists and is not
    cooling. *)
Definition usable (now : N) (p : Pool) (i : nat) : bool :=
  match credentials p !! i with
  | Some c => negb (cooling now c)
  | None => false
  end.

(** Modelled from the spec: [websocket-backend.js] is not part of the
    sources.  Section 4.1, round-robin through the configured pool: the
    indices after the active one, in order, wrapping around and ending with
    the active one itself. *)
Definition candidates (p : Pool) : list nat :=
  let n := length (credentials p) in
  map (λ k, (active p + k) mod n)%nat (seq 1 n).

(** Modelled from the spec: section 4.1, rotation advances to the next
    non-cooling credential, whose rotation window starts; with every
    credential cooling the pool stays as it is. *)
Definition rotate (now : N) (p : Pool) : Pool :=
  match List.find (usable now p) (candidates p) with
  | Some i =>
      with_credentials
        (alter (λ c, {| key := key c; callCount := 0; lastRotated := now;
                        cooldownUntil := cooldownUntil c |}) i (credentials p))
        i p
  | None => p
  end.

(** Modelled from the spec: section 4.1, [recordCall()], with the proactive
    rotation after the call-count threshold. *)
Definition recordCall (now : N) (p : Pool) : Pool :=
  match credentials p !! active p with
  | Some c =>
      let counted :=
        with_credentials
          (alter (λ c, {| key := key c; callCount := S (callCount c);
                          lastRotated := lastRotated c;
                          cooldownUntil := cooldownUntil c |}) (active p) (credentials p))
          (active p) p in
      if (threshold p <=? S (callCount c))%nat then rotate now counted else counted
  | None => p
  end.

(** Modelled from the spec: section 4.1, the fixed wall-clock interval has
    elapsed since the active credential's window started. *)
Definition timerDue (now : N) (p : Pool) : bool :=
  match credentials p !! active p with
  | Some c => (interval p <=? now - lastRotated c)%N
  | None => false
  end.

(** Modelled from the spec: section 4.1, the proactive rotation after the
    fixed wall-clock interval. *)
Definition onTimer (now : N) (p : Pool) : Pool :=
  if timerDue now p then rotate now p else p.

(** Modelled from the spec: section 4.1, the reactive rotation on a
    rate-limit signal: the current credential goes into cooldown and the
    pool advances. *)
Definition onRateLimit (now : N) (p : Pool) : Pool :=
  rotate now
    (with_credentials
       (alter (λ c, {| key := key c; callCount := callCount c;
                       lastRotated := lastRotated c;
                       cooldownUntil := (now + cooldown p)%N |}) (active p) (credentials p))
       (active p) p).

(** Modelled from the spec: a call uses a credential or fails fast with
    [CredentialsExhausted] (sections 4.1 and 7). *)
Inductive CallResult :=
| Used (k : string)
| CredentialsExhausted.

(** Modelled from the spec: section 4.1, [activeCredential()]: the active
    credential, or the next one that has recovered when the active one is
    cooling; with every credential cooling the call fails fast. *)
Definition activate (now : N) (p : Pool) : Pool :=
  if usable now p (active p) then p else rotate now p.

(** Modelled from the spec: one provider call: it uses the active
    credential and is recorded. *)
Definition call (now : N) (p : Pool) : Pool * CallResult :=
  let p := activate now p in
  match credentials p !! active p with
  | Some c =>
      if cooling now c then (p, CredentialsExhausted)
      else (recordCall now p, Used (key c))
  | None => (p, CredentialsExhausted)
  end.

(** Modelled from the spec: what moves the pool (section 4.1): a call, the
    wall-clock rotation timer, a rate-limit signal of the provider. *)
Inductive Event :=
| Call (now : N)
| Timer (now : N)
| RateLimited (now : N).

(** Modelled from the spec: one event handled. *)
Definition step (ev : Event) (p : Pool) : Pool * list CallResult :=
  match ev with
  | Call now => let '(p, r) := call now p in (p, [r])
  | Timer now => (onTimer now p, [])
  | RateLimited now => (onRateLimit now p, [])
  end.

(** Modelled from the spec: the credential each call used, in order. *)
Fixpoint run (evs : list Event) (p : Pool) : list CallResult :=
  match evs with
  | [] => []
  | ev :: evs' => let '(p1, out) := step ev p in out ++ run evs' p1
  end.

Definition isCall (ev : Event) : bool :=
  match ev with Call _ => true | _ => false end.

Definition isRateLimited (ev : Event) : bool :=
  match ev with RateLimited _ => true | _ => false end.

(** Round-robin as the specification words it: each credential used for [T]
    calls, in the configured order. *)
Definition roundRobin (keys : list string) (T : nat) : list CallResult :=
  flat_map (λ k, replicate T (Used k)) keys.

(** No rate-limit signal occurs in the run and the wall-clock timer never
    finds its interval elapsed. *)
Fixpoint quiet (evs : list Event) (p : Pool) : bool :=
  match evs with
  | [] => true
  | Call now :: evs' => quiet evs' (call now p).1
  | Timer now :: evs' => negb (timerDue now p) && quiet evs' p
  | RateLimited _ :: _ => false
  end.

(** The keys of [n] calls in a row when only the call-count threshold
    rotates: [i] is the active index and [c] the calls it has served. *)
Fixpoint thresholdSchedule (keys : list string) (T i c n : nat) : list CallResult :=
  match n with
  | O => []
  | S n' =>
      Used (nth i keys "")
      :: if (S c <? T)%nat
         then thresholdSchedule keys T i (S c) n'
         else thresholdSchedule keys T (S i mod length keys) 0 n'
  end.

(** A pool none of whose credentials was ever rate-limited, with active
    index [i] whose credential has served [c] calls of its window. *)
Definition fresh (keys : list string) (T i c : nat) (p : Pool) : Prop :=
  map key (credentials p) = keys
  ∧ Forall (λ cr, cooldownUntil cr = 0%N) (credentials p)
  ∧ active p = i
  ∧ (i < length keys)%nat
  ∧ threshold p = T
  ∧ ∃ cr, credentials p !! i = Some cr ∧ callCount cr = c.

End CredentialPool.


(** ** What a trace shows *)

(** The messages handed to [this.bot.sendMessage], with their chats. *)
Definition sends (effs : list Effect) : list (Z * Message) :=
  omap (λ e, match e with
             | SendTracked chatId m | SendPlain chatId m => Some (chatId, m)
             | _ => None
             end) effs.

(** The arguments of the calls of [websocket.addWallet]. *)
Definition addWalletCalls (effs : list Effect) : list string :=
  omap (λ e, match e with AddWallet a => Some a | _ => None end) effs.

(** The arguments of the calls of [websocket.removeWallet]. *)
Definition removeWalletCalls (effs : list Effect) : list string :=
  omap (λ e, match e with RemoveWallet a => Some a | _ => None end) effs.

(** The addresses passed to [addWallet] and not passed to [removeWallet]
    since, starting from the set [s]. *)
Definition applyCalls (s : JsSet.t) (effs : list Effect) : JsSet.t :=
  fold_left
    (λ s e, match e with
            | AddWallet a => JsSet.add a s
            | RemoveWallet a => JsSet.delete a s
            | _ => s
            end) effs s.

(** Every wallet of every chat, with repetitions. *)
Definition requestedWallets (st : Bot) : list string :=
  concat (map snd (userWallets st)).


(** Some chat's set holds [x]. *)
Definition requestedBy (uw : JsMap.t JsSet.t) (x : string) : Prop :=
  ∃ chatId ws, (chatId, ws) ∈ uw ∧ x ∈ ws.

(** The set of a chat other than [chatId] holds [x]. *)
Definition requestedByOthers (chatId : Z) (uw : JsMap.t JsSet.t) (x : string) : Prop :=
  ∃ k ws, k ≠ chatId ∧ (k, ws) ∈ uw ∧ x ∈ ws.

(** The engine tracks exactly what the chats request; the keys of
    [userWallets] are distinct, as the keys of a [Map] are. *)
Definition consistent (st : Bot) : Prop :=
  NoDup (JsMap.keys (userWallets st))
  ∧ ∀ a, a ∈ trackedWallets (websocket st) ↔ requestedBy (userWallets st) a.

(** A record that [notifyUsers] does not skip at its first test. *)
Definition identifiesWallet (transactionData : TransactionData) : bool :=
  truthy (wallet transactionData)
  && negb (strict_eq_string (wallet transactionData) "Unknown Wallet").

(** The last [n] elements of a list: the most recent ids of a history. *)
Definition lastN {A} (n : nat) (l : list A) : list A := drop (length l - n) l.

(** A send that did not deliver. *)
Definition failed (outcome : SendOutcome) : Prop :=
  outcome = SendThrew ∨ outcome = SendRejected.

(** The entries of [userWallets] whose set holds the record's wallet. *)
Definition trackers (transactionData : TransactionData) (entries : JsMap.t JsSet.t)
  : JsMap.t JsSet.t :=
  List.filter (λ e, set_has_val (wallet transactionData) e.2) entries.

Section Delivery.

Variable formatTimestamp : Z -> string.

(** [notifyUsers] followed by the end of each send it started, taken in the
    order of the calls; [outcome] tells how the send to each chat ends. *)
Definition notifyUsers_complete (transactionData : TransactionData)
    (outcome : Z -> SendOutcome) (st : Bot) : Bot * list Effect * Completion unit :=
  let '(effs, c) := notifyUsers formatTimestamp transactionData st in
  let '(st', later) :=
    fold_left
      (λ (acc : Bot * list Effect) (s : Z * Message),
         let '(st1, effs1) := notifyUsers_settled s.1 (outcome s.1) acc.1 in
         (st1, acc.2 ++ effs1))
      (sends effs) (st, []) in
  (st', effs ++ later, c).

End Delivery.


(** The chats of the debug lines that [notifyUsers] logs, in order. *)
Definition debugLines (effs : list Effect) : list Z :=
  omap (λ e, match e with
             | Log (DebugSending c _) | Log (DebugSkipped c _) => Some c
             | _ => None
             end) effs.

(** The message id that a send leaves to be stored: the id of the sent
    message when the send delivers, none when it fails. *)
Definition delivered (outcome : SendOutcome) : list Z :=
  match outcome with
  | Sent message_id => [message_id]
  | SendThrew | SendRejected => []
  end.

(** Whether every stored list of message ids has at most
    [MAX_MESSAGES_PER_USER] entries. *)
Definition idsBounded (ids : JsMap.t (list Z)) : Prop :=
  Forall (λ e : Z * list Z, Z.of_nat (length e.2) ≤ MAX_MESSAGES_PER_USER) ids.

(** The time of a command: the events whose handler calls
    [updateUserActivity]. *)
Definition commandTime (ev : Event) : option Z :=
  match ev with
  | Track _ _ now | Untrack _ _ now | OtherCommand _ now => Some now
  | _ => None
  end.

(** The time of the last command of a sequence of events, [now0] when it
    has none. *)
Definition lastCommandTime (now0 : Z) (evs : list Event) : Z :=
  fold_left (λ t ev, default t (commandTime ev)) evs now0.

(** Whether [/track] gets past its three tests. *)
Definition trackAccepts (validateWalletAddress : string → bool) (chatId : Z) (arg : string)
    (st : Bot) : bool :=
  validateWalletAddress (JsString.trim arg)
  && negb (JsSet.has (JsString.trim arg) (walletsOf chatId st))
  && negb (JsSet.size (walletsOf chatId st) >=? MAX_WALLETS_PER_USER st).

(** ** Letter case

    The command groups that the bot lower-cases match [\w], so they are
    ASCII, where the case maps are these. *)

Module JsCase.

Definition lowerChar (c : ascii) : ascii :=
  let n := nat_of_ascii c in
  if ((65 <=? n) && (n <=? 90))%nat then ascii_of_nat (n + 32) else c.

Definition upperChar (c : ascii) : ascii :=
  let n := nat_of_ascii c in
  if ((97 <=? n) && (n <=? 122))%nat then ascii_of_nat (n - 32) else c.

(** [s.toLowerCase()] *)
Fixpoint toLowerCase (s : string) : string :=
  match s with
  | String c s' => String (lowerChar c) (toLowerCase s')
  | EmptyString => EmptyString
  end.

(** [s.toUpperCase()] *)
Fixpoint toUpperCase (s : string) : string :=
  match s with
  | String c s' => String (upperChar c) (toUpperCase s')
  | EmptyString => EmptyString
  end.

End JsCase.

(** ** The settings of a chat: [userSettings] and [handleSettingsConfig] *)

Module UserSettings.

(** The object held per chat in [this.userSettings]. *)
Record Config := {
  latencyOptimization : string;
  precisionFilter : string;
  websocketBuffer : string;
  analyticsDepth : string;
  riskCalibration : string;
  signalSensitivity : string;
  noiseReduction : string;
  algorithmVersion : string
}.

(** [this.defaultSettings]; [{ ...this.defaultSettings }] copies its eight
    strings, so no chat's object shares anything with it. *)
Definition defaultSettings : Config :=
  {| latencyOptimization := "standard"; precisionFilter := "medium";
     websocketBuffer := "8KB"; analyticsDepth := "standard";
     riskCalibration := "moderate"; signalSensitivity := "balanced";
     noiseReduction := "enabled"; algorithmVersion := "v2.1.4" |}.

(** The answers of [handleSettingsConfig]: an update (its text ends with the
    note that the configuration was saved), a refused value, the reset, an
    unknown parameter.  [Updated] carries the setting and the value the text
    shows. *)
Inductive Reply :=
| Updated (setting shown : string)
| InvalidSetting (setting : string)
| ResetComplete
| UnknownParameter.

Global Instance Reply_eq_dec : EqDecision Reply.
Proof. solve_decision. Defined.

(** [list.includes(value)] *)
Definition includes (value : string) (l : list string) : bool := bool_decide (value ∈ l).

(** [handleSettingsConfig(chatId, setting, value)] on [this.userSettings];
    the reply is what it passes to [sendAndTrackMessage]. *)
Definition handleSettingsConfig (chatId : Z) (setting value : string)
    (userSettings : JsMap.t Config) : JsMap.t Config * Reply :=
  let userSettings :=
    if JsMap.has chatId userSettings then userSettings
    else JsMap.set chatId defaultSettings userSettings in
  let userConfig := default defaultSettings (JsMap.get chatId userSettings) in
  let store c := JsMap.set chatId c userSettings in
  if String.eqb setting "latency" then
    if includes value ["low"; "standard"; "high"] then
      (store {| latencyOptimization := value;
                precisionFilter := precisionFilter userConfig;
                websocketBuffer := websocketBuffer userConfig;
                analyticsDepth := analyticsDepth userConfig;
                riskCalibration := riskCalibration userConfig;
                signalSensitivity := signalSensitivity userConfig;
                noiseReduction := noiseReduction userConfig;
                algorithmVersion := algorithmVersion userConfig |},
       Updated setting value)
    else (userSettings, InvalidSetting setting)
  else if String.eqb setting "precision" then
    if includes value ["low"; "medium"; "high"; "ultra"] then
      (store {| latencyOptimization := latencyOptimization userConfig;
                precisionFilter := value;
                websocketBuffer := websocketBuffer userConfig;
                analyticsDepth := analyticsDepth userConfig;
                riskCalibration := riskCalibration userConfig;
                signalSensitivity := signalSensitivity userConfig;
                noiseReduction := noiseReduction userConfig;
                algorithmVersion := algorithmVersion userConfig |},
       Updated setting value)
    else (userSettings, InvalidSetting setting)
  else if String.eqb setting "buffer" then
    if includes value ["4kb"; "8kb"; "16kb"; "32kb"] then
      (store {| latencyOptimization := latencyOptimization userConfig;
                precisionFilter := precisionFilter userConfig;
                websocketBuffer := JsCase.toUpperCase value;
                analyticsDepth := analyticsDepth userConfig;
                riskCalibration := riskCalibration userConfig;
                signalSensitivity := signalSensitivity userConfig;
                noiseReduction := noiseReduction userConfig;
                algorithmVersion := algorithmVersion userConfig |},
       Updated setting (JsCase.toUpperCase value))
    else (userSettings, InvalidSetting setting)
  else if String.eqb setting "analytics" then
    if includes value ["basic"; "standard"; "advanced"; "pro"] then
      (store {| latencyOptimization := latencyOptimization userConfig;
                precisionFilter := precisionFilter userConfig;
                websocketBuffer := websocketBuffer userConfig;
                analyticsDepth := value;
                riskCalibration := riskCalibration userConfig;
                signalSensitivity := signalSensitivity userConfig;
                noiseReduction := noiseReduction userConfig;
                algorithmVersion := algorithmVersion userConfig |},
       Updated setting value)
    else (userSettings, InvalidSetting setting)
  else if String.eqb setting "risk" then
    if includes value ["conservative"; "moderate"; "aggressive"] then
      (store {| latencyOptimization := latencyOptimization userConfig;
                precisionFilter := precisionFilter userConfig;
                websocketBuffer := websocketBuffer userConfig;
                analyticsDepth := analyticsDepth userConfig;
                riskCalibration := value;
                signalSensitivity := signalSensitivity userConfig;
                noiseReduction := noiseReduction userConfig;
                algorithmVersion := algorithmVersion userConfig |},
       Updated setting value)
    else (userSettings, InvalidSetting setting)
  else if String.eqb setting "sensitivity" then
    if includes value ["low"; "balanced"; "high"; "extreme"] then
      (store {| latencyOptimization := latencyOptimization userConfig;
                precisionFilter := precisionFilter userConfig;
                websocketBuffer := websocketBuffer userConfig;
                analyticsDepth := analyticsDepth userConfig;
                riskCalibration := riskCalibration userConfig;
                signalSensitivity := value;
                noiseReduction := noiseReduction userConfig;
                algorithmVersion := algorithmVersion userConfig |},
       Updated setting value)
    else (userSettings, InvalidSetting setting)
  else if String.eqb setting "noise" then
    if includes value ["enabled"; "disabled"] then
      (store {| latencyOptimization := latencyOptimization userConfig;
                precisionFilter := precisionFilter userConfig;
                websocketBuffer := websocketBuffer userConfig;
                analyticsDepth := analyticsDepth userConfig;
                riskCalibration := riskCalibration userConfig;
                signalSensitivity := signalSensitivity userConfig;
                noiseReduction := value;
                algorithmVersion := algorithmVersion userConfig |},
       Updated setting value)
    else (userSettings, InvalidSetting setting)
  else if String.eqb setting "reset" then
    (JsMap.set chatId defaultSettings userSettings, ResetComplete)
  else (userSettings, UnknownParameter).

(** The handler of [/settings <setting> <value>]: [m1] and [m2] are the two
    groups of its pattern, lower-cased before use. *)
Definition settingsCommand (chatId : Z) (m1 m2 : string) (userSettings : JsMap.t Config)
  : JsMap.t Config * Reply :=
  handleSettingsConfig chatId (JsCase.toLowerCase m1) (JsCase.toLowerCase m2) userSettings.

(** What [/settings], [handleSettingsButton] and [handleSettingsOption] do
    to [this.userSettings]: a chat without settings gets the defaults. *)
Definition ensureSettings (chatId : Z) (userSettings : JsMap.t Config) : JsMap.t Config :=
  if JsMap.has chatId userSettings then userSettings
  else JsMap.set chatId defaultSettings userSettings.

(** The settings a chat is shown. *)
Definition settingsOf (chatId : Z) (userSettings : JsMap.t Config) : Config :=
  default defaultSettings (JsMap.get chatId userSettings).

Inductive Call :=
| ConfigCall (chatId : Z) (setting value : string)   (* [handleSettingsConfig] *)
| CommandCall (chatId : Z) (m1 m2 : string)          (* [/settings a b] *)
| ShowCall (chatId : Z).                             (* the overviews *)

Definition step (c : Call) (userSettings : JsMap.t Config) : JsMap.t Config :=
  match c with
  | ConfigCall chatId setting value => (handleSettingsConfig chatId setting value userSettings).1
  | CommandCall chatId m1 m2 => (settingsCommand chatId m1 m2 userSettings).1
  | ShowCall chatId => ensureSettings chatId userSettings
  end.

(** [this.userSettings] after a sequence of calls, starting from the empty
    map of the constructor. *)
Definition run (calls : list Call) : JsMap.t Config :=
  fold_left (λ us c, step c us) calls [].

(** The values each field may hold. *)
Definition allowed (c : Config) : Prop :=
  latencyOptimization c ∈ ["low"; "standard"; "high"]
  ∧ precisionFilter c ∈ ["low"; "medium"; "high"; "ultra"]
  ∧ websocketBuffer c ∈ ["4KB"; "8KB"; "16KB"; "32KB"]
  ∧ analyticsDepth c ∈ ["basic"; "standard"; "advanced"; "pro"]
  ∧ riskCalibration c ∈ ["conservative"; "moderate"; "aggressive"]
  ∧ signalSensitivity c ∈ ["low"; "balanced"; "high"; "extreme"]
  ∧ noiseReduction c ∈ ["enabled"; "disabled"]
  ∧ algorithmVersion c = "v2.1.4".

(** A configuration as the list of its fields, under the names that
    [handleSettingsConfig] switches on. *)
Definition fields (c : Config) : list (string * string) :=
  [ ("latency", latencyOptimization c); ("precision", precisionFilter c);
    ("buffer", websocketBuffer c); ("analytics", analyticsDepth c);
    ("risk", riskCalibration c); ("sensitivity", signalSensitivity c);
    ("noise", noiseReduction c); ("version", algorithmVersion c) ].

End UserSettings.

(** ** The signal configuration of a chat: [userSignals]

    [{ ...this.defaultSignalConfig }] is a shallow copy: the scalar fields
    are copied, the [categories] field is copied as a reference.  The state
    therefore keeps the category objects in a store and the configurations
    hold references into it. *)

Module UserSignals.

(** An object with boolean properties, in property order. *)
Definition Categories := list (string * bool).

(** [o[k]]; [None] is [undefined]. *)
Fixpoint getProp (k : string) (o : Categories) : option bool :=
  match o with
  | [] => None
  | (k', v) :: o' => if String.eqb k' k then Some v else getProp k o'
  end.

(** [o[k] = v]: an existing property keeps its place, a new one goes last. *)
Fixpoint setProp (k : string) (v : bool) (o : Categories) : Categories :=
  match o with
  | [] => [(k, v)]
  | (k', v') :: o' => if String.eqb k' k then (k, v) :: o' else (k', v') :: setProp k v o'
  end.

Record SignalConfig := {
  enabled : bool;
  riskLevel : string;
  minConfidence : Z;
  lastActivation : option Z;      (* [null] or a time *)
  categories : nat                (* reference to a category object *)
}.

Record State := {
  objects : list Categories;                (* the category objects there are *)
  defaultSignalConfig : SignalConfig;
  userSignals : JsMap.t SignalConfig
}.

(** The constructor: one category object, referenced by the defaults. *)
Definition initial : State :=
  {| objects := [[("momentum", false); ("volumeSpikes", false);
                  ("patternRecognition", false); ("sentimentAnalysis", false);
                  ("technicalIndicators", false)]];
     defaultSignalConfig :=
       {| enabled := false; riskLevel := "medium"; minConfidence := 75;
          lastActivation := None; categories := 0 |};
     userSignals := [] |}.

(** [if (!this.userSignals.has(chatId)) this.userSignals.set(chatId,
    { ...this.defaultSignalConfig })]: the copy has the fields of the
    defaults, the reference included. *)
Definition ensureSignals (chatId : Z) (st : State) : State :=
  if JsMap.has chatId (userSignals st) then st
  else {| objects := objects st; defaultSignalConfig := defaultSignalConfig st;
          userSignals := JsMap.set chatId (defaultSignalConfig st) (userSignals st) |}.

(** The configuration a handler works on after [ensureSignals]. *)
Definition configOf (chatId : Z) (st : State) : SignalConfig :=
  default (defaultSignalConfig st) (JsMap.get chatId (userSignals st)).

(** The category object a chat's configuration refers to. *)
Definition categoriesOf (chatId : Z) (st : State) : Categories :=
  default [] (objects st !! categories (configOf chatId st)).

(** [handleSignalsToggle(chatId)], [now] being [Date.now()]; the result
    tells whether the signals are enabled afterwards. *)
Definition handleSignalsToggle (chatId : Z) (now : Z) (st : State) : State * bool :=
  let st := ensureSignals chatId st in
  let signalsConfig := configOf chatId st in
  let e := negb (enabled signalsConfig) in
  ({| objects := objects st; defaultSignalConfig := defaultSignalConfig st;
      userSignals :=
        JsMap.set chatId
          {| enabled := e; riskLevel := riskLevel signalsConfig;
             minConfidence := minConfidence signalsConfig;
             lastActivation := if e then Some now else None;
             categories := categories signalsConfig |}
          (userSignals st) |}, e).

(** The [switch] of [handleSignalsCategory] that names the category. *)
Definition categoryName (category : string) : string :=
  if String.eqb category "momentum" then "Momentum Analysis"
  else if String.eqb category "volumeSpikes" then "Volume Spike Detection"
  else if String.eqb category "patternRecognition" then "Pattern Recognition"
  else if String.eqb category "sentimentAnalysis" then "Sentiment Analysis"
  else if String.eqb category "technicalIndicators" then "Technical Indicators"
  else "".

(** [handleSignalsCategory(chatId, category)]; the result is [isEnabled]
    and the name its text shows.  [!undefined] is [true]. *)
Definition handleSignalsCategory (chatId : Z) (category : string) (st : State)
  : State * (bool * string) :=
  let st := ensureSignals chatId st in
  let signalsConfig := configOf chatId st in
  let o := default [] (objects st !! categories signalsConfig) in
  let isEnabled := negb (default false (getProp category o)) in
  ({| objects := <[categories signalsConfig := setProp category isEnabled o]> (objects st);
      defaultSignalConfig := defaultSignalConfig st;
      userSignals := userSignals st |},
   (isEnabled, categoryName category)).

(** The numbers [/signals] and [handleSignalsButton] show: whether the
    signals are enabled and [activeCategories], the count of
    [Object.values(signalsConfig.categories)] that are true. *)
Definition signalsOverview (chatId : Z) (st : State) : State * (bool * nat) :=
  let st := ensureSignals chatId st in
  (st, (enabled (configOf chatId st),
        length (List.filter (λ p : string * bool, p.2) (categoriesOf chatId st)))).

Inductive Call :=
| ToggleCall (chatId : Z) (now : Z)
| CategoryCall (chatId : Z) (category : string)
| OverviewCall (chatId : Z).

Definition step (c : Call) (st : State) : State :=
  match c with
  | ToggleCall chatId now => (handleSignalsToggle chatId now st).1
  | CategoryCall chatId category => (handleSignalsCategory chatId category st).1
  | OverviewCall chatId => (signalsOverview chatId st).1
  end.

Definition run (calls : list Call) : State := fold_left (λ st c, step c st) calls initial.


(** A configuration has an activation time exactly while it is enabled. *)
Definition stamped (c : SignalConfig) : Prop :=
  enabled c = true ↔ lastActivation c ≠ None.

(** What every configuration satisfies: the activation time goes with
    [enabled], and the two fields no handler assigns are the initial ones. *)
Definition wellFormed (c : SignalConfig) : Prop :=
  stamped c ∧ riskLevel c = "medium" ∧ minConfidence c = 75.

Definition allWellFormed (st : State) : Prop :=
  wellFormed (defaultSignalConfig st) ∧ ∀ e, e ∈ userSignals st → wellFormed e.2.

(** How often chat [c] has called [handleSignalsToggle]. *)
Definition toggles (c : Z) (calls : list Call) : nat :=
  length (List.filter (λ call, match call with
                               | ToggleCall k _ => bool_decide (k = c)
                               | _ => false
                               end) calls).


End UserSignals.

(** ** The buttons: the [callback_query] handler *)

Module Buttons.

(** What the [switch] over [callbackQuery.data] calls. *)
Inductive Action :=
| StatusButton
| ListButton
| TrackHelpButton
| UntrackHelpButton
| SettingsButton
| SignalsButton
| HelpButton
| CommandsButton
| ClearButton
| SettingsOption (option : string)         (* [handleSettingsOption(chatId, option)] *)
| SettingsConfig (setting value : string)  (* [handleSettingsConfig(chatId, setting, value)] *)
| SettingsSaved
| SignalsToggle
| SignalsCategory (category : string)      (* [handleSignalsCategory(chatId, category)] *)
| SignalsConfig
| UnknownCommand.                          (* [default]: the text 'Unknown command' *)

Global Instance Action_eq_dec : EqDecision Action.
Proof. solve_decision. Defined.

Definition cases : list (string * Action) :=
  [ ("status", StatusButton); ("list", ListButton); ("track_help", TrackHelpButton);
    ("untrack_help", UntrackHelpButton); ("settings", SettingsButton);
    ("signals", SignalsButton); ("help", HelpButton); ("commands", CommandsButton);
    ("clear", ClearButton);
    ("settings_latency", SettingsOption "latency");
    ("settings_precision", SettingsOption "precision");
    ("settings_analytics", SettingsOption "analytics");
    ("settings_risk", SettingsOption "risk");
    ("settings_reset", SettingsConfig "reset" "");
    ("settings_save", SettingsSaved);
    ("latency_low", SettingsConfig "latency" "low");
    ("latency_standard", SettingsConfig "latency" "standard");
    ("latency_high", SettingsConfig "latency" "high");
    ("precision_low", SettingsConfig "precision" "low");
    ("precision_medium", SettingsConfig "precision" "medium");
    ("precision_high", SettingsConfig "precision" "high");
    ("precision_ultra", SettingsConfig "precision" "ultra");
    ("analytics_basic", SettingsConfig "analytics" "basic");
    ("analytics_standard", SettingsConfig "analytics" "standard");
    ("analytics_advanced", SettingsConfig "analytics" "advanced");
    ("analytics_pro", SettingsConfig "analytics" "pro");
    ("risk_conservative", SettingsConfig "risk" "conservative");
    ("risk_moderate", SettingsConfig "risk" "moderate");
    ("risk_aggressive", SettingsConfig "risk" "aggressive");
    ("signals_toggle", SignalsToggle);
    ("signals_momentum", SignalsCategory "momentum");
    ("signals_volume", SignalsCategory "volumeSpikes");
    ("signals_patterns", SignalsCategory "patternRecognition");
    ("signals_sentiment", SignalsCategory "sentimentAnalysis");
    ("signals_indicators", SignalsCategory "technicalIndicators");
    ("signals_config", SignalsConfig) ].

(** [switch(data)]: the first [case] equal to [data], or [default]. *)
Fixpoint switch (data : string) (cs : list (string * Action)) : Action :=
  match cs with
  | [] => UnknownCommand
  | (label, action) :: cs' => if String.eqb data label then action else switch data cs'
  end.

Definition dispatch (data : string) : Action := switch data cases.

(** The [callback_data] of the keyboard of [/start]. *)
Definition startKeyboard : list string :=
  ["status"; "list"; "track_help"; "untrack_help"; "settings"; "signals"; "help";
   "commands"; "clear"].

(** The keyboard of [/settings] and [handleSettingsButton]. *)
Definition settingsKeyboard : list string :=
  ["settings_latency"; "settings_precision"; "settings_analytics"; "settings_risk";
   "settings_reset"; "settings_save"].

(** The keyboard [handleSettingsOption(chatId, option)] sends. *)
Definition optionKeyboard (option : string) : list string :=
  if String.eqb option "latency" then ["latency_low"; "latency_standard"; "latency_high"]
  else if String.eqb option "precision"
  then ["precision_low"; "precision_medium"; "precision_high"; "precision_ultra"]
  else if String.eqb option "analytics"
  then ["analytics_basic"; "analytics_standard"; "analytics_advanced"; "analytics_pro"]
  else if String.eqb option "risk"
  then ["risk_conservative"; "risk_moderate"; "risk_aggressive"]
  else ["settings"].

(** The keyboard of [/signals] and [handleSignalsButton]. *)
Definition signalsKeyboard : list string :=
  ["signals_toggle"; "signals_momentum"; "signals_volume"; "signals_patterns";
   "signals_sentiment"; "signals_indicators"; "signals_config"].

(** The keyboard an action answers with, if it sends one. *)
Definition keyboardOf (a : Action) : list string :=
  match a with
  | SettingsButton => settingsKeyboard
  | SettingsOption option => optionKeyboard option
  | SignalsButton => signalsKeyboard
  | _ => []
  end.

(** The buttons reachable from the keyboard of [/start], [/settings] or
    [/signals] in at most [n] presses. *)
Fixpoint reachableButtons (n : nat) : list string :=
  match n with
  | O => startKeyboard ++ settingsKeyboard ++ signalsKeyboard
  | S n' =>
      reachableButtons n'
      ++ flat_map (λ data, keyboardOf (dispatch data)) (reachableButtons n')
  end.

End Buttons.

(** ** Numbers

    The limits are numbers with integer values ([parseInt(...) || 3]) and
    the sizes are small integers; a difference of two such numbers is the
    double nearest to the exact difference. *)

Module JsNumber.

(** The double nearest to the integer [z], ties to the even mantissa: an
    integer below [2^53] in absolute value is a double, a larger one keeps
    its 53 leading bits.  (The range of the exponent is not modelled.) *)
Definition roundInt (z : Z) : Z :=
  let m := Z.abs z in
  if m <? 2 ^ 53 then z
  else
    let e := Z.log2 m - 52 in
    let q := m / 2 ^ e in
    let r := m mod 2 ^ e in
    let half := 2 ^ (e - 1) in
    let q' :=
      if r <? half then q
      else if half <? r then q + 1
      else if Z.even q then q else q + 1 in
    Z.sgn z * (q' * 2 ^ e).

(** [a - b] *)
Definition sub (a b : Z) : Z := roundInt (a - b).

End JsNumber.

(** ** [clearBotMessages], [handleStatusButton], [handleListButton] *)

Inductive ClearReply :=
| NoMessagesToClear
| MessagesCleared (deletedCount failedCount : Z).

(** The loop of [clearBotMessages] over the stored ids: [deleteSucceeds]
    tells whether [this.bot.deleteMessage(chatId, id)] resolves. *)
Definition deleteAll (deleteSucceeds : Z -> bool) (messageIds : list Z) : Z * Z :=
  fold_left
    (λ (counts : Z * Z) (messageId : Z),
       if deleteSucceeds messageId then (counts.1 + 1, counts.2) else (counts.1, counts.2 + 1))
    messageIds (0, 0).

(** [clearBotMessages(chatId)], run without another handler touching the
    chat's list between its [await]s.  The result holds the ids passed to
    [deleteMessage], in order, and the text sent with [this.bot.sendMessage],
    which is not recorded in [botMessageIds]. *)
Definition clearBotMessages (deleteSucceeds : Z -> bool) (chatId : Z) (st : Bot)
  : Bot * (list Z * ClearReply) :=
  let messageIds := messageIdsOf chatId st in
  if (length messageIds =? 0)%nat then (st, ([], NoMessagesToClear))
  else
    let counts := deleteAll deleteSucceeds messageIds in
    (clearBotMessages_end chatId st, (messageIds, MessagesCleared counts.1 counts.2)).

(** The numbers of the status text that the bot computes itself (the total
    it shows beside them is the engine's). *)
Record StatusNumbers := {
  userWalletCount : Z;
  remainingSlots : Z
}.

(** [handleStatusButton(chatId)] and the [/status] handler compute these. *)
Definition statusNumbers (chatId : Z) (st : Bot) : StatusNumbers :=
  let count := JsSet.size (walletsOf chatId st) in
  {| userWalletCount := count;
     remainingSlots := JsNumber.sub (MAX_WALLETS_PER_USER st) count |}.

Inductive ListReply :=
| NoWalletsTracked (availableSlots : Z)
| TrackedWallets (wallets : list string) (currentCount limit : Z) (canTrackMore : bool).

(** [handleListButton(chatId)]: the wallets in the order of the set, the
    count, and whether the text offers more slots or says the limit is
    reached. *)
Definition handleListButton (chatId : Z) (st : Bot) : ListReply :=
  if JsMap.has chatId (userWallets st) && (JsSet.size (walletsOf chatId st) >? 0) then
    let wallets := walletsOf chatId st in
    let currentCount := Z.of_nat (length wallets) in
    let remaining := JsNumber.sub (MAX_WALLETS_PER_USER st) currentCount in
    TrackedWallets wallets currentCount (MAX_WALLETS_PER_USER st) (remaining >? 0)
  else NoWalletsTracked (MAX_WALLETS_PER_USER st).


(** ** The script that tests the environment variables *)

Module EnvCheck.

(** [s.split(',')] *)
Fixpoint splitComma (s : string) : list string :=
  match s with
  | EmptyString => [EmptyString]
  | String c s' =>
      if Ascii.eqb c ","%char then EmptyString :: splitComma s'
      else match splitComma s' with
           | piece :: pieces => String c piece :: pieces
           | [] => [String c EmptyString]
           end
  end.

(** [!!value] for a variable of the environment: a string or [undefined]. *)
Definition isSet (value : option string) : bool :=
  match value with
  | Some s => JsString.truthy s
  | None => false
  end.

(** The test [!key || key.length < 32] of the key loop. *)
Definition keyInvalid (key : string) : bool :=
  negb (JsString.truthy key) || (String.length key <? 32)%nat.

(** [hasErrors] at the end of [testEnvironmentVariables]: [token] and
    [keys] are [process.env.TELEGRAM_BOT_TOKEN] and
    [process.env.HELIUS_API_KEYS]. *)
Definition hasErrors (token keys : option string) : bool :=
  let hasErrors :=
    fold_left (λ (hasErrors : bool) (value : option string),
                 if negb (isSet value) then true else hasErrors)
      [token; keys] false in
  match keys with
  | Some k =>
      if JsString.truthy k then
        fold_left (λ (hasErrors : bool) (key : string),
                     if keyInvalid key then true else hasErrors)
          (map JsString.trim (splitComma k)) hasErrors
      else hasErrors
  | None => hasErrors
  end.

(** The status the script ends with: [process.exit(1)] on errors. *)
Definition exitCode (token keys : option string) : Z :=
  if hasErrors token keys then 1 else 0.

End EnvCheck.

(** * Properties *)

Example trim_example : JsString.trim "  ab c  " = "ab c".
Proof. reflexivity. Qed.

Example replace_example : JsString.replace "🟢 " "" "🟢 1.5 SOL" = "1.5 SOL".
Proof. reflexivity. Qed.

(** ** Sets and maps *)

Lemma JsSet_has_true (a : string) (s : JsSet.t) : JsSet.has a s = true ↔ a ∈ s.
Proof. unfold JsSet.has. by rewrite bool_decide_eq_true. Qed.

Lemma JsSet_has_false (a : string) (s : JsSet.t) : JsSet.has a s = false ↔ a ∉ s.
Proof. unfold JsSet.has. by rewrite bool_decide_eq_false. Qed.

Lemma JsSet_elem_of_add (x a : string) (s : JsSet.t) :
  x ∈ JsSet.add a s ↔ x = a ∨ x ∈ s.
Proof.
  unfold JsSet.add. destruct (JsSet.has a s) eqn:H.
  - apply JsSet_has_true in H. split; [by right | intros [-> | ?]; done].
  - rewrite elem_of_app, list_elem_of_singleton. tauto.
Qed.

Lemma JsSet_elem_of_delete (x a : string) (s : JsSet.t) :
  x ∈ JsSet.delete a s ↔ x ≠ a ∧ x ∈ s.
Proof. unfold JsSet.delete. by rewrite list_elem_of_filter. Qed.

Lemma JsSet_NoDup_add (a : string) (s : JsSet.t) : NoDup s → NoDup (JsSet.add a s).
Proof.
  intros Hs. unfold JsSet.add. destruct (JsSet.has a s) eqn:H; [done|].
  apply JsSet_has_false in H. apply NoDup_app. split_and!; [done | | apply NoDup_singleton].
  intros x Hx ->%list_elem_of_singleton. done.
Qed.

Lemma JsSet_NoDup_delete (a : string) (s : JsSet.t) : NoDup s → NoDup (JsSet.delete a s).
Proof. apply NoDup_filter. Qed.

Section MapFacts.
Context {V : Type}.
Implicit Types (m : JsMap.t V) (k : Z) (v : V).

Lemma JsMap_get_set_eq k v m : JsMap.get k (JsMap.set k v m) = Some v.
Proof.
  induction m as [|[k' v'] m IH]; simpl.
  - by rewrite bool_decide_eq_true_2.
  - case_bool_decide; simpl.
    + by rewrite bool_decide_eq_true_2.
    + by rewrite bool_decide_eq_false_2.
Qed.

Lemma JsMap_get_set_ne k k' v m : k ≠ k' → JsMap.get k' (JsMap.set k v m) = JsMap.get k' m.
Proof.
  intros Hne. induction m as [|[k0 v0] m IH]; simpl.
  - by rewrite bool_decide_eq_false_2.
  - case_bool_decide as H0; simpl.
    + subst k0. by rewrite !bool_decide_eq_false_2.
    + by rewrite IH.
Qed.

Lemma JsMap_get_None k m : JsMap.get k m = None ↔ k ∉ JsMap.keys m.
Proof.
  induction m as [|[k' v'] m IH]; simpl.
  - split; [intros _; apply not_elem_of_nil | done].
  - rewrite not_elem_of_cons. case_bool_decide; simpl; [split; [done | intros [? _]; congruence] |].
    rewrite IH. split; [intros; split; congruence | tauto].
Qed.

Lemma JsMap_get_Some k v m : JsMap.get k m = Some v → (k, v) ∈ m.
Proof.
  induction m as [|[k' v'] m IH]; simpl; [done|].
  case_bool_decide.
  - intros [= ->]. subst. left.
  - intros. right. auto.
Qed.

Lemma JsMap_elem_of_get k v m : NoDup (JsMap.keys m) → (k, v) ∈ m → JsMap.get k m = Some v.
Proof.
  induction m as [|[k' v'] m IH]; simpl; [by intros _ ?%elem_of_nil|].
  intros [Hk Hm]%NoDup_cons [[= -> ->] | Hin]%elem_of_cons.
  - by rewrite bool_decide_eq_true_2.
  - rewrite bool_decide_eq_false_2; [auto|].
    intros ->. apply Hk. unfold JsMap.keys. apply list_elem_of_fmap. by exists (k, v).
Qed.

Lemma JsMap_keys_set k v m :
  JsMap.keys (JsMap.set k v m) = if JsMap.has k m then JsMap.keys m else JsMap.keys m ++ [k].
Proof.
  unfold JsMap.has. induction m as [|[k' v'] m IH]; simpl; [done|].
  case_bool_decide; simpl; [by subst|].
  rewrite IH. by destruct (JsMap.get k m).
Qed.

Lemma JsMap_NoDup_set k v m : NoDup (JsMap.keys m) → NoDup (JsMap.keys (JsMap.set k v m)).
Proof.
  intros Hm. rewrite JsMap_keys_set. unfold JsMap.has.
  destruct (JsMap.get k m) eqn:H; [done|].
  apply JsMap_get_None in H. apply NoDup_app. split_and!; [done | | apply NoDup_singleton].
  intros x Hx ->%list_elem_of_singleton. done.
Qed.

Lemma JsMap_elem_of_set k v k' v' m :
  NoDup (JsMap.keys m) →
  (k', v') ∈ JsMap.set k v m ↔ (k' = k ∧ v' = v) ∨ (k' ≠ k ∧ (k', v') ∈ m).
Proof.
  intros Hm. pose proof (JsMap_NoDup_set k v m Hm) as Hm'. split.
  - intros Hin. apply (JsMap_elem_of_get _ _ _ Hm') in Hin.
    destruct (decide (k' = k)) as [->|Hne].
    + rewrite JsMap_get_set_eq in Hin. left. split; congruence.
    + rewrite JsMap_get_set_ne in Hin by done. right. split; [done|]. by apply JsMap_get_Some.
  - intros [[-> ->] | [Hne Hin]]; apply JsMap_get_Some.
    + apply JsMap_get_set_eq.
    + rewrite JsMap_get_set_ne by done. by apply JsMap_elem_of_get.
Qed.

End MapFacts.

(** ** The [/track] command *)

Lemma walletsOf_set_empty (chatId c : Z) (st : Bot) :
  JsMap.has chatId (userWallets st) = false →
  walletsOf c (with_userWallets (JsMap.set chatId [] (userWallets st)) st) = walletsOf c st.
Proof.
  unfold JsMap.has, walletsOf. simpl. destruct (JsMap.get chatId (userWallets st)) eqn:Hget; [done|].
  intros _. destruct (decide (chatId = c)) as [->|Hne].
  - by rewrite JsMap_get_set_eq, Hget.
  - by rewrite JsMap_get_set_ne.
Qed.

(** C4: a [/track] for an address the chat already tracks, or issued when the
    chat already holds [MAX_WALLETS_PER_USER] addresses, is rejected: no
    chat's wallet set changes, the engine's tracked set is unchanged,
    [websocket.addWallet] is not called, and the only effect is one message
    to the chat, which is one of the three rejections. *)
Theorem track_rejects_duplicate_or_full
    (validateWalletAddress : string → bool) (chatId : Z) (arg : string) (now : Z) (st : Bot) :
  JsString.trim arg ∈ walletsOf chatId st
  ∨ MAX_WALLETS_PER_USER st ≤ JsSet.size (walletsOf chatId st) →
  let r := track validateWalletAddress chatId arg now st in
  (∀ c, walletsOf c r.1 = walletsOf c st)
  ∧ websocket r.1 = websocket st
  ∧ (∀ a, AddWallet a ∉ r.2)
  ∧ ∃ m, r.2 = [SendTracked chatId m]
         ∧ (m = MsgAlreadyTracking (JsString.trim arg)
            ∨ m = MsgWalletLimitReached (MAX_WALLETS_PER_USER st) (walletsOf chatId st)
            ∨ m = MsgInvalidAddress).
Proof.
  intros Hrej. unfold track.
  destruct (validateWalletAddress (JsString.trim arg)); simpl.
  2: { split_and!; [done | done | | eauto].
       intros a [?|?%elem_of_nil]%elem_of_cons; done. }
  set (st0 := updateUserActivity now st).
  set (st1 := if JsMap.has chatId (userWallets st) then st0 else _).
  assert (Hw : ∀ c, walletsOf c st1 = walletsOf c st).
  { intros c. subst st1. destruct (JsMap.has chatId (userWallets st)) eqn:Hhas; [done|].
    by rewrite <- (walletsOf_set_empty chatId c st Hhas). }
  assert (Hws : websocket st1 = websocket st).
  { subst st1. by destruct (JsMap.has chatId (userWallets st)). }
  assert (Hmax : MAX_WALLETS_PER_USER st1 = MAX_WALLETS_PER_USER st).
  { subst st1. by destruct (JsMap.has chatId (userWallets st)). }
  rewrite (Hw chatId). destruct (JsSet.has (JsString.trim arg) (walletsOf chatId st)) eqn:Hhas; simpl.
  { split_and!; [done | done | | eauto].
    intros a [?|?%elem_of_nil]%elem_of_cons; done. }
  rewrite Hmax.
  destruct (JsSet.size (walletsOf chatId st) >=? MAX_WALLETS_PER_USER st) eqn:Hfull; simpl.
  { split_and!; [done | done | | eauto 6].
    intros a [?|?%elem_of_nil]%elem_of_cons; done. }
  apply JsSet_has_false in Hhas. destruct Hrej as [?|?]; [done | lia].
Qed.

(** A chat at the default limit of three wallets asks for a fourth. *)
Lemma track_rejects_duplicate_or_full_witness :
  let st :=
    {| userWallets := [(7, ["A"; "B"; "C"])]; botMessageIds := [];
       lastUserActivity := 0; INACTIVITY_LIMIT := 300000; MAX_WALLETS_PER_USER := 3;
       websocket := {| trackedWallets := ["A"; "B"; "C"] |} |} in
  walletsOf 7 (track (λ _, true) 7 "D" 5 st).1 = ["A"; "B"; "C"]
  ∧ websocket (track (λ _, true) 7 "D" 5 st).1 = websocket st.
Proof.
  intros st.
  destruct (track_rejects_duplicate_or_full (λ _, true) 7 "D" 5 st) as (Hw & Hws & _).
  - right. vm_compute. discriminate.
  - split; [apply Hw | apply Hws].
Defined.

(** ** [notifyUsers] *)

Section NotifyFacts.

Variable formatTimestamp : Z → string.

Local Abbreviation format := (formatTransactionMessage formatTimestamp).
Local Abbreviation forEach := (notifyUsers_forEach formatTimestamp).

Lemma forEach_sends (data : TransactionData) (st : Bot) (entries : JsMap.t JsSet.t) (n : Z) :
  sends (forEach data st entries n).1
  = map (λ e, (e.1, MsgTransaction (format data st))) (trackers data entries).
Proof.
  revert n. induction entries as [|[chatId walletSet] entries IH]; intros n; simpl; [done|].
  unfold trackers in *. simpl.
  destruct (set_has_val (wallet data) walletSet) eqn:Hhas.
  - destruct (wallet data) as [| | | |a] eqn:Hw; simpl in Hhas; try done. simpl.
    specialize (IH (n + 1)). destruct (forEach data st entries (n + 1)) as [effs c].
    simpl in *. by rewrite IH.
  - destruct (wallet data) as [| | | |a] eqn:Hw; simpl.
    1-4: clear IH; induction entries as [|[k ws] entries IH']; simpl; done.
    specialize (IH n). destruct (forEach data st entries n) as [effs c].
    simpl in *. by rewrite IH.
Qed.

Lemma notifyUsers_sends (data : TransactionData) (st : Bot) :
  sends (notifyUsers formatTimestamp data st).1
  = if identifiesWallet data
    then map (λ e, (e.1, MsgTransaction (format data st))) (trackers data (userWallets st))
    else [].
Proof.
  unfold notifyUsers, identifiesWallet.
  destruct (truthy (wallet data)); simpl; [|done].
  destruct (strict_eq_string (wallet data) "Unknown Wallet"); simpl; [done|].
  unfold try_catch, notifyUsers_try.
  pose proof (forEach_sends data st (userWallets st) 0) as H.
  destruct (forEach data st (userWallets st) 0) as [effs [n|e]]; simpl in *.
  - destruct (walletPrefix (wallet data)); simpl; unfold sends in *;
      rewrite omap_app; simpl; rewrite app_nil_r; exact H.
  - unfold sends in *. rewrite omap_app. simpl. rewrite app_nil_r. exact H.
Qed.

(** With distinct keys, a chat occurs among the trackers once if its set
    holds the wallet and not at all otherwise. *)
Lemma trackers_count (data : TransactionData) (a : string) (chatId : Z)
    (entries : JsMap.t JsSet.t) :
  wallet data = JsStr a →
  NoDup (JsMap.keys entries) →
  length (List.filter (λ e : Z * JsSet.t, bool_decide (e.1 = chatId)) (trackers data entries))
  = if bool_decide (a ∈ default [] (JsMap.get chatId entries)) then 1%nat else 0%nat.
Proof.
  intros Hw. unfold trackers. rewrite Hw.
  induction entries as [|[k ws] entries IH]; simpl; [done|].
  intros [Hk Hnd]%NoDup_cons. specialize (IH Hnd).
  destruct (decide (k = chatId)) as [->|Hkc].
  - rewrite (bool_decide_eq_true_2 (chatId = chatId)) by done. simpl.
    assert (JsMap.get chatId entries = None) as Hnone by by apply JsMap_get_None.
    rewrite Hnone in IH. simpl in IH.
    unfold JsSet.has in *. destruct (decide (a ∈ ws)).
    + rewrite !(bool_decide_eq_true_2 (a ∈ ws)) by done. simpl.
      rewrite bool_decide_eq_true_2 by done. simpl. by rewrite IH.
    + rewrite !(bool_decide_eq_false_2 (a ∈ ws)) by done. done.
  - rewrite (bool_decide_eq_false_2 (k = chatId)) by done.
    destruct (JsSet.has a ws); simpl; [|done].
    by rewrite bool_decide_eq_false_2.
Qed.

(** C2: the messages that [notifyUsers] sends for a record are one
    notification for each entry of [userWallets] whose set holds the record's
    wallet, in the order of the map, and nothing else; a record whose wallet
    is absent, empty or ['Unknown Wallet'] is sent to nobody; and, keys of a
    [Map] being distinct, a chat gets exactly one message when its set holds
    the wallet and none when it does not. *)
Theorem notifyUsers_notifies_exactly_the_trackers (data : TransactionData) (st : Bot) :
  let out := sends (notifyUsers formatTimestamp data st).1 in
  out = (if identifiesWallet data
         then map (λ e, (e.1, MsgTransaction (format data st))) (trackers data (userWallets st))
         else [])
  ∧ (wallet data = JsUndefined ∨ wallet data = JsNull ∨ wallet data = JsStr ""
     ∨ wallet data = JsStr "Unknown Wallet" → out = [])
  ∧ (∀ a chatId,
       wallet data = JsStr a → a ≠ "" → a ≠ "Unknown Wallet" →
       NoDup (JsMap.keys (userWallets st)) →
       length (List.filter (λ s : Z * Message, bool_decide (s.1 = chatId)) out)
       = if bool_decide (a ∈ walletsOf chatId st) then 1%nat else 0%nat).
Proof.
  intros out. subst out. rewrite notifyUsers_sends. split_and!; [done | |].
  - unfold identifiesWallet. intros [-> | [-> | [-> | ->]]]; done.
  - intros a chatId Hw Hne Hunk Hnd.
    assert (identifiesWallet data = true) as ->.
    { unfold identifiesWallet. rewrite Hw. simpl. unfold JsString.truthy.
      apply andb_true_iff. split; apply negb_true_iff, String.eqb_neq; done. }
    etrans; [|exact (trackers_count data a chatId (userWallets st) Hw Hnd)].
    generalize (trackers data (userWallets st)). intros l.
    induction l as [|[k ws] l IH]; simpl; [done|].
    case_bool_decide; simpl; by rewrite IH.
Qed.

End NotifyFacts.

(** ** Failures of a send *)

Lemma cleanupOldMessageIds_frame (st : Bot) :
  userWallets (cleanupOldMessageIds st) = userWallets st
  ∧ websocket (cleanupOldMessageIds st) = websocket st.
Proof. done. Qed.

Lemma sendAndTrackMessage_resume_frame (chatId : Z) (outcome : SendOutcome) (st : Bot) :
  userWallets (sendAndTrackMessage_resume chatId outcome st).1.1 = userWallets st
  ∧ websocket (sendAndTrackMessage_resume chatId outcome st).1.1 = websocket st.
Proof.
  destruct outcome; simpl; [|done..].
  match goal with |- context [if ?b then cleanupOldMessageIds _ else _] => destruct b end; done.
Qed.

Lemma notifyUsers_settled_frame (chatId : Z) (outcome : SendOutcome) (st : Bot) :
  userWallets (notifyUsers_settled chatId outcome st).1 = userWallets st
  ∧ websocket (notifyUsers_settled chatId outcome st).1 = websocket st
  ∧ sends (notifyUsers_settled chatId outcome st).2 = [].
Proof.
  unfold notifyUsers_settled.
  pose proof (sendAndTrackMessage_resume_frame chatId outcome st) as [H1 H2].
  destruct outcome; simpl in *.
  - match goal with |- context [if ?b then cleanupOldMessageIds _ else _] => destruct b end; done.
  - done.
  - done.
Qed.

Lemma notifyUsers_settled_failed (chatId : Z) (outcome : SendOutcome) (st : Bot) :
  failed outcome →
  notifyUsers_settled chatId outcome st
  = (st, [Log (ConsoleErrorSendAndTrack chatId); Log (ErrorFailedToSend chatId)]).
Proof. by intros [-> | ->]. Qed.

Section FailureFacts.

Variable formatTimestamp : Z → string.
Variable outcome : Z → SendOutcome.

Local Abbreviation settle_all :=
  (fold_left
     (λ (acc : Bot * list Effect) (s : Z * Message),
        let '(st1, effs1) := notifyUsers_settled s.1 (outcome s.1) acc.1 in
        (st1, acc.2 ++ effs1))).

Lemma settle_all_spec (l : list (Z * Message)) (st : Bot) (acc : list Effect) :
  userWallets (settle_all l (st, acc)).1 = userWallets st
  ∧ websocket (settle_all l (st, acc)).1 = websocket st
  ∧ sends (settle_all l (st, acc)).2 = sends acc
  ∧ (∀ e, e ∈ acc → e ∈ (settle_all l (st, acc)).2)
  ∧ (∀ s, s ∈ l → failed (outcome s.1) →
       Log (ConsoleErrorSendAndTrack s.1) ∈ (settle_all l (st, acc)).2
       ∧ Log (ErrorFailedToSend s.1) ∈ (settle_all l (st, acc)).2).
Proof.
  revert st acc. induction l as [|s l IH]; intros st acc; simpl.
  { split_and!; try done. by intros s ?%elem_of_nil. }
  pose proof (notifyUsers_settled_frame s.1 (outcome s.1) st) as (Hu & Hw & Hs).
  destruct (notifyUsers_settled s.1 (outcome s.1) st) as [st1 effs1] eqn:Hsettle.
  simpl in *. destruct (IH st1 (acc ++ effs1)) as (IHu & IHw & IHs & IHacc & IHfail).
  split_and!.
  - congruence.
  - congruence.
  - rewrite IHs. unfold sends in *. by rewrite omap_app, Hs, app_nil_r.
  - intros e He. apply IHacc. apply elem_of_app. by left.
  - intros s' [->|Hin]%elem_of_cons Hfail; [|by apply IHfail].
    rewrite (notifyUsers_settled_failed _ _ st Hfail) in Hsettle.
    injection Hsettle as <- <-.
    split; apply IHacc; apply elem_of_app; right; repeat constructor.
Qed.

(** C7: whatever the outcome of each send, [notifyUsers] ends normally (the
    [TypeError] its loop may raise is caught), the sends it starts are those
    for all trackers of the record's wallet, independent of which of them
    fail, every failed send leaves the two error lines in the log, and
    neither [userWallets] nor the engine's tracked set has changed when all
    sends have ended. *)
Theorem notification_failure_is_contained (data : TransactionData) (st : Bot) :
  let r := notifyUsers_complete formatTimestamp data outcome st in
  r.2 = Normal tt
  ∧ sends r.1.2
    = (if identifiesWallet data
       then map (λ e, (e.1, MsgTransaction (formatTransactionMessage formatTimestamp data st)))
              (trackers data (userWallets st))
       else [])
  ∧ (∀ chatId m, (chatId, m) ∈ sends r.1.2 → failed (outcome chatId) →
       Log (ConsoleErrorSendAndTrack chatId) ∈ r.1.2
       ∧ Log (ErrorFailedToSend chatId) ∈ r.1.2)
  ∧ userWallets r.1.1 = userWallets st
  ∧ websocket r.1.1 = websocket st.
Proof.
  unfold notifyUsers_complete.
  pose proof (notifyUsers_sends formatTimestamp data st) as Hsends.
  assert ((notifyUsers formatTimestamp data st).2 = Normal tt) as Hnormal.
  { unfold notifyUsers, try_catch.
    destruct (negb (truthy (wallet data)) || strict_eq_string (wallet data) "Unknown Wallet");
      [done|].
    by destruct (notifyUsers_try formatTimestamp data st) as [effs [info|e]]. }
  destruct (notifyUsers formatTimestamp data st) as [effs c]. simpl in *.
  destruct (settle_all_spec (sends effs) st []) as (Hu & Hw & Hs & _ & Hfail).
  destruct (settle_all (sends effs) (st, [])) as [st' later]. simpl in *.
  assert (sends (effs ++ later) = sends effs) as Heq.
  { unfold sends in *. by rewrite omap_app, Hs, app_nil_r. }
  split_and!; try done.
  - by rewrite Heq.
  - rewrite Heq. intros chatId m Hin Hf.
    destruct (Hfail (chatId, m) Hin Hf) as [H1 H2].
    split; apply elem_of_app; by right.
Qed.

End FailureFacts.

(** The [try] block of [notifyUsers] does throw: a record whose wallet is a
    number makes the first log line of the loop fail. *)
Example notifyUsers_try_throws :
  let st := new_bot 0 300000 3 in
  let st := with_userWallets [(7, ["A"])] st in
  let data := {| wallet := JsNum 5; token := None; buySell := "BUY"; amount := None;
                 signature := "S1"; timestamp := 0 |} in
  notifyUsers_try (λ _, "") data st = ([], Throw TypeError)
  ∧ notifyUsers (λ _, "") data st = ([Log ConsoleErrorNotifyUsers], Normal tt).
Proof. done. Qed.

(** ** The stored message ids *)

Lemma keep_recent (l : list Z) :
  (if Z.of_nat (length l) >? MAX_MESSAGES_PER_USER
   then drop (Z.to_nat (Z.of_nat (length l) - MAX_MESSAGES_PER_USER)) l
   else l) = lastN 50 l.
Proof.
  unfold lastN, MAX_MESSAGES_PER_USER. destruct (Z.gtb_spec (Z.of_nat (length l)) 50).
  - f_equal. lia.
  - replace (length l - 50)%nat with 0%nat by lia. done.
Qed.

Lemma lastN_length {A} (n : nat) (l : list A) : (length (lastN n l) ≤ n)%nat.
Proof. unfold lastN. rewrite length_drop. lia. Qed.

Lemma JsMap_get_map_values (f : list Z → list Z) (P : list Z → bool) (k : Z)
    (m : JsMap.t (list Z)) :
  JsMap.get k (map (λ e : Z * list Z, if P e.2 then (e.1, f e.2) else e) m)
  = (λ v, if P v then f v else v) <$> JsMap.get k m.
Proof.
  induction m as [|[k' v'] m IH]; simpl; [done|].
  destruct (P v') eqn:HP; simpl; case_bool_decide; simpl; rewrite ?HP; done.
Qed.

(** What [cleanupOldMessageIds] does to one chat's list. *)
Lemma messageIdsOf_cleanup (c : Z) (st : Bot) :
  messageIdsOf c (cleanupOldMessageIds st)
  = let ids := messageIdsOf c st in
    if Z.of_nat (length ids) >? 100 then lastN 50 ids else ids.
Proof.
  unfold messageIdsOf, cleanupOldMessageIds. simpl.
  rewrite (JsMap_get_map_values
             (λ ids, drop (Z.to_nat (Z.of_nat (length ids) - MAX_MESSAGES_PER_USER)) ids)
             (λ ids, Z.of_nat (length ids) >? MAX_MESSAGES_PER_USER * 2)).
  destruct (JsMap.get c (botMessageIds st)) as [ids|]; simpl; [|done].
  change (MAX_MESSAGES_PER_USER * 2) with 100.
  destruct (Z.gtb_spec (Z.of_nat (length ids)) 100); [|done].
  unfold lastN, MAX_MESSAGES_PER_USER. f_equal. lia.
Qed.

Lemma messageIdsOf_cleanup_small (c : Z) (st : Bot) :
  (length (messageIdsOf c st) ≤ 100)%nat →
  messageIdsOf c (cleanupOldMessageIds st) = messageIdsOf c st.
Proof.
  intros H. rewrite messageIdsOf_cleanup. simpl.
  destruct (Z.gtb_spec (Z.of_nat (length (messageIdsOf c st))) 100); [lia | done].
Qed.

Lemma messageIdsOf_cleanup_length (c : Z) (st : Bot) :
  (length (messageIdsOf c (cleanupOldMessageIds st)) ≤ length (messageIdsOf c st))%nat.
Proof.
  rewrite messageIdsOf_cleanup. simpl.
  destruct (Z.of_nat (length (messageIdsOf c st)) >? 100); [|done].
  unfold lastN. rewrite length_drop. lia.
Qed.

(** A delivered message: the chat's list becomes the last fifty of the old
    list followed by the new id. *)
Lemma sendAndTrackMessage_resume_sent (chatId id : Z) (st : Bot) :
  messageIdsOf chatId (sendAndTrackMessage_resume chatId (Sent id) st).1.1
  = lastN 50 (messageIdsOf chatId st ++ [id]).
Proof.
  simpl. set (ids := if JsMap.has chatId (botMessageIds st) then _ else _).
  assert (default [] (JsMap.get chatId ids) = messageIdsOf chatId st) as Hold.
  { subst ids. unfold messageIdsOf, JsMap.has.
    destruct (JsMap.get chatId (botMessageIds st)) eqn:Hget; [by rewrite Hget|].
    by rewrite JsMap_get_set_eq. }
  rewrite Hold, keep_recent.
  set (st1 := with_botMessageIds _ st).
  assert (messageIdsOf chatId st1 = lastN 50 (messageIdsOf chatId st ++ [id])) as H1.
  { unfold messageIdsOf at 1. subst st1. simpl. by rewrite JsMap_get_set_eq. }
  match goal with |- context [if ?b then _ else _] => destruct b end; [|done].
  rewrite messageIdsOf_cleanup_small; [done|].
  rewrite H1. pose proof (lastN_length 50 (messageIdsOf chatId st ++ [id])). lia.
Qed.

(** The other chats keep their lists or have them shortened. *)
Lemma sendAndTrackMessage_resume_other (chatId c : Z) (outcome : SendOutcome) (st : Bot) :
  c ≠ chatId →
  (length (messageIdsOf c (sendAndTrackMessage_resume chatId outcome st).1.1)
   ≤ length (messageIdsOf c st))%nat.
Proof.
  intros Hne. destruct outcome as [id| |]; simpl; [|done..].
  set (ids := if JsMap.has chatId (botMessageIds st) then _ else _).
  set (st1 := with_botMessageIds _ st).
  assert (messageIdsOf c st1 = messageIdsOf c st) as H1.
  { unfold messageIdsOf. subst st1 ids. simpl. rewrite JsMap_get_set_ne by done.
    destruct (JsMap.has chatId (botMessageIds st)); [done|]. by rewrite JsMap_get_set_ne. }
  match goal with |- context [if ?b then _ else _] => destruct b end.
  - rewrite <- H1. apply messageIdsOf_cleanup_length.
  - by rewrite H1.
Qed.

Lemma sendAndTrackMessage_resume_failed (chatId c : Z) (outcome : SendOutcome) (st : Bot) :
  failed outcome →
  messageIdsOf c (sendAndTrackMessage_resume chatId outcome st).1.1 = messageIdsOf c st.
Proof. by intros [-> | ->]. Qed.

(** ** Runs of the event loop *)

Section RunFacts.

Variable validateWalletAddress : string → bool.
Variable formatTimestamp : Z → string.

Local Abbreviation step' := (step validateWalletAddress formatTimestamp).
Local Abbreviation run' := (run validateWalletAddress formatTimestamp).

(** A property of the fresh bot that every handler preserves holds after
    every sequence of events. *)
Lemma run_invariant (P : Bot → Prop) :
  (∀ ev st, P st → P (step' ev st).1) →
  ∀ evs st, P st → P (run' evs st).1.
Proof.
  intros Hstep evs. induction evs as [|ev evs IH]; intros st HP; simpl; [done|].
  specialize (Hstep ev st HP). destruct (step' ev st) as [st1 effs1].
  specialize (IH st1 Hstep). by destruct (run' evs st1) as [st2 effs2].
Qed.

Lemma track_botMessageIds (chatId : Z) (arg : string) (now : Z) (st : Bot) :
  botMessageIds (track validateWalletAddress chatId arg now st).1 = botMessageIds st.
Proof.
  unfold track. repeat match goal with |- context [if ?b then _ else _] => destruct b end; done.
Qed.

Lemma untrack_botMessageIds (chatId : Z) (arg : string) (now : Z) (st : Bot) :
  botMessageIds (untrack chatId arg now st).1 = botMessageIds st.
Proof.
  unfold untrack. simpl. destruct (JsMap.get chatId (userWallets st)); [|done].
  repeat match goal with |- context [if ?b then _ else _] => destruct b end; done.
Qed.

Lemma inactivityMonitor_tick_botMessageIds (now : Z) (st : Bot) :
  botMessageIds (inactivityMonitor_tick now st).1 = botMessageIds st.
Proof.
  unfold inactivityMonitor_tick.
  match goal with |- context [if ?b then _ else _] => destruct b end; done.
Qed.

Lemma step_message_ids_bounded (ev : Event) (st : Bot) :
  (∀ c, Z.of_nat (length (messageIdsOf c st)) ≤ MAX_MESSAGES_PER_USER) →
  ∀ c, Z.of_nat (length (messageIdsOf c (step' ev st).1)) ≤ MAX_MESSAGES_PER_USER.
Proof.
  intros Hinv c. specialize (Hinv c) as Hc. unfold MAX_MESSAGES_PER_USER in *.
  assert (∀ chatId outcome,
            Z.of_nat (length (messageIdsOf c
              (sendAndTrackMessage_resume chatId outcome st).1.1)) ≤ 50) as Hresume.
  { intros chatId outcome. destruct (decide (c = chatId)) as [->|Hne].
    - destruct outcome as [id| |].
      + rewrite sendAndTrackMessage_resume_sent.
        pose proof (lastN_length 50 (messageIdsOf chatId st ++ [id])). lia.
      + by rewrite sendAndTrackMessage_resume_failed by by left.
      + by rewrite sendAndTrackMessage_resume_failed by by right.
    - pose proof (sendAndTrackMessage_resume_other chatId c outcome st Hne). lia. }
  destruct ev as [chatId arg now|chatId arg now|chatId now|data|chatId outcome
                 |chatId outcome|chatId|now]; simpl.
  - unfold messageIdsOf in *. by rewrite track_botMessageIds.
  - unfold messageIdsOf in *. by rewrite untrack_botMessageIds.
  - done.
  - done.
  - specialize (Hresume chatId outcome).
    by destruct (sendAndTrackMessage_resume chatId outcome st) as [[st1 effs] r].
  - specialize (Hresume chatId outcome). unfold notifyUsers_settled.
    by destruct (sendAndTrackMessage_resume chatId outcome st) as [[st1 effs] []].
  - unfold messageIdsOf, clearBotMessages_end in *. simpl.
    destruct (decide (chatId = c)) as [->|Hne].
    + by rewrite JsMap_get_set_eq.
    + by rewrite JsMap_get_set_ne.
  - unfold messageIdsOf in *. by rewrite inactivityMonitor_tick_botMessageIds.
Qed.

(** C9: when a send to a chat has ended with a delivery, the list stored
    for the chat is the last fifty ids of its former list followed by the new
    id, so the oldest ids are the ones dropped; and after any sequence of
    events every chat's list has at most [MAX_MESSAGES_PER_USER] ids. *)
Theorem stored_message_ids_are_the_recent_fifty :
  (∀ st chatId id,
     messageIdsOf chatId (sendAndTrackMessage_resume chatId (Sent id) st).1.1
     = lastN (Z.to_nat MAX_MESSAGES_PER_USER) (messageIdsOf chatId st ++ [id]))
  ∧ (∀ now inactivityLimit maxWallets evs chatId,
       Z.of_nat (length (messageIdsOf chatId
                   (run' evs (new_bot now inactivityLimit maxWallets)).1))
       ≤ MAX_MESSAGES_PER_USER).
Proof.
  split.
  - intros st chatId id. apply sendAndTrackMessage_resume_sent.
  - intros now inactivityLimit maxWallets evs.
    apply (run_invariant
             (λ st, ∀ c, Z.of_nat (length (messageIdsOf c st)) ≤ MAX_MESSAGES_PER_USER)).
    + intros ev st. apply step_message_ids_bounded.
    + intros c. unfold MAX_MESSAGES_PER_USER. simpl. lia.
Qed.

End RunFacts.

(** Sixty deliveries to one chat: ids 11 to 60 remain, in order. *)
Example sixty_deliveries :
  messageIdsOf 7
    (run (λ _, true) (λ _, "") (map (λ i, SendEnded 7 (Sent i)) (seqZ 1 60))
       (new_bot 0 300000 3)).1
  = seqZ 11 50.
Proof. vm_compute. reflexivity. Qed.

(** ** A [/track] with an address that fails validation *)

(** C5, as the code has it: a [/track] whose address fails validation
    refreshes the activity timestamp, which every command does before
    anything else, and hands the invalid-address text to
    [sendAndTrackMessage]; it changes no wallet set and nothing of the
    engine, and calls neither [addWallet] nor [removeWallet].  When the send
    of the reply ends, the wallet sets and the engine are still as before
    the command; a delivery has put the id of the reply at the end of the
    chat's stored message ids, of which the last fifty are kept, and a send
    that fails leaves the stored ids as they were. *)
Theorem track_invalid_address
    (validateWalletAddress : string → bool) (chatId : Z) (arg : string) (now : Z) (st : Bot) :
  validateWalletAddress (JsString.trim arg) = false →
  let r := track validateWalletAddress chatId arg now st in
  r = (updateUserActivity now st, [SendTracked chatId MsgInvalidAddress])
  ∧ userWallets r.1 = userWallets st
  ∧ (∀ c, walletsOf c r.1 = walletsOf c st)
  ∧ websocket r.1 = websocket st
  ∧ botMessageIds r.1 = botMessageIds st
  ∧ addWalletCalls r.2 = []
  ∧ removeWalletCalls r.2 = []
  ∧ sends r.2 = [(chatId, MsgInvalidAddress)]
  ∧ ∀ outcome,
      let ended := sendAndTrackMessage_resume chatId outcome r.1 in
      userWallets ended.1.1 = userWallets st
      ∧ websocket ended.1.1 = websocket st
      ∧ lastUserActivity ended.1.1 = now
      ∧ addWalletCalls ended.1.2 = [] ∧ removeWalletCalls ended.1.2 = []
      ∧ sends ended.1.2 = []
      ∧ (∀ id, outcome = Sent id →
           messageIdsOf chatId ended.1.1
           = lastN (Z.to_nat MAX_MESSAGES_PER_USER) (messageIdsOf chatId st ++ [id]))
      ∧ (failed outcome → botMessageIds ended.1.1 = botMessageIds st).
Proof.
  intros H. unfold track. rewrite H. simpl. split_and!; try done.
  intros outcome.
  pose proof (sendAndTrackMessage_resume_frame chatId outcome (updateUserActivity now st))
    as [Hw Hws].
  split_and!.
  - exact Hw.
  - exact Hws.
  - destruct outcome; simpl; [|done..].
    by match goal with |- context [if ?b then cleanupOldMessageIds _ else _] => destruct b end.
  - by destruct outcome.
  - by destruct outcome.
  - by destruct outcome.
  - intros id ->.
    exact (sendAndTrackMessage_resume_sent chatId id (updateUserActivity now st)).
  - by intros [-> | ->].
Qed.

Lemma track_invalid_address_witness :
  (track (λ a, (30 <? String.length a)%nat) 7 "  not-an-address " 1000 (new_bot 0 300000 3)).2
  = [SendTracked 7 MsgInvalidAddress].
Proof.
  destruct (track_invalid_address (λ a, (30 <? String.length a)%nat) 7 "  not-an-address "
              1000 (new_bot 0 300000 3)) as (Hr & _).
  - reflexivity.
  - rewrite Hr. reflexivity.
Defined.

(** C5, as the claim words it, fails: the handler has changed the activity
    timestamp before it looks at the address, and the delivery of its reply
    changes the stored message ids of the chat. *)
Lemma track_invalid_address_changes_state :
  let validate := λ a, (30 <? String.length a)%nat in
  let st := new_bot 0 300000 3 in
  let r := track validate 7 "  not-an-address " 1000 st in
  let ended := sendAndTrackMessage_resume 7 (Sent 42) r.1 in
  validate (JsString.trim "  not-an-address ") = false
  ∧ r.2 = [SendTracked 7 MsgInvalidAddress]
  ∧ lastUserActivity st = 0 ∧ lastUserActivity r.1 = 1000
  ∧ botMessageIds st = [] ∧ botMessageIds ended.1.1 = [(7, [42])]
  ∧ r.1 ≠ st ∧ ended.1.1 ≠ st.
Proof.
  intros validate st r ended. split_and!; try reflexivity.
  - intros H. apply (f_equal lastUserActivity) in H. discriminate H.
  - intros H. apply (f_equal botMessageIds) in H. discriminate H.
Qed.

(** ** The inactivity reset *)

Lemma elem_of_requested (uw : JsMap.t JsSet.t) (x : string) :
  x ∈ concat (map snd uw) ↔ ∃ chatId ws, (chatId, ws) ∈ uw ∧ x ∈ ws.
Proof.
  induction uw as [|[k ws] uw IH]; simpl.
  - split; [by intros ?%elem_of_nil | by intros (? & ? & ?%elem_of_nil & _)].
  - rewrite elem_of_app, IH. split.
    + intros [Hx | (k' & ws' & Hin & Hx)].
      * exists k, ws. split; [left | done].
      * exists k', ws'. split; [by right | done].
    + intros (k' & ws' & [[= -> ->] | Hin]%elem_of_cons & Hx); [by left | right; eauto].
Qed.

Lemma fold_add_spec (ws acc : JsSet.t) :
  let r := fold_left (λ acc w, JsSet.add w acc) ws acc in
  (NoDup acc → NoDup r) ∧ ∀ x, x ∈ r ↔ x ∈ acc ∨ x ∈ ws.
Proof.
  revert acc. induction ws as [|w ws IH]; intros acc; simpl.
  - split; [done|]. intros x. rewrite elem_of_nil. tauto.
  - destruct (IH (JsSet.add w acc)) as [IH1 IH2]. split.
    + intros Hnd. by apply IH1, JsSet_NoDup_add.
    + intros x. rewrite IH2, JsSet_elem_of_add, elem_of_cons. tauto.
Qed.

Lemma allWallets_fold (uw : JsMap.t JsSet.t) (acc : JsSet.t) :
  let r := fold_left
             (λ (acc : JsSet.t) (e : Z * JsSet.t),
                fold_left (λ acc w, JsSet.add w acc) e.2 acc) uw acc in
  (NoDup acc → NoDup r) ∧ ∀ x, x ∈ r ↔ x ∈ acc ∨ x ∈ concat (map snd uw).
Proof.
  revert acc. induction uw as [|[k ws] uw IH]; intros acc; simpl.
  - split; [done|]. intros x. rewrite elem_of_nil. tauto.
  - destruct (fold_add_spec ws acc) as [H1 H2].
    destruct (IH (fold_left (λ acc w, JsSet.add w acc) ws acc)) as [IH1 IH2]. split.
    + intros Hnd. by apply IH1, H1.
    + intros x. rewrite IH2, H2, elem_of_app. tauto.
Qed.

Lemma allWallets_NoDup (uw : JsMap.t JsSet.t) : NoDup (allWallets uw).
Proof. apply (allWallets_fold uw []). apply NoDup_nil_2. Qed.

Lemma elem_of_allWallets (uw : JsMap.t JsSet.t) (x : string) :
  x ∈ allWallets uw ↔ x ∈ concat (map snd uw).
Proof.
  unfold allWallets. destruct (allWallets_fold uw []) as [_ H]. rewrite H, elem_of_nil. tauto.
Qed.

Lemma fold_removeWallet_spec (l : list string) (ws : Backend) (x : string) :
  x ∈ trackedWallets (fold_left (λ ws w, removeWallet w ws) l ws)
  ↔ x ∈ trackedWallets ws ∧ x ∉ l.
Proof.
  revert ws. induction l as [|w l IH]; intros ws; simpl.
  - rewrite elem_of_nil. tauto.
  - rewrite IH. simpl. rewrite JsSet_elem_of_delete, not_elem_of_cons. tauto.
Qed.

Lemma removeWalletCalls_app (l1 l2 : list Effect) :
  removeWalletCalls (l1 ++ l2) = removeWalletCalls l1 ++ removeWalletCalls l2.
Proof. apply omap_app. Qed.

Lemma addWalletCalls_app (l1 l2 : list Effect) :
  addWalletCalls (l1 ++ l2) = addWalletCalls l1 ++ addWalletCalls l2.
Proof. apply omap_app. Qed.

Lemma removeWalletCalls_map (l : list string) : removeWalletCalls (map RemoveWallet l) = l.
Proof. induction l as [|a l IH]; simpl; [done|]. unfold removeWalletCalls in *. simpl. by rewrite IH. Qed.

Lemma addWalletCalls_map (l : list string) : addWalletCalls (map RemoveWallet l) = [].
Proof. induction l as [|a l IH]; simpl; done. Qed.

Lemma cleanup_notices_calls (limit : Z) (uw : JsMap.t JsSet.t) :
  let notices :=
    flat_map
      (λ e : Z * JsSet.t,
         if JsSet.size e.2 >? 0
         then [SendPlain e.1 (MsgAutoCleanup limit (JsSet.size e.2))]
         else []) uw in
  removeWalletCalls notices = [] ∧ addWalletCalls notices = [].
Proof.
  induction uw as [|[k ws] uw [IH1 IH2]]; simpl; [done|].
  rewrite removeWalletCalls_app, addWalletCalls_app.
  simpl in *. rewrite IH1, IH2. by destruct (JsSet.size ws >? 0).
Qed.

(** C6: the inactivity reset leaves [userWallets] empty and calls
    [websocket.removeWallet] exactly once for each wallet that some chat was
    tracking, and for no other; it calls [addWallet] not at all, and
    afterwards the engine tracks none of these wallets.  The monitor runs the
    reset when the inactivity limit has elapsed and a wallet is tracked. *)
Theorem inactivity_reset_removes_each_wallet_once (st : Bot) :
  let r := handleInactivityCleanup st in
  userWallets r.1 = []
  ∧ NoDup (removeWalletCalls r.2)
  ∧ (∀ a, a ∈ removeWalletCalls r.2 ↔ ∃ chatId ws, (chatId, ws) ∈ userWallets st ∧ a ∈ ws)
  ∧ addWalletCalls r.2 = []
  ∧ (∀ a, a ∈ removeWalletCalls r.2 → a ∉ trackedWallets (websocket r.1))
  ∧ (∀ now,
       INACTIVITY_LIMIT st ≤ now - lastUserActivity st →
       0 < getTotalTrackedWallets st →
       inactivityMonitor_tick now st = r).
Proof.
  unfold handleInactivityCleanup. simpl.
  destruct (cleanup_notices_calls (INACTIVITY_LIMIT st) (userWallets st)) as [Hr Ha].
  simpl in Hr, Ha.
  rewrite removeWalletCalls_app, addWalletCalls_app, Hr, Ha, removeWalletCalls_map,
    addWalletCalls_map. simpl.
  split_and!.
  - done.
  - apply allWallets_NoDup.
  - intros a. by rewrite elem_of_allWallets, elem_of_requested.
  - done.
  - intros a Hin. rewrite fold_removeWallet_spec. tauto.
  - intros now Hlimit Htotal. unfold inactivityMonitor_tick, handleInactivityCleanup.
    replace (Z.max 0 (INACTIVITY_LIMIT st - (now - lastUserActivity st))) with 0 by lia.
    simpl. destruct (Z.gtb_spec (getTotalTrackedWallets st) 0); [done | lia].
Qed.

(** Two chats share a wallet: it is removed once. *)
Example inactivity_reset_example :
  let st :=
    {| userWallets := [(1, ["A"; "B"]); (2, ["B"; "C"]); (3, [])]; botMessageIds := [];
       lastUserActivity := 1000; INACTIVITY_LIMIT := 300000; MAX_WALLETS_PER_USER := 3;
       websocket := {| trackedWallets := ["A"; "B"; "C"] |} |} in
  let r := inactivityMonitor_tick 301000 st in
  userWallets r.1 = [] ∧ trackedWallets (websocket r.1) = []
  ∧ removeWalletCalls r.2 = ["A"; "B"; "C"]
  ∧ map fst (sends r.2) = [1; 2].
Proof. vm_compute. done. Qed.

(** ** The engine tracks what the chats request *)

Lemma requestedBy_split (chatId : Z) (uw : JsMap.t JsSet.t) (x : string) :
  NoDup (JsMap.keys uw) →
  requestedBy uw x ↔ x ∈ default [] (JsMap.get chatId uw) ∨ requestedByOthers chatId uw x.
Proof.
  intros Hnd. unfold requestedBy, requestedByOthers. split.
  - intros (k & ws & Hin & Hx). destruct (decide (k = chatId)) as [->|Hne].
    + left. by rewrite (JsMap_elem_of_get _ _ _ Hnd Hin).
    + right. eauto.
  - intros [Hx | (k & ws & _ & Hin & Hx)]; [|eauto].
    destruct (JsMap.get chatId uw) as [ws|] eqn:Hget; simpl in Hx; [|by apply elem_of_nil in Hx].
    exists chatId, ws. split; [by apply JsMap_get_Some | done].
Qed.

Lemma requestedByOthers_set (chatId : Z) (v : JsSet.t) (uw : JsMap.t JsSet.t) (x : string) :
  NoDup (JsMap.keys uw) →
  requestedByOthers chatId (JsMap.set chatId v uw) x ↔ requestedByOthers chatId uw x.
Proof.
  intros Hnd. unfold requestedByOthers. split.
  - intros (k & ws & Hne & Hin & Hx). apply JsMap_elem_of_set in Hin; [|done].
    destruct Hin as [[-> _] | [_ Hin]]; [done | eauto].
  - intros (k & ws & Hne & Hin & Hx). exists k, ws. split_and!; [done | | done].
    apply JsMap_elem_of_set; [done|]. by right.
Qed.

Lemma requestedBy_set (chatId : Z) (v : JsSet.t) (uw : JsMap.t JsSet.t) (x : string) :
  NoDup (JsMap.keys uw) →
  requestedBy (JsMap.set chatId v uw) x ↔ x ∈ v ∨ requestedByOthers chatId uw x.
Proof.
  intros Hnd.
  rewrite (requestedBy_split chatId) by by apply JsMap_NoDup_set.
  by rewrite JsMap_get_set_eq, requestedByOthers_set.
Qed.

Lemma requestedBy_walletsOf (st : Bot) (x : string) :
  NoDup (JsMap.keys (userWallets st)) →
  requestedBy (userWallets st) x ↔ ∃ chatId, x ∈ walletsOf chatId st.
Proof.
  intros Hnd. unfold requestedBy, walletsOf. split.
  - intros (k & ws & Hin & Hx). exists k. by rewrite (JsMap_elem_of_get _ _ _ Hnd Hin).
  - intros [k Hx].
    destruct (JsMap.get k (userWallets st)) as [ws|] eqn:Hget; simpl in Hx;
      [|by apply elem_of_nil in Hx].
    exists k, ws. split; [by apply JsMap_get_Some | done].
Qed.

Lemma requestedByOthers_walletsOf (chatId : Z) (st : Bot) (x : string) :
  NoDup (JsMap.keys (userWallets st)) →
  requestedByOthers chatId (userWallets st) x ↔ ∃ c, c ≠ chatId ∧ x ∈ walletsOf c st.
Proof.
  intros Hnd. unfold requestedByOthers, walletsOf. split.
  - intros (k & ws & Hne & Hin & Hx). exists k.
    by rewrite (JsMap_elem_of_get _ _ _ Hnd Hin).
  - intros (k & Hne & Hx).
    destruct (JsMap.get k (userWallets st)) as [ws|] eqn:Hget; simpl in Hx;
      [|by apply elem_of_nil in Hx].
    exists k, ws. split_and!; [done | by apply JsMap_get_Some | done].
Qed.

(** The [forEach] of [/untrack] finds exactly the other chats' requests. *)
Lemma walletStillTrackedByOthers_spec (chatId : Z) (a : string) (uw : JsMap.t JsSet.t) :
  walletStillTrackedByOthers chatId a uw = true ↔ requestedByOthers chatId uw a.
Proof.
  unfold walletStillTrackedByOthers, requestedByOthers.
  set (f := λ (found : bool) (e : Z * JsSet.t), _).
  assert (∀ found, fold_left f uw found = true
                   ↔ found = true ∨ ∃ k ws, k ≠ chatId ∧ (k, ws) ∈ uw ∧ a ∈ ws) as H.
  { induction uw as [|[k ws] uw IH]; intros found; simpl.
    - split; [by left | intros [? | (? & ? & _ & ?%elem_of_nil & _)]; done].
    - rewrite IH. subst f. simpl.
      destruct (decide (k = chatId)) as [->|Hne].
      + rewrite bool_decide_eq_true_2 by done. simpl. split.
        * intros [? | (k' & ws' & ? & ? & ?)]; [by left | right].
          exists k', ws'. split_and!; [done | by right | done].
        * intros [? | (k' & ws' & Hne' & [[= -> ->] | Hin]%elem_of_cons & Hx)];
            [by left | done | right; eauto].
      + rewrite bool_decide_eq_false_2 by done. simpl.
        destruct (JsSet.has a ws) eqn:Hhas.
        * apply JsSet_has_true in Hhas. split; [|by left].
          intros _. right. exists k, ws. split_and!; [done | left | done].
        * apply JsSet_has_false in Hhas. split.
          -- intros [? | (k' & ws' & ? & ? & ?)]; [by left | right].
             exists k', ws'. split_and!; [done | by right | done].
          -- intros [? | (k' & ws' & Hne' & [[= -> ->] | Hin]%elem_of_cons & Hx)];
               [by left | done | right; eauto]. }
  rewrite H. split; [intros [? | ?]; done | by right].
Qed.

Lemma ensure_entry_consistent (chatId : Z) (st : Bot) :
  consistent st →
  let st1 := if JsMap.has chatId (userWallets st) then st
             else with_userWallets (JsMap.set chatId [] (userWallets st)) st in
  consistent st1
  ∧ JsMap.get chatId (userWallets st1) = Some (walletsOf chatId st)
  ∧ websocket st1 = websocket st.
Proof.
  intros [Hnd Hinv]. unfold JsMap.has, walletsOf.
  destruct (JsMap.get chatId (userWallets st)) as [ws|] eqn:Hget; simpl.
  - by rewrite Hget.
  - rewrite JsMap_get_set_eq. split_and!; [|done..].
    split; simpl; [by apply JsMap_NoDup_set|].
    intros a. rewrite Hinv, requestedBy_set by done.
    rewrite (requestedBy_split chatId) by done. rewrite Hget. simpl. done.
Qed.

Lemma track_consistent (validateWalletAddress : string → bool)
    (chatId : Z) (arg : string) (now : Z) (st : Bot) :
  consistent st → consistent (track validateWalletAddress chatId arg now st).1.
Proof.
  intros Hc. unfold track.
  destruct (validateWalletAddress (JsString.trim arg)); [|exact Hc].
  assert (consistent (updateUserActivity now st)) as Hc0 by exact Hc.
  destruct (ensure_entry_consistent chatId (updateUserActivity now st) Hc0)
    as ([Hnd Hinv] & Hget & Hws).
  simpl in *.
  set (st1 := if JsMap.has chatId (userWallets st) then _ else _) in *.
  assert (walletsOf chatId st1 = walletsOf chatId st) as Hw.
  { unfold walletsOf at 1. by rewrite Hget. }
  rewrite Hw. destruct (JsSet.has (JsString.trim arg) (walletsOf chatId st)); [done|].
  destruct (JsSet.size (walletsOf chatId st) >=? MAX_WALLETS_PER_USER st1); [done|].
  split; simpl; [by apply JsMap_NoDup_set|].
  intros a. rewrite JsSet_elem_of_add, Hinv, requestedBy_set by done.
  rewrite (requestedBy_split chatId) by done. rewrite Hget. simpl.
  rewrite JsSet_elem_of_add. tauto.
Qed.

Lemma untrack_consistent (chatId : Z) (arg : string) (now : Z) (st : Bot) :
  consistent st → consistent (untrack chatId arg now st).1.
Proof.
  intros [Hnd Hinv]. unfold untrack. simpl.
  destruct (JsMap.get chatId (userWallets st)) as [ws|] eqn:Hget; [|done].
  destruct (JsSet.has (JsString.trim arg) ws) eqn:Hhas; [|done].
  set (a := JsString.trim arg) in *. simpl.
  destruct (walletStillTrackedByOthers chatId a
              (JsMap.set chatId (JsSet.delete a ws) (userWallets st))) eqn:Hstill; simpl.
  - apply walletStillTrackedByOthers_spec in Hstill.
    rewrite requestedByOthers_set in Hstill by done.
    split; simpl; [by apply JsMap_NoDup_set|].
    intros x. rewrite Hinv, requestedBy_set by done.
    rewrite (requestedBy_split chatId) by done. rewrite Hget. simpl.
    rewrite JsSet_elem_of_delete. destruct (decide (x = a)) as [->|]; tauto.
  - apply not_true_iff_false in Hstill. rewrite walletStillTrackedByOthers_spec in Hstill.
    rewrite requestedByOthers_set in Hstill by done.
    split; simpl; [by apply JsMap_NoDup_set|].
    intros x. rewrite JsSet_elem_of_delete, Hinv, requestedBy_set by done.
    rewrite (requestedBy_split chatId) by done. rewrite Hget. simpl.
    rewrite JsSet_elem_of_delete. destruct (decide (x = a)) as [->|]; tauto.
Qed.

Lemma handleInactivityCleanup_consistent (st : Bot) :
  consistent st → consistent (handleInactivityCleanup st).1.
Proof.
  intros [Hnd Hinv]. split; simpl; [apply NoDup_nil_2|].
  intros a. rewrite fold_removeWallet_spec, elem_of_allWallets, elem_of_requested.
  unfold requestedBy in *. rewrite Hinv. split; [tauto|].
  by intros (? & ? & ?%elem_of_nil & _).
Qed.

Lemma step_consistent (validateWalletAddress : string → bool) (formatTimestamp : Z → string)
    (ev : Event) (st : Bot) :
  consistent st → consistent (step validateWalletAddress formatTimestamp ev st).1.
Proof.
  intros Hc.
  destruct ev as [chatId arg now|chatId arg now|chatId now|data|chatId outcome
                 |chatId outcome|chatId|now]; simpl.
  - by apply track_consistent.
  - by apply untrack_consistent.
  - exact Hc.
  - exact Hc.
  - pose proof (sendAndTrackMessage_resume_frame chatId outcome st) as [H1 H2].
    destruct (sendAndTrackMessage_resume chatId outcome st) as [[st1 effs] r].
    unfold consistent in *. simpl in *. by rewrite H1, H2.
  - pose proof (notifyUsers_settled_frame chatId outcome st) as (H1 & H2 & _).
    unfold consistent in *. by rewrite H1, H2.
  - exact Hc.
  - unfold inactivityMonitor_tick.
    match goal with |- context [if ?b then _ else _] => destruct b end; [|done].
    by apply handleInactivityCleanup_consistent.
Qed.

Lemma new_bot_consistent (now inactivityLimit maxWallets : Z) :
  consistent (new_bot now inactivityLimit maxWallets).
Proof.
  split; simpl; [apply NoDup_nil_2|].
  intros a. unfold requestedBy. split; [by intros ?%elem_of_nil|].
  by intros (? & ? & ?%elem_of_nil & _).
Qed.

(** What an accepted [/track] does. *)
Lemma track_accepted (validateWalletAddress : string → bool)
    (chatId : Z) (arg : string) (now : Z) (st : Bot) :
  consistent st →
  validateWalletAddress (JsString.trim arg) = true →
  JsString.trim arg ∉ walletsOf chatId st →
  JsSet.size (walletsOf chatId st) < MAX_WALLETS_PER_USER st →
  let r := track validateWalletAddress chatId arg now st in
  JsString.trim arg ∈ walletsOf chatId r.1
  ∧ JsString.trim arg ∈ trackedWallets (websocket r.1)
  ∧ addWalletCalls r.2 = [JsString.trim arg]
  ∧ removeWalletCalls r.2 = [].
Proof.
  intros Hc Hvalid Hnew Hroom. unfold track. rewrite Hvalid.
  assert (consistent (updateUserActivity now st)) as Hc0 by exact Hc.
  destruct (ensure_entry_consistent chatId (updateUserActivity now st) Hc0)
    as (_ & Hget & Hws).
  simpl in *.
  set (st1 := if JsMap.has chatId (userWallets st) then _ else _) in *.
  assert (walletsOf chatId st1 = walletsOf chatId st) as Hw.
  { unfold walletsOf at 1. by rewrite Hget. }
  assert (MAX_WALLETS_PER_USER st1 = MAX_WALLETS_PER_USER st) as Hmax.
  { subst st1. by destruct (JsMap.has chatId (userWallets st)). }
  rewrite Hw, Hmax. apply JsSet_has_false in Hnew. rewrite Hnew.
  destruct (Z.geb_spec (JsSet.size (walletsOf chatId st)) (MAX_WALLETS_PER_USER st)); [lia|].
  simpl. split_and!; [| |done..].
  - unfold walletsOf at 1. simpl. rewrite JsMap_get_set_eq. simpl.
    apply JsSet_elem_of_add. by left.
  - apply JsSet_elem_of_add. by left.
Qed.

(** [/untrack], branch by branch. *)
Lemma untrack_eq (chatId : Z) (arg : string) (now : Z) (st : Bot) :
  untrack chatId arg now st
  = let a := JsString.trim arg in
    let st0 := updateUserActivity now st in
    match JsMap.get chatId (userWallets st) with
    | Some ws =>
        if JsSet.has a ws then
          let uw1 := JsMap.set chatId (JsSet.delete a ws) (userWallets st) in
          if walletStillTrackedByOthers chatId a uw1
          then (with_userWallets uw1 st0,
                [SendTracked chatId
                   (MsgStoppedTracking a (JsSet.size (JsSet.delete a ws))
                      (JsSet.size (trackedWallets (websocket st))))])
          else (with_websocket (removeWallet a (websocket st)) (with_userWallets uw1 st0),
                [RemoveWallet a;
                 SendTracked chatId
                   (MsgStoppedTracking a (JsSet.size (JsSet.delete a ws))
                      (JsSet.size (JsSet.delete a (trackedWallets (websocket st)))))])
        else (st0, [SendTracked chatId MsgWalletNotFound])
    | None => (st0, [SendTracked chatId MsgNotTrackingAny])
    end.
Proof.
  unfold untrack. simpl. destruct (JsMap.get chatId (userWallets st)) as [ws|]; [|done].
  destruct (JsSet.has (JsString.trim arg) ws); [|done].
  by destruct (walletStillTrackedByOthers _ _ _).
Qed.

(** What [/untrack] does. *)
Lemma untrack_calls (chatId : Z) (arg : string) (now : Z) (st : Bot) :
  consistent st →
  let r := untrack chatId arg now st in
  (JsString.trim arg ∉ walletsOf chatId r.1)
  ∧ addWalletCalls r.2 = []
  ∧ (removeWalletCalls r.2 = [JsString.trim arg] ∨ removeWalletCalls r.2 = [])
  ∧ ((removeWalletCalls r.2 = [JsString.trim arg])
     ↔ (JsString.trim arg ∈ walletsOf chatId st
        ∧ ∀ c, c ≠ chatId → JsString.trim arg ∉ walletsOf c r.1)).
Proof.
  intros [Hnd Hinv] r. subst r. rewrite untrack_eq. simpl. set (a := JsString.trim arg).
  unfold walletsOf. simpl.
  destruct (JsMap.get chatId (userWallets st)) as [ws|] eqn:Hget; simpl.
  2: { rewrite Hget. simpl.
       split_and!; [apply not_elem_of_nil | done | by right |].
       split; [done | by intros [?%elem_of_nil _]]. }
  destruct (JsSet.has a ws) eqn:Hhas; simpl.
  2: { apply JsSet_has_false in Hhas. rewrite Hget. simpl.
       split_and!; [done | done | by right |]. split; [done | by intros [? _]]. }
  apply JsSet_has_true in Hhas.
  set (uw1 := JsMap.set chatId (JsSet.delete a ws) (userWallets st)).
  assert (NoDup (JsMap.keys uw1)) as Hnd1 by by apply JsMap_NoDup_set.
  assert (requestedByOthers chatId uw1 a
          ↔ ∃ c, c ≠ chatId ∧ a ∈ default [] (JsMap.get c uw1)) as Hothers.
  { apply (requestedByOthers_walletsOf chatId (with_userWallets uw1 st) a Hnd1). }
  assert (a ∉ default [] (JsMap.get chatId uw1)) as Hgone.
  { subst uw1. rewrite JsMap_get_set_eq. simpl. rewrite JsSet_elem_of_delete. tauto. }
  destruct (walletStillTrackedByOthers chatId a uw1) eqn:Hstill; simpl.
  - apply walletStillTrackedByOthers_spec, Hothers in Hstill.
    destruct Hstill as (c & Hne & Hx).
    split_and!; [done | done | by right |].
    split; [done|]. intros [_ Hall]. by destruct (Hall c Hne).
  - apply not_true_iff_false in Hstill.
    rewrite walletStillTrackedByOthers_spec, Hothers in Hstill.
    split_and!; [done | done | by left |].
    split; [|done]. intros _. split; [done|]. intros c Hne Hx. apply Hstill. eauto.
Qed.

(** The engine's set in the state is the set the calls describe. *)
Lemma applyCalls_app (s : JsSet.t) (l1 l2 : list Effect) :
  applyCalls s (l1 ++ l2) = applyCalls (applyCalls s l1) l2.
Proof. apply fold_left_app. Qed.

Lemma applyCalls_forEach (formatTimestamp : Z → string) (data : TransactionData) (st : Bot)
    (entries : JsMap.t JsSet.t) (n : Z) (s : JsSet.t) :
  applyCalls s (notifyUsers_forEach formatTimestamp data st entries n).1 = s.
Proof.
  revert n. induction entries as [|[chatId walletSet] entries IH]; intros n; simpl; [done|].
  destruct (set_has_val (wallet data) walletSet), (walletPrefix (wallet data)); simpl; try done.
  - specialize (IH (n + 1)).
    by destruct (notifyUsers_forEach formatTimestamp data st entries (n + 1)).
  - specialize (IH n). by destruct (notifyUsers_forEach formatTimestamp data st entries n).
Qed.

Lemma applyCalls_notifyUsers (formatTimestamp : Z → string) (data : TransactionData)
    (st : Bot) (s : JsSet.t) :
  applyCalls s (notifyUsers formatTimestamp data st).1 = s.
Proof.
  unfold notifyUsers, try_catch, notifyUsers_try.
  destruct (negb (truthy (wallet data)) || strict_eq_string (wallet data) "Unknown Wallet");
    [done|].
  pose proof (applyCalls_forEach formatTimestamp data st (userWallets st) 0 s) as H.
  destruct (notifyUsers_forEach formatTimestamp data st (userWallets st) 0) as [effs [n|e]];
    simpl in *.
  - destruct (walletPrefix (wallet data)); simpl; by rewrite applyCalls_app, H.
  - by rewrite applyCalls_app, H.
Qed.

Lemma applyCalls_cleanup (st : Bot) :
  applyCalls (trackedWallets (websocket st)) (handleInactivityCleanup st).2
  = trackedWallets (websocket (handleInactivityCleanup st).1).
Proof.
  unfold handleInactivityCleanup. simpl. rewrite applyCalls_app.
  set (notices := flat_map _ _).
  assert (∀ s, applyCalls s notices = s) as ->.
  { subst notices. generalize (INACTIVITY_LIMIT st). intros limit.
    induction (userWallets st) as [|[k ws] uw IH]; intros s; simpl; [done|].
    rewrite applyCalls_app, IH. by destruct (JsSet.size ws >? 0). }
  generalize (websocket st). induction (allWallets (userWallets st)) as [|w l IH];
    intros ws; simpl; [done|].
  apply (IH (removeWallet w ws)).
Qed.

Lemma step_applyCalls (validateWalletAddress : string → bool) (formatTimestamp : Z → string)
    (ev : Event) (st : Bot) :
  applyCalls (trackedWallets (websocket st))
    (step validateWalletAddress formatTimestamp ev st).2
  = trackedWallets (websocket (step validateWalletAddress formatTimestamp ev st).1).
Proof.
  destruct ev as [chatId arg now|chatId arg now|chatId now|data|chatId outcome
                 |chatId outcome|chatId|now]; simpl.
  - unfold track.
    repeat match goal with |- context [if ?b then _ else _] => destruct b end; done.
  - rewrite untrack_eq. simpl. destruct (JsMap.get chatId (userWallets st)); [|done].
    repeat match goal with |- context [if ?b then _ else _] => destruct b end; done.
  - done.
  - apply applyCalls_notifyUsers.
  - destruct outcome; simpl; [|done..].
    by match goal with |- context [if ?b then _ else _] => destruct b end.
  - unfold notifyUsers_settled. destruct outcome; simpl; [|done..].
    by match goal with |- context [if ?b then _ else _] => destruct b end.
  - done.
  - unfold inactivityMonitor_tick.
    match goal with |- context [if ?b then _ else _] => destruct b end; [|done].
    apply applyCalls_cleanup.
Qed.

Lemma run_applyCalls (validateWalletAddress : string → bool) (formatTimestamp : Z → string)
    (evs : list Event) (st : Bot) :
  applyCalls (trackedWallets (websocket st))
    (run validateWalletAddress formatTimestamp evs st).2
  = trackedWallets (websocket (run validateWalletAddress formatTimestamp evs st).1).
Proof.
  revert st. induction evs as [|ev evs IH]; intros st; simpl; [done|].
  pose proof (step_applyCalls validateWalletAddress formatTimestamp ev st) as Hstep.
  destruct (step validateWalletAddress formatTimestamp ev st) as [st1 effs1].
  specialize (IH st1).
  destruct (run validateWalletAddress formatTimestamp evs st1) as [st2 effs2].
  simpl in *. by rewrite applyCalls_app, Hstep, IH.
Qed.

(** C1: after any sequence of events the addresses passed to [addWallet] and
    not since passed to [removeWallet], which are the engine's tracked set,
    are exactly the union of the chats' wallet sets.  In such a state an
    accepted [/track] puts the address into the chat's set and into the
    engine's set with one call of [addWallet]; [/untrack] takes the address
    out of the chat's set, and it calls [removeWallet], for that address
    only, exactly when the chat held the address and no other chat's set
    holds it after the deletion. *)
Theorem tracked_set_is_union_of_user_sets
    (validateWalletAddress : string → bool) (formatTimestamp : Z → string)
    (now0 inactivityLimit maxWallets : Z) (evs : list Event) :
  let st := (run validateWalletAddress formatTimestamp evs
               (new_bot now0 inactivityLimit maxWallets)).1 in
  let calls := (run validateWalletAddress formatTimestamp evs
                  (new_bot now0 inactivityLimit maxWallets)).2 in
  applyCalls [] calls = trackedWallets (websocket st)
  ∧ (∀ a, a ∈ applyCalls [] calls ↔ ∃ chatId, a ∈ walletsOf chatId st)
  ∧ (∀ chatId arg now,
       let a := JsString.trim arg in
       let r := track validateWalletAddress chatId arg now st in
       validateWalletAddress a = true →
       a ∉ walletsOf chatId st →
       JsSet.size (walletsOf chatId st) < MAX_WALLETS_PER_USER st →
       a ∈ walletsOf chatId r.1
       ∧ a ∈ trackedWallets (websocket r.1)
       ∧ addWalletCalls r.2 = [a]
       ∧ removeWalletCalls r.2 = [])
  ∧ (∀ chatId arg now,
       let a := JsString.trim arg in
       let r := untrack chatId arg now st in
       (a ∉ walletsOf chatId r.1)
       ∧ addWalletCalls r.2 = []
       ∧ (removeWalletCalls r.2 = [a] ∨ removeWalletCalls r.2 = [])
       ∧ ((removeWalletCalls r.2 = [a])
          ↔ (a ∈ walletsOf chatId st ∧ ∀ c, c ≠ chatId → a ∉ walletsOf c r.1))).
Proof.
  intros st calls.
  assert (consistent st) as Hc.
  { apply (run_invariant validateWalletAddress formatTimestamp consistent).
    - intros ev st'. apply step_consistent.
    - apply new_bot_consistent. }
  assert (applyCalls [] calls = trackedWallets (websocket st)) as Hcalls.
  { apply (run_applyCalls validateWalletAddress formatTimestamp evs
             (new_bot now0 inactivityLimit maxWallets)). }
  split_and!.
  - done.
  - intros a. destruct Hc as [Hnd Hinv]. by rewrite Hcalls, Hinv, requestedBy_walletsOf.
  - intros chatId arg now a r Hvalid Hnew Hroom. by apply track_accepted.
  - intros chatId arg now a r. by apply untrack_calls.
Qed.

(** Two chats track the same wallet; it leaves the engine with the second
    [/untrack] only. *)
Example shared_wallet_example :
  let evs := [Track 1 "W" 0; Track 2 "W" 1; Untrack 1 "W" 2; Untrack 2 " W " 3] in
  let r := run (λ _, true) (λ _, "") evs (new_bot 0 300000 3) in
  addWalletCalls r.2 = ["W"; "W"] ∧ removeWalletCalls r.2 = ["W"]
  ∧ trackedWallets (websocket r.1) = []
  ∧ trackedWallets
      (websocket (run (λ _, true) (λ _, "") (take 3 evs) (new_bot 0 300000 3)).1) = ["W"].
Proof. vm_compute. done. Qed.

(** ** The wallet a notification shows *)



(** ** The engine suppresses duplicate signatures *)

Section EngineFacts.

Import Engine.

Variable resolveSymbol : string → option string.

Local Abbreviation dispatchAll' := (dispatchAll resolveSymbol).
Local Abbreviation buildRecord' := (buildRecord resolveSymbol).

Lemma suppresses_nil (st : State) : suppresses st (st, []).
Proof. split_and!; simpl; try done. intros a s. unfold dispatchedFor. simpl. lia. Qed.

Lemma dispatchedFor_app (a s : string) (out1 out2 : list TransactionRecord) :
  dispatchedFor a s (out1 ++ out2) = dispatchedFor a s out1 ++ dispatchedFor a s out2.
Proof. apply filter_app. Qed.

Lemma suppresses_seq (st st1 st2 : State) (out1 out2 : list TransactionRecord) :
  suppresses st (st1, out1) → suppresses st1 (st2, out2) → suppresses st (st2, out1 ++ out2).
Proof.
  intros (A1 & A2 & A3 & A4) (B1 & B2 & B3 & B4). simpl in *.
  split_and!; simpl.
  - auto.
  - intros a s Hin. rewrite dispatchedFor_app, (A2 a s Hin), (B2 a s); [done|]. by apply A1.
  - intros a s. rewrite dispatchedFor_app, length_app.
    destruct (dispatchedFor a s out1) as [|r l] eqn:H1.
    + simpl. apply B3.
    + rewrite (B2 a s).
      * specialize (A3 a s). rewrite H1 in A3. simpl in *. lia.
      * apply A4. by rewrite H1.
  - intros a s. rewrite dispatchedFor_app. intros Hne.
    destruct (dispatchedFor a s out1) as [|r l] eqn:H1.
    + apply B4. by rewrite app_nil_l in Hne.
    + apply B1, A4. by rewrite H1.
Qed.

Lemma dispatchedFor_buildRecord (a a' s : string) (p : Payload) :
  dispatchedFor a s [buildRecord' a' p]
  = if bool_decide (a' = a ∧ payloadSignature p = Some s) then [buildRecord' a' p] else [].
Proof.
  unfold dispatchedFor. rewrite filter_cons, filter_nil. simpl.
  destruct (payloadSignature p) as [s'|]; case_decide as H1; case_bool_decide as H2;
    try done; exfalso.
  - apply H2. destruct H1 as [-> [= ->]]. done.
  - apply H1. destruct H2 as [-> [= ->]]. done.
  - by destruct H1.
  - by destruct H2.
Qed.

Lemma suppresses_one (a : string) (p : Payload) (st : State) (s : string) :
  payloadSignature p = Some s →
  (a, s) ∉ seen st →
  suppresses st ({| tracked := tracked st; seen := (a, s) :: seen st |}, [buildRecord' a p]).
Proof.
  intros Hsig Hnew. split_and!; simpl.
  - intros x Hx. by right.
  - intros a' s' Hin. rewrite dispatchedFor_buildRecord. rewrite Hsig.
    rewrite bool_decide_eq_false_2; [done|]. intros [-> [= ->]]. done.
  - intros a' s'. rewrite dispatchedFor_buildRecord. case_bool_decide; simpl; lia.
  - intros a' s'. rewrite dispatchedFor_buildRecord. rewrite Hsig.
    case_bool_decide as H; [|done]. destruct H as [-> [= ->]]. intros _. left.
Qed.

Lemma suppresses_unsigned (a : string) (p : Payload) (st : State) :
  payloadSignature p = None → suppresses st (st, [buildRecord' a p]).
Proof.
  intros Hsig.
  assert (∀ a' s', dispatchedFor a' s' [buildRecord' a p] = []) as Hnone.
  { intros a' s'. rewrite dispatchedFor_buildRecord, Hsig.
    rewrite bool_decide_eq_false_2; [done|]. by intros [_ ?]. }
  split_and!; simpl; try done.
  - intros a' s'. rewrite Hnone. simpl. lia.
  - intros a' s'. by rewrite Hnone.
Qed.

Lemma dispatchAll_suppresses (addrs : list string) (p : Payload) (st : State) :
  suppresses st (dispatchAll' addrs p st).
Proof.
  revert st. induction addrs as [|a addrs IH]; intros st; simpl; [apply suppresses_nil|].
  destruct (payloadSignature p) as [s|] eqn:Hsig.
  - case_bool_decide as Hseen; [apply IH|].
    specialize (IH {| tracked := tracked st; seen := (a, s) :: seen st |}).
    destruct (dispatchAll' addrs p _) as [st2 out].
    apply (suppresses_seq st {| tracked := tracked st; seen := (a, s) :: seen st |} st2
             [buildRecord' a p] out); [|done].
    by apply suppresses_one.
  - specialize (IH st). destruct (dispatchAll' addrs p st) as [st2 out].
    apply (suppresses_seq st st st2 [buildRecord' a p] out); [|done].
    by apply suppresses_unsigned.
Qed.

Lemma step_suppresses (ev : Event) (st : State) : suppresses st (step resolveSymbol ev st).
Proof.
  destruct ev as [a|a|p]; simpl.
  - apply (suppresses_nil {| tracked := tracked st; seen := seen st |}).
  - apply (suppresses_nil {| tracked := tracked st; seen := seen st |}).
  - apply dispatchAll_suppresses.
Qed.

Lemma run_suppresses (evs : list Event) (st : State) : suppresses st (run resolveSymbol evs st).
Proof.
  revert st. induction evs as [|ev evs IH]; intros st; simpl; [apply suppresses_nil|].
  pose proof (step_suppresses ev st) as Hstep.
  destruct (step resolveSymbol ev st) as [st1 out1]. specialize (IH st1).
  destruct (run resolveSymbol evs st1) as [st2 out2]. by eapply suppresses_seq.
Qed.

(** A tracked address that the payload references, with a signature not yet
    seen for it, gets its record. *)
Lemma dispatchAll_first (addrs : list string) (p : Payload) (st : State) (a s : string) :
  payloadSignature p = Some s →
  a ∈ addrs →
  (a, s) ∉ seen st →
  (length (dispatchedFor a s (dispatchAll' addrs p st).2) = 1)%nat.
Proof.
  intros Hsig. revert st. induction addrs as [|a' addrs IH]; intros st Hin Hnew; simpl.
  { by apply elem_of_nil in Hin. }
  rewrite Hsig. case_bool_decide as Hseen.
  - apply IH; [|done]. apply elem_of_cons in Hin as [->|Hin]; done.
  - pose proof (dispatchAll_suppresses addrs p
                  {| tracked := tracked st; seen := (a', s) :: seen st |}) as (_ & H2 & H3 & _).
    specialize (IH {| tracked := tracked st; seen := (a', s) :: seen st |}).
    destruct (dispatchAll' addrs p _) as [st2 out]. simpl in *.
    change (buildRecord' a' p :: out) with ([buildRecord' a' p] ++ out).
    rewrite dispatchedFor_app, length_app, dispatchedFor_buildRecord, Hsig.
    destruct (decide (a' = a)) as [->|Hne].
    + rewrite bool_decide_eq_true_2 by done. rewrite (H2 a s); [done | left].
    + rewrite bool_decide_eq_false_2 by (by intros [? _]). simpl.
      apply IH.
      * apply elem_of_cons in Hin as [->|Hin]; done.
      * intros [[= -> ]|?]%elem_of_cons; done.
Qed.

(** C3: over any sequence of registry calls and provider payloads, at most
    one record with a given provider signature is dispatched for a given
    address; once such a record went out, no later payload produces another;
    and the first payload with a signature new for a tracked address it
    references does produce its record. *)
Theorem duplicate_signature_dispatched_once :
  (∀ evs a s,
     (length (dispatchedFor a s (run resolveSymbol evs initial).2) ≤ 1)%nat)
  ∧ (∀ evs1 evs2 a s,
       let r1 := run resolveSymbol evs1 initial in
       dispatchedFor a s r1.2 ≠ [] →
       dispatchedFor a s (run resolveSymbol evs2 r1.1).2 = [])
  ∧ (∀ st p a s,
       payloadSignature p = Some s →
       a ∈ tracked st → a ∈ map address (changes p) → (a, s) ∉ seen st →
       (length (dispatchedFor a s (onPayload resolveSymbol p st).2) = 1)%nat).
Proof.
  split_and!.
  - intros evs a s. by destruct (run_suppresses evs initial) as (_ & _ & H & _).
  - intros evs1 evs2 a s r1 Hne.
    destruct (run_suppresses evs1 initial) as (_ & _ & _ & H4).
    destruct (run_suppresses evs2 r1.1) as (_ & H2 & _ & _).
    apply H2, H4, Hne.
  - intros st p a s Hsig Htracked Hin Hnew. unfold onPayload.
    apply dispatchAll_first; [done | | done].
    unfold relevantAddresses. apply elem_of_remove_dups, list_elem_of_filter. done.
Qed.

End EngineFacts.

(** The scenario of the specification: [W1] is tracked; a payload with
    signature [S1] raises its balance and is dispatched as a BUY; the same
    signature again is not dispatched; a payload that references only [W2]
    produces nothing. *)
Example engine_scenario :
  let p1 := {| Engine.changes := [{| Engine.address := "W1"; Engine.delta := 5 |}];
               Engine.mint := "X"; Engine.payloadSignature := Some "S1";
               Engine.observedAt := 1 |} in
  let p2 := {| Engine.changes := [{| Engine.address := "W2"; Engine.delta := 5 |}];
               Engine.mint := "X"; Engine.payloadSignature := Some "S2";
               Engine.observedAt := 2 |} in
  (Engine.run (λ m, Some m)
     [Engine.AddWalletCall "W1"; Engine.Push p1; Engine.Push p1; Engine.Push p2]
     Engine.initial).2
  = [{| Engine.recordAddress := "W1"; Engine.direction := Engine.BUY;
        Engine.tokenSymbol := "X"; Engine.recordSignature := Engine.ProviderSignature "S1";
        Engine.recordObservedAt := 1 |}].
Proof. vm_compute. reflexivity. Qed.

(** ** Round-robin rotation of the credentials *)

Section PoolFacts.

Import CredentialPool.

Lemma map_key_alter (f : Credential → Credential) (i : nat) (cs : list Credential) :
  (∀ cr, key (f cr) = key cr) → map key (alter f i cs) = map key cs.
Proof.
  intros Hf. revert i. induction cs as [|cr cs IH]; intros [|i]; simpl; [done.. | |].
  - by rewrite Hf.
  - f_equal. apply IH.
Qed.

Lemma Forall_cooldown_alter (f : Credential → Credential) (i : nat) (cs : list Credential) :
  (∀ cr, cooldownUntil (f cr) = cooldownUntil cr) →
  Forall (λ cr, cooldownUntil cr = 0%N) cs →
  Forall (λ cr, cooldownUntil cr = 0%N) (alter f i cs).
Proof.
  intros Hf H. revert i. induction H as [|cr cs Hcr H IH]; intros [|i]; simpl.
  - constructor.
  - constructor.
  - constructor; [by rewrite Hf | done].
  - constructor; [done | apply IH].
Qed.

Lemma nth_map_key (cs : list Credential) (i : nat) (cr : Credential) :
  cs !! i = Some cr → nth i (map key cs) "" = key cr.
Proof.
  revert i. induction cs as [|c cs IH]; intros [|i]; simpl; try done.
  - by intros [= ->].
  - apply IH.
Qed.

Lemma usable_fresh (now : N) (p : Pool) (i : nat) :
  Forall (λ cr, cooldownUntil cr = 0%N) (credentials p) →
  (i < length (credentials p))%nat →
  usable now p i = true.
Proof.
  intros Hall Hi. unfold usable.
  destruct (lookup_lt_is_Some_2 (credentials p) i Hi) as [cr Hcr]. rewrite Hcr.
  rewrite Forall_lookup in Hall. specialize (Hall i cr Hcr). simpl in Hall.
  unfold cooling. rewrite Hall. by destruct now.
Qed.

(** With nothing cooling, rotation moves to the next index, wrapping around. *)
Lemma rotate_fresh (now : N) (p : Pool) :
  Forall (λ cr, cooldownUntil cr = 0%N) (credentials p) →
  (0 < length (credentials p))%nat →
  let j := (S (active p) mod length (credentials p))%nat in
  rotate now p
  = with_credentials
      (alter (λ c, {| key := key c; callCount := 0; lastRotated := now;
                      cooldownUntil := cooldownUntil c |}) j (credentials p))
      j p.
Proof.
  intros Hall Hlen j. unfold rotate, candidates.
  destruct (length (credentials p)) as [|n] eqn:Hn; [lia|].
  cbn [seq map List.find].
  replace (active p + 1)%nat with (S (active p)) by lia. fold j.
  rewrite usable_fresh; [done | done |]. rewrite Hn. apply Nat.mod_upper_bound. lia.
Qed.

(** One call of a fresh pool. *)
Lemma call_fresh (keys : list string) (T i c : nat) (now : N) (p : Pool) :
  fresh keys T i c p → (c < T)%nat →
  ∃ p', call now p = (p', Used (nth i keys ""))
        ∧ if (S c <? T)%nat then fresh keys T i (S c) p'
          else fresh keys T (S i mod length keys) 0 p'.
Proof.
  intros (Hkeys & Hall & Hact & Hi & HT & cr & Hcr & Hc) HcT.
  assert (length (credentials p) = length keys) as Hlen by by rewrite <- Hkeys, length_map.
  unfold call, activate. rewrite usable_fresh; [|done|lia]. rewrite Hact, Hcr.
  rewrite Forall_lookup in Hall. pose proof (Hall i cr Hcr) as Hcool. simpl in Hcool.
  rewrite <- Forall_lookup in Hall.
  unfold cooling. rewrite Hcool.
  replace (now <? 0)%N with false by by destruct now.
  eexists. split; [f_equal; by rewrite <- Hkeys, (nth_map_key _ _ _ Hcr)|].
  unfold recordCall. rewrite Hact, Hcr, HT, Hc.
  set (counted := with_credentials _ i p).
  assert (Forall (λ cr, cooldownUntil cr = 0%N) (credentials counted)) as Hall'.
  { subst counted. simpl. by apply Forall_cooldown_alter. }
  assert (map key (credentials counted) = keys) as Hkeys'.
  { subst counted. simpl. by rewrite map_key_alter. }
  destruct (Nat.ltb_spec (S c) T) as [Hlt|Hge].
  - replace (T <=? S c)%nat with false by (symmetry; apply Nat.leb_gt; lia).
    split_and!; try done.
    exists {| key := key cr; callCount := S (callCount cr); lastRotated := lastRotated cr;
              cooldownUntil := cooldownUntil cr |}.
    subst counted. simpl. rewrite list_lookup_alter_eq, Hcr. simpl. split; [done | by rewrite Hc].
  - replace (T <=? S c)%nat with true by (symmetry; apply Nat.leb_le; lia).
    rewrite rotate_fresh; [|done|].
    2: { subst counted. simpl. rewrite length_alter. lia. }
    assert (length (credentials counted) = length keys) as Hlen'.
    { by rewrite <- Hkeys', length_map. }
    assert (active counted = i) as Hact' by done.
    rewrite Hact', Hlen'.
    set (j := (S i mod length keys)%nat).
    assert (j < length keys)%nat as Hj by (apply Nat.mod_upper_bound; lia).
    split_and!; simpl.
    + by rewrite map_key_alter.
    + by apply Forall_cooldown_alter.
    + done.
    + done.
    + done.
    + destruct (lookup_lt_is_Some_2 (credentials counted) j) as [cr' Hcr']; [lia|].
      subst counted. simpl in Hcr'.
      eexists. rewrite list_lookup_alter_eq, Hcr'. simpl. done.
Qed.

(** A quiet run of a fresh pool follows the threshold schedule. *)
Lemma run_quiet_fresh (keys : list string) (T : nat) (evs : list Event) :
  ∀ i c p, fresh keys T i c p → (c < T)%nat → quiet evs p = true →
    run evs p = thresholdSchedule keys T i c (length (List.filter isCall evs)).
Proof.
  induction evs as [|[now|now|now] evs IH]; intros i c p Hfresh HcT Hquiet; simpl in *.
  - done.
  - destruct (call_fresh keys T i c now p Hfresh HcT) as (p' & Hcall & Hnext).
    rewrite Hcall in *. simpl in *. f_equal.
    destruct (S c <? T)%nat eqn:Hlt.
    + apply IH; [done | by apply Nat.ltb_lt | done].
    + apply IH; [done | lia | done].
  - apply andb_true_iff in Hquiet as [Hidle Hquiet].
    unfold onTimer. apply negb_true_iff in Hidle. rewrite Hidle. by apply IH.
  - done.
Qed.

(** The rest of a window: [m] more calls on the active key, then the next. *)
Lemma thresholdSchedule_window (keys : list string) (T m rest : nat) :
  ∀ i c, (c + m = T)%nat → (0 < m)%nat →
    thresholdSchedule keys T i c (m + rest)
    = replicate m (Used (nth i keys ""))
      ++ thresholdSchedule keys T (S i mod length keys) 0 rest.
Proof.
  induction m as [|m IH]; intros i c Hsum Hpos; [lia|].
  simpl. f_equal. destruct (Nat.ltb_spec (S c) T) as [Hlt|Hge].
  - apply IH; lia.
  - assert (m = 0)%nat as -> by lia. done.
Qed.

(** Whole windows from index [i] to the end of the pool. *)
Lemma thresholdSchedule_windows (keys : list string) (T : nat) :
  (0 < T)%nat →
  ∀ k i, (i + k = length keys)%nat →
    thresholdSchedule keys T i 0 (T * k) = roundRobin (drop i keys) T.
Proof.
  intros HT. induction k as [|k IH]; intros i Hik.
  - rewrite Nat.mul_0_r, drop_ge by lia. done.
  - replace (T * S k)%nat with (T + T * k)%nat by lia.
    rewrite (thresholdSchedule_window keys T T (T * k) i 0%nat) by lia.
    assert (i < length keys)%nat as Hi by lia.
    destruct (lookup_lt_is_Some_2 keys i Hi) as [x Hx].
    rewrite (drop_S keys x i Hx). unfold roundRobin at 1. simpl.
    rewrite (nth_lookup_Some keys i "" x Hx). f_equal.
    destruct k as [|k].
    + rewrite Nat.mul_0_r, drop_ge by lia. done.
    + rewrite Nat.mod_small by lia. apply IH. lia.
Qed.

Lemma configure_fresh (keys : list string) (T : nat) (rotationInterval rest now : N) :
  (0 < length keys)%nat →
  fresh keys T 0 0 (configure keys T rotationInterval rest now).
Proof.
  intros Hlen. split_and!; simpl; try done.
  - induction keys as [|k keys IH]; simpl; [done|]. f_equal.
    destruct keys; [done|]. apply IH. simpl. lia.
  - apply Forall_forall. intros cr Hin. apply list_elem_of_In, in_map_iff in Hin.
    by destruct Hin as (k & <- & _).
  - destruct keys as [|k keys]; [simpl in Hlen; lia|]. simpl. eauto.
Qed.

(** C8, as the pool has it: over a run with [T·N] calls in which no
    rate-limit signal occurs and the wall-clock timer never finds its
    interval elapsed, a freshly configured pool of [N] credentials uses each
    credential for exactly [T] calls, in the configured order. *)
Theorem round_robin_between_other_rotations
    (keys : list string) (T : nat) (rotationInterval rest start : N) (evs : list Event) :
  quiet evs (configure keys T rotationInterval rest start) = true →
  length (List.filter isCall evs) = (T * length keys)%nat →
  run evs (configure keys T rotationInterval rest start) = roundRobin keys T.
Proof.
  intros Hquiet Hlen.
  destruct (Nat.eq_dec T 0%nat) as [->|HT].
  { assert (roundRobin keys 0 = []) as ->.
    { unfold roundRobin. clear. induction keys as [|k keys IH]; simpl; done. }
    simpl in Hlen. revert Hquiet Hlen.
    generalize (configure keys 0 rotationInterval rest start).
    induction evs as [|[now|now|now] evs IH]; intros p Hquiet Hlen; simpl in *; try done.
    apply andb_true_iff in Hquiet as [Hidle Hquiet].
    unfold onTimer. apply negb_true_iff in Hidle. rewrite Hidle. by apply IH. }
  destruct keys as [|k keys].
  { rewrite Nat.mul_0_r in Hlen. revert Hquiet Hlen.
    generalize (configure [] T rotationInterval rest start).
    induction evs as [|[now|now|now] evs IH]; intros p Hquiet Hlen; simpl in *; try done.
    apply andb_true_iff in Hquiet as [Hidle Hquiet].
    unfold onTimer. apply negb_true_iff in Hidle. rewrite Hidle. by apply IH. }
  rewrite (run_quiet_fresh (k :: keys) T evs 0%nat 0%nat).
  - rewrite Hlen. by rewrite (thresholdSchedule_windows (k :: keys) T) by (simpl; lia).
  - apply configure_fresh. simpl. lia.
  - lia.
  - done.
Qed.

(** Six calls on three keys with a threshold of two; the timer looks at the
    clock twice and finds the interval not elapsed. *)
Lemma round_robin_between_other_rotations_witness :
  run [Call 5; Call 6; Timer 7; Call 8; Call 20; Timer 21; Call 22; Call 23]
    (configure ["k1"; "k2"; "k3"] 2 900000 60000 0)
  = [Used "k1"; Used "k1"; Used "k2"; Used "k2"; Used "k3"; Used "k3"].
Proof.
  apply (round_robin_between_other_rotations ["k1"; "k2"; "k3"] 2 900000 60000 0
           [Call 5; Call 6; Timer 7; Call 8; Call 20; Timer 21; Call 22; Call 23]).
  - vm_compute. reflexivity.
  - reflexivity.
Defined.

(** C8, as the claim words it, fails: with two credentials and a threshold
    of two, four calls without any rate-limit signal, between which the
    wall-clock interval of ten elapses twice, use the first credential once
    and the second three times. *)
Lemma wall_clock_rotation_breaks_round_robin :
  let evs := [Call 0; Timer 10; Call 11; Call 12; Timer 22; Call 23] in
  let used := run evs (configure ["k1"; "k2"] 2 10 60 0) in
  forallb (λ ev, negb (isRateLimited ev)) evs = true
  ∧ length (List.filter isCall evs) = (2 * 2)%nat
  ∧ quiet evs (configure ["k1"; "k2"] 2 10 60 0) = false
  ∧ used = [Used "k1"; Used "k2"; Used "k2"; Used "k2"]
  ∧ used ≠ roundRobin ["k1"; "k2"] 2.
Proof. vm_compute. split_and!; done. Qed.

End PoolFacts.

(** ** The theorems at concrete inputs *)

(** Chat 1 tracks [W]; chat 2 then asks for it too. *)
Lemma tracked_set_is_union_of_user_sets_witness :
  addWalletCalls
    (track (λ _, true) 2 "W" 5
       (run (λ _, true) (λ _, "") [Track 1 "W" 0] (new_bot 0 300000 3)).1).2
  = ["W"].
Proof.
  destruct (tracked_set_is_union_of_user_sets (λ _, true) (λ _, "") 0 300000 3 [Track 1 "W" 0])
    as (_ & _ & Htrack & _).
  destruct (Htrack 2 "W" 5) as (_ & _ & Hadd & _).
  - reflexivity.
  - vm_compute. apply not_elem_of_nil.
  - vm_compute. reflexivity.
  - exact Hadd.
Defined.

(** Chats 1 and 3 track [W], chat 2 does not: chat 1 gets one message,
    chat 2 none. *)
Lemma notifyUsers_notifies_exactly_the_trackers_witness :
  let st := with_userWallets [(1, ["W"]); (2, ["V"]); (3, ["V"; "W"])] (new_bot 0 300000 3) in
  let data := {| wallet := JsStr "W"; token := None; buySell := "SELL"; amount := None;
                 signature := "S"; timestamp := 0 |} in
  length (List.filter (λ s : Z * Message, bool_decide (s.1 = 1))
            (sends (notifyUsers (λ _, "") data st).1)) = 1%nat
  ∧ length (List.filter (λ s : Z * Message, bool_decide (s.1 = 2))
              (sends (notifyUsers (λ _, "") data st).1)) = 0%nat.
Proof.
  intros st data.
  destruct (notifyUsers_notifies_exactly_the_trackers (λ _, "") data st) as (_ & _ & Hcount).
  assert (NoDup (JsMap.keys (userWallets st))) as Hnd.
  { apply (bool_decide_unpack _). vm_compute. exact I. }
  split.
  - rewrite (Hcount "W" 1 eq_refl); [reflexivity | discriminate | discriminate | exact Hnd].
  - rewrite (Hcount "W" 2 eq_refl); [reflexivity | discriminate | discriminate | exact Hnd].
Defined.

(** [W1] is tracked and new: its payload is dispatched once. *)
Lemma duplicate_signature_dispatched_once_witness :
  let p := {| Engine.changes := [{| Engine.address := "W1"; Engine.delta := 5 |}];
              Engine.mint := "X"; Engine.payloadSignature := Some "S1";
              Engine.observedAt := 1 |} in
  let st := {| Engine.tracked := ["W1"]; Engine.seen := [] |} in
  length (Engine.dispatchedFor "W1" "S1" (Engine.onPayload (λ m, Some m) p st).2) = 1%nat.
Proof.
  intros p st.
  destruct (duplicate_signature_dispatched_once (λ m, Some m)) as (_ & _ & Hfirst).
  apply Hfirst.
  - reflexivity.
  - left.
  - left.
  - apply not_elem_of_nil.
Defined.

(** Five minutes without a command, one wallet tracked: the monitor resets. *)
Lemma inactivity_reset_removes_each_wallet_once_witness :
  let st := with_userWallets [(1, ["W"])] (new_bot 1000 300000 3) in
  inactivityMonitor_tick 301000 st = handleInactivityCleanup st.
Proof.
  intros st.
  destruct (inactivity_reset_removes_each_wallet_once st) as (_ & _ & _ & _ & _ & Htick).
  apply Htick.
  - vm_compute. discriminate.
  - vm_compute. reflexivity.
Defined.

(** The send to chat 1 is rejected, the one to chat 3 goes through. *)
Lemma notification_failure_is_contained_witness :
  let st := with_userWallets [(1, ["W"]); (3, ["W"])] (new_bot 0 300000 3) in
  let data := {| wallet := JsStr "W"; token := None; buySell := "SELL"; amount := None;
                 signature := "S"; timestamp := 0 |} in
  let outcome := λ chatId : Z, if bool_decide (chatId = 1) then SendRejected else Sent 42 in
  Log (ErrorFailedToSend 1) ∈ (notifyUsers_complete (λ _, "") data outcome st).1.2
  ∧ map fst (sends (notifyUsers_complete (λ _, "") data outcome st).1.2) = [1; 3].
Proof.
  intros st data outcome.
  destruct (notification_failure_is_contained (λ _, "") outcome data st)
    as (_ & Hsends & Hlog & _).
  split.
  - eapply Hlog; [|by right]. rewrite Hsends. left.
  - rewrite Hsends. reflexivity.
Defined.


(** * Further properties of the bot *)

(** ** Wallet sets under [/track] and [/untrack] *)

Lemma JsSet_delete_absent (a : string) (s : JsSet.t) : a ∉ s → JsSet.delete a s = s.
Proof.
  unfold JsSet.delete, JsSet.t in *. induction s as [|x s IH]; intros Hnot; [done|].
  apply not_elem_of_cons in Hnot as [Hne Hnot].
  rewrite filter_cons. rewrite decide_True by done. by rewrite IH.
Qed.

Lemma JsSet_delete_add (a : string) (s : JsSet.t) :
  a ∉ s → JsSet.delete a (JsSet.add a s) = s.
Proof.
  intros Hnot. unfold JsSet.add. apply JsSet_has_false in Hnot as Hhas. rewrite Hhas.
  pose proof (JsSet_delete_absent a s Hnot) as Habs.
  unfold JsSet.delete, JsSet.t in *. rewrite filter_app, filter_cons, filter_nil.
  rewrite decide_False by (intros H; by apply H). rewrite app_nil_r.
  exact Habs.
Qed.

Lemma JsSet_size_add (a : string) (s : JsSet.t) :
  JsSet.has a s = false → JsSet.size (JsSet.add a s) = JsSet.size s + 1.
Proof.
  intros H. unfold JsSet.add, JsSet.size. rewrite H, length_app. simpl. lia.
Qed.

Lemma JsSet_size_delete (a : string) (s : JsSet.t) :
  JsSet.size (JsSet.delete a s) ≤ JsSet.size s.
Proof.
  unfold JsSet.delete, JsSet.size, JsSet.t in *.
  pose proof (length_filter (λ x, x ≠ a) s) as H. apply Nat2Z.inj_le, H.
Qed.

Section WalletSets.

Variable validateWalletAddress : string → bool.

(** The wallet sets after [/track]. *)
Lemma track_walletsOf (chatId : Z) (arg : string) (now : Z) (st : Bot) (c : Z) :
  walletsOf c (track validateWalletAddress chatId arg now st).1
  = if bool_decide (c = chatId) && trackAccepts validateWalletAddress chatId arg st
    then JsSet.add (JsString.trim arg) (walletsOf chatId st)
    else walletsOf c st.
Proof.
  unfold track, trackAccepts.
  destruct (validateWalletAddress (JsString.trim arg)); simpl;
    [|by rewrite andb_false_r].
  set (st0 := updateUserActivity now st).
  set (st1 := if JsMap.has chatId (userWallets st) then st0 else _).
  assert (∀ c', walletsOf c' st1 = walletsOf c' st) as Hw.
  { intros c'. subst st1. destruct (JsMap.has chatId (userWallets st)) eqn:Hhas; [done|].
    by rewrite <- (walletsOf_set_empty chatId c' st Hhas). }
  assert (MAX_WALLETS_PER_USER st1 = MAX_WALLETS_PER_USER st) as Hmax.
  { subst st1. by destruct (JsMap.has chatId (userWallets st)). }
  rewrite (Hw chatId), Hmax.
  destruct (JsSet.has (JsString.trim arg) (walletsOf chatId st)); simpl;
    [by rewrite andb_false_r, Hw|].
  destruct (JsSet.size (walletsOf chatId st) >=? MAX_WALLETS_PER_USER st); simpl;
    [by rewrite andb_false_r, Hw|].
  rewrite andb_true_r. unfold walletsOf at 1. simpl.
  case_bool_decide as Hc.
  - subst c. by rewrite JsMap_get_set_eq.
  - rewrite JsMap_get_set_ne by done. apply (Hw c).
Qed.

(** The wallet sets after [/untrack]. *)
Lemma untrack_walletsOf (chatId : Z) (arg : string) (now : Z) (st : Bot) (c : Z) :
  walletsOf c (untrack chatId arg now st).1
  = if bool_decide (c = chatId) then JsSet.delete (JsString.trim arg) (walletsOf chatId st)
    else walletsOf c st.
Proof.
  rewrite untrack_eq. simpl. unfold walletsOf.
  destruct (JsMap.get chatId (userWallets st)) as [ws|] eqn:Hget; simpl.
  2: { case_bool_decide as Hc; [subst c; by rewrite Hget | done]. }
  destruct (JsSet.has (JsString.trim arg) ws) eqn:Hhas; simpl.
  2: { apply JsSet_has_false in Hhas. rewrite JsSet_delete_absent by done.
       case_bool_decide as Hc; [subst c; by rewrite Hget | done]. }
  destruct (walletStillTrackedByOthers _ _ _); simpl; case_bool_decide as Hc.
  - subst c. by rewrite JsMap_get_set_eq.
  - by rewrite JsMap_get_set_ne.
  - subst c. by rewrite JsMap_get_set_eq.
  - by rewrite JsMap_get_set_ne.
Qed.

Lemma track_MAX (chatId : Z) (arg : string) (now : Z) (st : Bot) :
  MAX_WALLETS_PER_USER (track validateWalletAddress chatId arg now st).1
  = MAX_WALLETS_PER_USER st.
Proof.
  unfold track. repeat match goal with |- context [if ?b then _ else _] => destruct b end; done.
Qed.

Lemma untrack_MAX (chatId : Z) (arg : string) (now : Z) (st : Bot) :
  MAX_WALLETS_PER_USER (untrack chatId arg now st).1 = MAX_WALLETS_PER_USER st.
Proof.
  rewrite untrack_eq. simpl. destruct (JsMap.get chatId (userWallets st)); [|done].
  repeat match goal with |- context [if ?b then _ else _] => destruct b end; done.
Qed.

End WalletSets.

Lemma step_wallet_limit (validateWalletAddress : string → bool) (formatTimestamp : Z → string)
    (m : Z) (ev : Event) (st : Bot) :
  (MAX_WALLETS_PER_USER st = m ∧ ∀ c, JsSet.size (walletsOf c st) ≤ Z.max 0 m) →
  let st' := (step validateWalletAddress formatTimestamp ev st).1 in
  MAX_WALLETS_PER_USER st' = m ∧ ∀ c, JsSet.size (walletsOf c st') ≤ Z.max 0 m.
Proof.
  intros [Hm Hinv].
  destruct ev as [chatId arg now|chatId arg now|chatId now|data|chatId outcome
                 |chatId outcome|chatId|now]; simpl.
  - split; [by rewrite track_MAX|]. intros c. rewrite track_walletsOf.
    destruct (bool_decide (c = chatId) && trackAccepts _ _ _ _) eqn:Hacc; [|apply Hinv].
    apply andb_true_iff in Hacc as [_ Hacc]. unfold trackAccepts in Hacc.
    apply andb_true_iff in Hacc as [Hacc Hroom]. apply andb_true_iff in Hacc as [_ Hnew].
    apply negb_true_iff in Hnew, Hroom. rewrite JsSet_size_add by done.
    rewrite Hm in Hroom. destruct (Z.geb_spec (JsSet.size (walletsOf chatId st)) m); [done|]. lia.
  - split; [by rewrite untrack_MAX|]. intros c. rewrite untrack_walletsOf.
    case_bool_decide; [|apply Hinv].
    pose proof (JsSet_size_delete (JsString.trim arg) (walletsOf chatId st)).
    specialize (Hinv chatId). lia.
  - done.
  - done.
  - pose proof (sendAndTrackMessage_resume_frame chatId outcome st) as [H1 _].
    assert (MAX_WALLETS_PER_USER (sendAndTrackMessage_resume chatId outcome st).1.1
            = MAX_WALLETS_PER_USER st) as H2.
    { destruct outcome; simpl; [|done..].
      by match goal with |- context [if ?b then _ else _] => destruct b end. }
    destruct (sendAndTrackMessage_resume chatId outcome st) as [[st1 effs] r].
    simpl in *. unfold walletsOf in *. rewrite H1, H2. done.
  - pose proof (notifyUsers_settled_frame chatId outcome st) as (H1 & _ & _).
    assert (MAX_WALLETS_PER_USER (notifyUsers_settled chatId outcome st).1
            = MAX_WALLETS_PER_USER st) as H2.
    { unfold notifyUsers_settled. destruct outcome; simpl; [|done..].
      by match goal with |- context [if ?b then _ else _] => destruct b end. }
    unfold walletsOf in *. rewrite H1, H2. done.
  - done.
  - unfold inactivityMonitor_tick.
    match goal with |- context [if ?b then _ else _] => destruct b end; [|done].
    split; [done|]. intros c. unfold walletsOf, JsSet.size. simpl. lia.
Qed.

Lemma roundInt_exact (z : Z) : Z.abs z ≤ 2 ^ 53 → JsNumber.roundInt z = z.
Proof.
  intros Hz. unfold JsNumber.roundInt.
  destruct (Z.ltb_spec (Z.abs z) (2 ^ 53)) as [|Hge]; [done|].
  assert (Z.abs z = 2 ^ 53) as Habs by lia.
  destruct (Z.abs_eq_or_opp z) as [Hz' | Hz']; rewrite Hz' in Habs.
  - rewrite Habs. reflexivity.
  - assert (z = - 2 ^ 53) as -> by lia. reflexivity.
Qed.

(** Rounding keeps the sign. *)
Lemma roundInt_sign (z : Z) :
  (0 < JsNumber.roundInt z ↔ 0 < z) ∧ (0 ≤ z → 0 ≤ JsNumber.roundInt z).
Proof.
  unfold JsNumber.roundInt.
  destruct (Z.ltb_spec (Z.abs z) (2 ^ 53)) as [|Hge]; [split; [done | lia]|].
  cbv zeta. set (m := Z.abs z) in *. set (e := Z.log2 m - 52).
  assert (0 < m) as Hm by lia.
  assert (53 ≤ Z.log2 m) as Hlog.
  { change 53 with (Z.log2 (2 ^ 53)). by apply Z.log2_le_mono. }
  assert (0 < 2 ^ e) as Hpow by (apply Z.pow_pos_nonneg; lia).
  assert (2 ^ e ≤ m) as Hle.
  { pose proof (Z.log2_spec m Hm) as [Hlow _].
    etrans; [|exact Hlow]. apply Z.pow_le_mono_r; lia. }
  assert (0 < m / 2 ^ e) as Hq by (apply Z.div_str_pos; lia).
  set (q' := if m mod 2 ^ e <? 2 ^ (e - 1) then _ else _).
  assert (0 < q') as Hq'.
  { subst q'. repeat match goal with |- context [if ?b then _ else _] => destruct b end; lia. }
  assert (0 < q' * 2 ^ e) as Hprod by lia.
  destruct z as [|z|z]; simpl Z.sgn; split; try lia.
Qed.

(** X1: after any sequence of events no chat holds more wallets than
    [MAX_WALLETS_PER_USER], and none at all when the limit is zero or
    negative.  So the slots that the status shows as available are not
    negative under a limit that is not negative, and they are the limit less
    the chat's wallets when the limit is at most [2^53] in absolute value
    (beyond it the difference is rounded to a double); the list button
    reports the chat's own wallets, at least one and at most the limit, and
    says that the limit is reached exactly when their number is the limit. *)
Theorem wallet_limit_is_kept
    (validateWalletAddress : string → bool) (formatTimestamp : Z → string)
    (now0 inactivityLimit maxWallets : Z) (evs : list Event) (chatId : Z) :
  let st := (run validateWalletAddress formatTimestamp evs
               (new_bot now0 inactivityLimit maxWallets)).1 in
  JsSet.size (walletsOf chatId st) ≤ Z.max 0 maxWallets
  ∧ (maxWallets ≤ 0 → walletsOf chatId st = [])
  ∧ (0 ≤ maxWallets → 0 ≤ remainingSlots (statusNumbers chatId st))
  ∧ (Z.abs maxWallets ≤ 2 ^ 53 →
     userWalletCount (statusNumbers chatId st) + remainingSlots (statusNumbers chatId st)
     = maxWallets)
  ∧ (∀ wallets n limit more,
       handleListButton chatId st = TrackedWallets wallets n limit more →
       wallets = walletsOf chatId st ∧ limit = maxWallets ∧ 0 < n ≤ maxWallets
       ∧ (more = false ↔ n = maxWallets)).
Proof.
  intros st.
  assert (MAX_WALLETS_PER_USER st = maxWallets
          ∧ ∀ c, JsSet.size (walletsOf c st) ≤ Z.max 0 maxWallets) as [Hm Hinv].
  { apply (run_invariant validateWalletAddress formatTimestamp
             (λ st, MAX_WALLETS_PER_USER st = maxWallets
                    ∧ ∀ c, JsSet.size (walletsOf c st) ≤ Z.max 0 maxWallets)).
    - intros ev st'. apply step_wallet_limit.
    - split; [done|]. intros c. unfold walletsOf, JsSet.size. simpl. lia. }
  specialize (Hinv chatId).
  assert (0 ≤ JsSet.size (walletsOf chatId st)) as Hsize by (unfold JsSet.size; lia).
  split_and!.
  - done.
  - intros Hneg. unfold JsSet.size in *.
    destruct (walletsOf chatId st); [done | simpl in *; lia].
  - intros Hpos. unfold statusNumbers. simpl. rewrite Hm.
    apply roundInt_sign. lia.
  - intros Hsafe. unfold statusNumbers, JsNumber.sub. simpl. rewrite Hm.
    rewrite roundInt_exact by lia. lia.
  - intros wallets n limit more. unfold handleListButton.
    destruct (JsMap.has chatId (userWallets st) && (JsSet.size (walletsOf chatId st) >? 0))
      eqn:Hhas; [|done].
    apply andb_true_iff in Hhas as [_ Hpos]. intros [= <- <- <- <-].
    destruct (Z.gtb_spec (JsSet.size (walletsOf chatId st)) 0); [|done].
    unfold JsSet.size in *. rewrite Hm. split_and!; [done | done | lia | lia |].
    unfold JsNumber.sub.
    pose proof (roundInt_sign (maxWallets - Z.of_nat (length (walletsOf chatId st))))
      as [Hsign _].
    destruct (Z.gtb_spec
                (JsNumber.roundInt (maxWallets - Z.of_nat (length (walletsOf chatId st)))) 0);
      split; intros; try done; lia.
Qed.

(** Under a limit of [2^54] a chat with one wallet is shown [2^54] available
    slots: the difference is not a double. *)
Example rounded_slots :
  remainingSlots
    (statusNumbers 1
       (run (λ _, true) (λ _, "") [Track 1 "A" 0] (new_bot 0 300000 (2 ^ 54))).1)
  = 2 ^ 54.
Proof. vm_compute. reflexivity. Qed.

Lemma track_trackedWallets (validateWalletAddress : string → bool)
    (chatId : Z) (arg : string) (now : Z) (st : Bot) :
  trackedWallets (websocket (track validateWalletAddress chatId arg now st).1)
  = if trackAccepts validateWalletAddress chatId arg st
    then JsSet.add (JsString.trim arg) (trackedWallets (websocket st))
    else trackedWallets (websocket st).
Proof.
  unfold track, trackAccepts.
  destruct (validateWalletAddress (JsString.trim arg)); simpl; [|done].
  set (st1 := if JsMap.has chatId (userWallets st) then _ else _).
  assert (walletsOf chatId st1 = walletsOf chatId st) as Hw.
  { subst st1. destruct (JsMap.has chatId (userWallets st)) eqn:Hhas; [done|].
    by rewrite <- (walletsOf_set_empty chatId chatId st Hhas). }
  assert (MAX_WALLETS_PER_USER st1 = MAX_WALLETS_PER_USER st) as Hmax.
  { subst st1. by destruct (JsMap.has chatId (userWallets st)). }
  assert (websocket st1 = websocket st) as Hws.
  { subst st1. by destruct (JsMap.has chatId (userWallets st)). }
  rewrite Hw, Hmax.
  destruct (JsSet.has (JsString.trim arg) (walletsOf chatId st)); simpl; [by rewrite Hws|].
  destruct (JsSet.size (walletsOf chatId st) >=? MAX_WALLETS_PER_USER st); simpl;
    by rewrite Hws.
Qed.

(** The wallet sets and the engine after an accepted [/track] and the
    [/untrack] of the same address, before the replies are delivered. *)
Lemma track_untrack_sets
    (validateWalletAddress : string → bool)
    (chatId : Z) (arg : string) (now1 now2 : Z) (st : Bot) :
  consistent st →
  trackAccepts validateWalletAddress chatId arg st = true →
  let st2 := (untrack chatId arg now2
                (track validateWalletAddress chatId arg now1 st).1).1 in
  (∀ c, walletsOf c st2 = walletsOf c st)
  ∧ trackedWallets (websocket st2) = trackedWallets (websocket st)
  ∧ botMessageIds st2 = botMessageIds st.
Proof.
  intros Hc Hacc st2. subst st2.
  set (a := JsString.trim arg) in *.
  set (st1 := (track validateWalletAddress chatId arg now1 st).1).
  assert (a ∉ walletsOf chatId st) as Hnew.
  { unfold trackAccepts in Hacc. apply andb_true_iff in Hacc as [Hacc _].
    apply andb_true_iff in Hacc as [_ Hnew]. apply negb_true_iff in Hnew.
    by apply JsSet_has_false. }
  assert (∀ c, walletsOf c st1
               = if bool_decide (c = chatId) then JsSet.add a (walletsOf chatId st)
                 else walletsOf c st) as Hw1.
  { intros c. subst st1. rewrite track_walletsOf, Hacc. by rewrite andb_true_r. }
  assert (consistent st1) as Hc1 by by apply track_consistent.
  split_and!.
  - intros c. rewrite untrack_walletsOf. fold a. rewrite !Hw1.
    rewrite (bool_decide_eq_true_2 (chatId = chatId)) by done.
    case_bool_decide as Heq; [|done]. subst c. by apply JsSet_delete_add.
  - assert (trackedWallets (websocket st1) = JsSet.add a (trackedWallets (websocket st)))
      as Ht1.
    { subst st1. by rewrite track_trackedWallets, Hacc. }
    assert (a ∈ trackedWallets (websocket st) ↔ requestedByOthers chatId (userWallets st1) a)
      as Hothers.
    { destruct Hc as [Hnd Hinv], Hc1 as [Hnd1 _]. rewrite Hinv.
      rewrite (requestedBy_split chatId) by done. fold (walletsOf chatId st).
      rewrite !requestedByOthers_walletsOf by done. split.
      - intros [? | (c & Hne & Hx)]; [done|]. exists c. split; [done|].
        rewrite Hw1. by rewrite bool_decide_eq_false_2.
      - intros (c & Hne & Hx). right. exists c. split; [done|].
        rewrite Hw1 in Hx. by rewrite bool_decide_eq_false_2 in Hx. }
    rewrite untrack_eq. simpl. fold a.
    assert (JsMap.get chatId (userWallets st1) = Some (JsSet.add a (walletsOf chatId st)))
      as Hget.
    { specialize (Hw1 chatId). rewrite bool_decide_eq_true_2 in Hw1 by done.
      unfold walletsOf at 1 in Hw1.
      destruct (JsMap.get chatId (userWallets st1)) as [ws|]; simpl in Hw1; [by subst|].
      exfalso. assert (a ∈ JsSet.add a (walletsOf chatId st)) as Hin.
      { apply JsSet_elem_of_add. by left. }
      rewrite <- Hw1 in Hin. by apply elem_of_nil in Hin. }
    rewrite Hget.
    assert (JsSet.has a (JsSet.add a (walletsOf chatId st)) = true) as ->.
    { apply JsSet_has_true, JsSet_elem_of_add. by left. }
    destruct (walletStillTrackedByOthers chatId a _) eqn:Hstill; simpl.
    + apply walletStillTrackedByOthers_spec in Hstill.
      rewrite requestedByOthers_set in Hstill by apply Hc1.
      apply Hothers in Hstill. rewrite Ht1. unfold JsSet.add.
      apply JsSet_has_true in Hstill. by rewrite Hstill.
    + apply not_true_iff_false in Hstill.
      rewrite walletStillTrackedByOthers_spec in Hstill.
      rewrite requestedByOthers_set in Hstill by apply Hc1.
      rewrite <- Hothers in Hstill. rewrite Ht1. by apply JsSet_delete_add.
  - rewrite untrack_botMessageIds. subst st1. apply track_botMessageIds.
Qed.

Lemma untrack_miss (chatId : Z) (arg : string) (now : Z) (st : Bot) :
  JsString.trim arg ∉ walletsOf chatId st →
  untrack chatId arg now st
  = (updateUserActivity now st,
     [SendTracked chatId
        (if JsMap.has chatId (userWallets st) then MsgWalletNotFound
         else MsgNotTrackingAny)]).
Proof.
  intros Hnot. rewrite untrack_eq. unfold walletsOf, JsMap.has in *.
  destruct (JsMap.get chatId (userWallets st)) as [ws|]; simpl in *; [|done].
  apply JsSet_has_false in Hnot. by rewrite Hnot.
Qed.

Lemma track_keys (validateWalletAddress : string → bool)
    (chatId : Z) (arg : string) (now : Z) (st : Bot) :
  JsMap.keys (userWallets (track validateWalletAddress chatId arg now st).1)
  = if validateWalletAddress (JsString.trim arg) && negb (JsMap.has chatId (userWallets st))
    then JsMap.keys (userWallets st) ++ [chatId]
    else JsMap.keys (userWallets st).
Proof.
  unfold track. destruct (validateWalletAddress (JsString.trim arg)); simpl; [|done].
  set (st0 := updateUserActivity now st).
  set (st1 := if JsMap.has chatId (userWallets st) then st0 else _).
  assert (JsMap.keys (userWallets st1)
          = if negb (JsMap.has chatId (userWallets st))
            then JsMap.keys (userWallets st) ++ [chatId]
            else JsMap.keys (userWallets st)) as Hk.
  { subst st1. destruct (JsMap.has chatId (userWallets st)) eqn:Hhas; simpl; [done|].
    by rewrite JsMap_keys_set, Hhas. }
  assert (JsMap.has chatId (userWallets st1) = true) as Hhas1.
  { subst st1. unfold JsMap.has.
    destruct (JsMap.get chatId (userWallets st)) eqn:Hget; simpl; [by rewrite Hget|].
    by rewrite JsMap_get_set_eq. }
  repeat match goal with |- context [if ?b then (_, _) else _] => destruct b end;
    simpl; rewrite ?JsMap_keys_set, ?Hhas1; exact Hk.
Qed.

Lemma untrack_keys (chatId : Z) (arg : string) (now : Z) (st : Bot) :
  JsMap.keys (userWallets (untrack chatId arg now st).1) = JsMap.keys (userWallets st).
Proof.
  rewrite untrack_eq. simpl. unfold JsMap.has.
  destruct (JsMap.get chatId (userWallets st)) as [ws|] eqn:Hget; [|done].
  destruct (JsSet.has (JsString.trim arg) ws); [|done].
  destruct (walletStillTrackedByOthers _ _ _); simpl;
    rewrite JsMap_keys_set; unfold JsMap.has; by rewrite Hget.
Qed.

Lemma JsMap_has_keys {V} (k : Z) (m : JsMap.t V) :
  JsMap.has k m = true ↔ k ∈ JsMap.keys m.
Proof.
  unfold JsMap.has. pose proof (JsMap_get_None k m) as Hnone.
  destruct (JsMap.get k m) eqn:Hget.
  - split; [|done]. intros _. destruct (decide (k ∈ JsMap.keys m)) as [|Hno]; [done|].
    apply Hnone in Hno. congruence.
  - split; [done|]. intros Hin. destruct Hnone as [Hnone _]. by destruct (Hnone eq_refl).
Qed.

Lemma lastN_lastN_app {A} (n : nat) (l d : list A) :
  lastN n (lastN n l ++ d) = lastN n (l ++ d).
Proof.
  unfold lastN. rewrite !length_app, !drop_app, drop_drop, !length_drop.
  f_equal; f_equal; lia.
Qed.

Lemma lastN_all {A} (n : nat) (l : list A) : (length l ≤ n)%nat → lastN n l = l.
Proof. intros H. unfold lastN. by replace (length l - n)%nat with 0%nat by lia. Qed.

(** X3: [/untrack] of an address the chat does not hold only refreshes the
    activity timestamp and answers; no wallet set changes and the engine is
    not called.  The answer is 'not tracking any wallets' only for a chat
    without an entry in [userWallets], and [/untrack] never removes an entry:
    a chat that has untracked its last wallet is told 'not found'. *)
Theorem untrack_of_an_address_not_held :
  (∀ chatId arg now st,
     JsString.trim arg ∉ walletsOf chatId st →
     untrack chatId arg now st
     = (updateUserActivity now st,
        [SendTracked chatId
           (if JsMap.has chatId (userWallets st) then MsgWalletNotFound
            else MsgNotTrackingAny)]))
  ∧ (∀ chatId arg now st,
       JsMap.has chatId (userWallets st) = true →
       JsMap.has chatId (userWallets (untrack chatId arg now st).1) = true).
Proof.
  split.
  - intros chatId arg now st Hnot. rewrite untrack_eq. unfold walletsOf, JsMap.has in *.
    destruct (JsMap.get chatId (userWallets st)) as [ws|]; simpl in *; [|done].
    apply JsSet_has_false in Hnot. by rewrite Hnot.
  - intros chatId arg now st. rewrite untrack_eq. unfold JsMap.has. simpl.
    destruct (JsMap.get chatId (userWallets st)) as [ws|] eqn:Hget; [|done]. intros _.
    destruct (JsSet.has (JsString.trim arg) ws); simpl; [|by rewrite Hget].
    destruct (walletStillTrackedByOthers _ _ _); simpl; by rewrite JsMap_get_set_eq.
Qed.

(** A chat whose set has become empty. *)
Lemma untrack_of_an_address_not_held_witness :
  (untrack 1 " W " 2 (with_userWallets [(1, [])] (new_bot 0 300000 3))).2
  = [SendTracked 1 MsgWalletNotFound].
Proof.
  destruct untrack_of_an_address_not_held as [Hmiss _].
  rewrite (Hmiss 1 " W " 2 (with_userWallets [(1, [])] (new_bot 0 300000 3))).
  - reflexivity.
  - apply not_elem_of_nil.
Defined.

(** ** The inactivity monitor *)

Lemma getTotalTrackedWallets_length (st : Bot) :
  getTotalTrackedWallets st = Z.of_nat (length (requestedWallets st)).
Proof.
  unfold getTotalTrackedWallets, requestedWallets.
  assert (∀ (uw : JsMap.t JsSet.t) (n : Z),
            fold_left (λ total (e : Z * JsSet.t), total + JsSet.size e.2) uw n
            = n + Z.of_nat (length (concat (map snd uw)))) as H.
  { induction uw as [|[k ws] uw IH]; intros n; simpl; [lia|].
    rewrite IH, length_app. unfold JsSet.size. simpl. lia. }
  rewrite H. lia.
Qed.

(** X4: the monitor leaves the bot alone while the inactivity limit has not
    elapsed since the last command, and while no chat holds a wallet; after a
    reset, a further check finds nothing to do, whatever the time. *)
Theorem inactivity_monitor_idle :
  (∀ now st,
     now - lastUserActivity st < INACTIVITY_LIMIT st →
     inactivityMonitor_tick now st = (st, []))
  ∧ (∀ now st,
       requestedWallets st = [] →
       inactivityMonitor_tick now st = (st, []))
  ∧ (∀ now now' st,
       let st' := (handleInactivityCleanup st).1 in
       inactivityMonitor_tick now' (inactivityMonitor_tick now st').1 = (st', [])).
Proof.
  split_and!.
  - intros now st Hearly. unfold inactivityMonitor_tick.
    destruct (Z.eqb_spec (Z.max 0 (INACTIVITY_LIMIT st - (now - lastUserActivity st))) 0);
      [lia | done].
  - intros now st Hnone. unfold inactivityMonitor_tick.
    rewrite getTotalTrackedWallets_length, Hnone. simpl. by rewrite andb_false_r.
  - intros now now' st st'.
    assert (∀ t, inactivityMonitor_tick t st' = (st', [])) as Hidle.
    { intros t. unfold inactivityMonitor_tick.
      rewrite getTotalTrackedWallets_length. subst st'. simpl. by rewrite andb_false_r. }
    by rewrite !Hidle.
Qed.

Lemma inactivity_monitor_idle_witness :
  let st := with_userWallets [(1, ["W"])] (new_bot 1000 300000 3) in
  inactivityMonitor_tick 300999 st = (st, []).
Proof.
  intros st. destruct inactivity_monitor_idle as [Hearly _]. apply Hearly.
  vm_compute. reflexivity.
Defined.

Lemma fold_removeWallet_NoDup (l : list string) (ws : Backend) :
  NoDup (trackedWallets ws) →
  NoDup (trackedWallets (fold_left (λ ws w, removeWallet w ws) l ws)).
Proof.
  revert ws. induction l as [|w l IH]; intros ws Hnd; simpl; [done|].
  apply IH. simpl. by apply JsSet_NoDup_delete.
Qed.

Lemma step_tracked_NoDup (validateWalletAddress : string → bool)
    (formatTimestamp : Z → string) (ev : Event) (st : Bot) :
  NoDup (trackedWallets (websocket st)) →
  NoDup (trackedWallets (websocket (step validateWalletAddress formatTimestamp ev st).1)).
Proof.
  intros Hnd.
  destruct ev as [chatId arg now|chatId arg now|chatId now|data|chatId outcome
                 |chatId outcome|chatId|now]; simpl.
  - rewrite track_trackedWallets. destruct (trackAccepts _ _ _ _); [|done].
    by apply JsSet_NoDup_add.
  - rewrite untrack_eq. simpl. destruct (JsMap.get chatId (userWallets st)); [|done].
    destruct (JsSet.has _ _); [|done].
    destruct (walletStillTrackedByOthers _ _ _); simpl; [done|].
    by apply JsSet_NoDup_delete.
  - done.
  - done.
  - pose proof (sendAndTrackMessage_resume_frame chatId outcome st) as [_ H].
    destruct (sendAndTrackMessage_resume chatId outcome st) as [[st1 effs] r].
    simpl in *. by rewrite H.
  - pose proof (notifyUsers_settled_frame chatId outcome st) as (_ & H & _). by rewrite H.
  - done.
  - unfold inactivityMonitor_tick.
    match goal with |- context [if ?b then _ else _] => destruct b end; [|done].
    simpl. by apply fold_removeWallet_NoDup.
Qed.

(** X5: in a state the bot can be in, the number the monitor tests
    ([getTotalTrackedWallets], which counts a wallet once per chat that holds
    it) is positive exactly when the engine tracks a wallet, and it is at
    least the number of wallets the engine tracks; and the inactivity reset
    leaves the engine tracking nothing. *)
Theorem reset_empties_the_engine
    (validateWalletAddress : string → bool) (formatTimestamp : Z → string)
    (now0 inactivityLimit maxWallets : Z) (evs : list Event) :
  let st := (run validateWalletAddress formatTimestamp evs
               (new_bot now0 inactivityLimit maxWallets)).1 in
  (0 < getTotalTrackedWallets st ↔ trackedWallets (websocket st) ≠ [])
  ∧ JsSet.size (trackedWallets (websocket st)) ≤ getTotalTrackedWallets st
  ∧ trackedWallets (websocket (handleInactivityCleanup st).1) = [].
Proof.
  intros st.
  assert (consistent st) as [Hnd Hinv].
  { apply (run_invariant validateWalletAddress formatTimestamp consistent).
    - intros ev st'. apply step_consistent.
    - apply new_bot_consistent. }
  assert (NoDup (trackedWallets (websocket st))) as Htr.
  { apply (run_invariant validateWalletAddress formatTimestamp
             (λ st, NoDup (trackedWallets (websocket st)))).
    - intros ev st'. apply step_tracked_NoDup.
    - apply NoDup_nil_2. }
  assert (∀ a, a ∈ trackedWallets (websocket st) ↔ a ∈ requestedWallets st) as Hsame.
  { intros a. rewrite Hinv. unfold requestedWallets, requestedBy.
    by rewrite elem_of_requested. }
  rewrite getTotalTrackedWallets_length. split_and!.
  - destruct (trackedWallets (websocket st)) as [|w l] eqn:Ht;
      destruct (requestedWallets st) as [|x r] eqn:Hr; simpl; split; try done; try lia.
    + intros _. exfalso. assert (x ∈ []) as Hx by (apply Hsame; left).
      by apply elem_of_nil in Hx.
    + intros _. exfalso. assert (w ∈ []) as Hw by (apply Hsame; left).
      by apply elem_of_nil in Hw.
  - unfold JsSet.size. apply Nat2Z.inj_le.
    apply submseteq_length, NoDup_submseteq; [done|]. intros a. apply Hsame.
  - apply elem_of_nil_inv. intros a. simpl.
    rewrite fold_removeWallet_spec, elem_of_allWallets. fold (requestedWallets st).
    rewrite Hsame. tauto.
Qed.

(** ** The wallet of the record in the notification text *)






(** ** What [notifyUsers] logs *)

Lemma forEach_log (formatTimestamp : Z → string) (data : TransactionData) (st : Bot)
    (a : string) (entries : JsMap.t JsSet.t) (n : Z) :
  wallet data = JsStr a →
  let r := notifyUsers_forEach formatTimestamp data st entries n in
  r.2 = Normal (n + Z.of_nat (length (sends r.1)))
  ∧ debugLines r.1 = JsMap.keys entries
  ∧ addWalletCalls r.1 = [] ∧ removeWalletCalls r.1 = [].
Proof.
  intros Hw. revert n. induction entries as [|[chatId walletSet] entries IH]; intros n; simpl.
  { split_and!; [f_equal; lia | done..]. }
  rewrite Hw. simpl. destruct (JsSet.has a walletSet).
  - specialize (IH (n + 1)).
    destruct (notifyUsers_forEach formatTimestamp data st entries (n + 1)) as [effs c].
    simpl in *. destruct IH as (-> & -> & -> & ->). split_and!; [f_equal; lia | done..].
  - specialize (IH n).
    destruct (notifyUsers_forEach formatTimestamp data st entries n) as [effs c].
    simpl in *. destruct IH as (-> & -> & -> & ->). done.
Qed.

(** X7: for a record with a non-empty string wallet other than
    ['Unknown Wallet'], [notifyUsers] looks at every chat once, in the order
    of the map, and ends with a summary line whose count is the number of
    notifications it sent and whose wallet is the first eight characters of
    the record's; it asks the engine for nothing. *)
Theorem notifyUsers_summary_counts_the_sends
    (formatTimestamp : Z → string) (data : TransactionData) (st : Bot) (a : string) :
  wallet data = JsStr a →
  identifiesWallet data = true →
  let effs := (notifyUsers formatTimestamp data st).1 in
  last effs
  = Some (Log (InfoNotified (Z.of_nat (length (sends effs))) (JsString.substring0 8 a)))
  ∧ debugLines effs = JsMap.keys (userWallets st)
  ∧ addWalletCalls effs = [] ∧ removeWalletCalls effs = [].
Proof.
  intros Hw Hid effs. subst effs. unfold notifyUsers.
  unfold identifiesWallet in Hid. apply andb_true_iff in Hid as [Ht Hn].
  rewrite Ht. apply negb_true_iff in Hn. rewrite Hn. simpl.
  unfold try_catch, notifyUsers_try.
  pose proof (forEach_log formatTimestamp data st a (userWallets st) 0 Hw)
    as (Hc & Hd & Ha & Hr).
  destruct (notifyUsers_forEach formatTimestamp data st (userWallets st) 0) as [effs c].
  simpl in *. subst c. rewrite Hw. simpl.
  unfold sends, debugLines, addWalletCalls, removeWalletCalls in *.
  rewrite last_snoc, !omap_app. simpl. rewrite !app_nil_r.
  split_and!; [do 3 f_equal; lia | done..].
Qed.

Lemma notifyUsers_summary_counts_the_sends_witness :
  let data := {| wallet := JsStr "W1"; token := Some "BONK"; buySell := "BUY";
                 amount := Some "1 SOL"; signature := "S"; timestamp := 0 |} in
  let st := with_userWallets [(1, ["W1"]); (2, ["W2"]); (3, ["W1"])] (new_bot 0 300000 3) in
  last (notifyUsers (λ _, "") data st).1 = Some (Log (InfoNotified 2 "W1")).
Proof.
  intros data st.
  exact (proj1 (notifyUsers_summary_counts_the_sends (λ _, "") data st "W1" eq_refl eq_refl)).
Defined.

(** ** The periodic cleanup of message ids *)

Lemma with_botMessageIds_same (st : Bot) : with_botMessageIds (botMessageIds st) st = st.
Proof. by destruct st. Qed.

Lemma idsBounded_set (k : Z) (v : list Z) (m : JsMap.t (list Z)) :
  Z.of_nat (length v) ≤ MAX_MESSAGES_PER_USER → idsBounded m → idsBounded (JsMap.set k v m).
Proof.
  intros Hv. unfold idsBounded. induction m as [|[k' v'] m IH]; simpl.
  - intros _. by repeat constructor.
  - intros [Hhd Htl]%Forall_cons. case_bool_decide.
    + by constructor.
    + constructor; [done|]. by apply IH.
Qed.

Lemma cleanupOldMessageIds_bounded (st : Bot) :
  idsBounded (botMessageIds st) → cleanupOldMessageIds st = st.
Proof.
  intros Hb. unfold cleanupOldMessageIds.
  match goal with |- with_botMessageIds (map ?g _) _ = _ => set (f := g) end.
  assert (map f (botMessageIds st) = botMessageIds st) as ->;
    [|apply with_botMessageIds_same].
  unfold idsBounded in Hb. induction Hb as [|[k v] m Hhd Htl IH]; simpl; [done|].
  rewrite IH. f_equal. subst f. simpl in *. unfold MAX_MESSAGES_PER_USER in *.
  destruct (Z.gtb_spec (Z.of_nat (length v)) (50 * 2)); [lia | done].
Qed.

Lemma step_idsBounded (validateWalletAddress : string → bool)
    (formatTimestamp : Z → string) (ev : Event) (st : Bot) :
  idsBounded (botMessageIds st) →
  idsBounded (botMessageIds (step validateWalletAddress formatTimestamp ev st).1).
Proof.
  intros Hb.
  assert (∀ chatId outcome,
            idsBounded (botMessageIds (sendAndTrackMessage_resume chatId outcome st).1.1))
    as Hresume.
  { intros chatId [id| |]; simpl; [|done..].
    set (ids := if JsMap.has chatId (botMessageIds st) then _ else _).
    assert (idsBounded ids) as Hids.
    { subst ids. destruct (JsMap.has chatId (botMessageIds st)); [done|].
      apply idsBounded_set; [|done]. unfold MAX_MESSAGES_PER_USER. simpl. lia. }
    rewrite keep_recent.
    set (st1 := with_botMessageIds _ st).
    assert (idsBounded (botMessageIds st1)) as H1.
    { subst st1. simpl. apply idsBounded_set; [|done].
      pose proof (lastN_length 50 (default [] (JsMap.get chatId ids) ++ [id])).
      unfold MAX_MESSAGES_PER_USER. lia. }
    match goal with |- context [if ?b then _ else _] => destruct b end; [|done].
    by rewrite cleanupOldMessageIds_bounded. }
  destruct ev as [chatId arg now|chatId arg now|chatId now|data|chatId outcome
                 |chatId outcome|chatId|now]; simpl.
  - by rewrite track_botMessageIds.
  - by rewrite untrack_botMessageIds.
  - done.
  - done.
  - specialize (Hresume chatId outcome).
    by destruct (sendAndTrackMessage_resume chatId outcome st) as [[st1 effs] r].
  - specialize (Hresume chatId outcome). unfold notifyUsers_settled.
    by destruct (sendAndTrackMessage_resume chatId outcome st) as [[st1 effs] []].
  - apply idsBounded_set; [|done]. unfold MAX_MESSAGES_PER_USER. simpl. lia.
  - by rewrite inactivityMonitor_tick_botMessageIds.
Qed.

(** X8: [cleanupOldMessageIds] replaces every stored list of more than a
    hundred ids by its last fifty ids, in order, and leaves every other list,
    the chats of the map, their order and the rest of the state as they are;
    so each list afterwards is a final part of the former one with at most a
    hundred ids, and running the cleanup twice is running it once.  In every
    state the bot reaches it changes nothing, since each delivery already
    cuts the list to fifty. *)
Theorem periodic_cleanup_finds_nothing :
  (∀ st,
     cleanupOldMessageIds st
     = with_botMessageIds
         (map (λ e : Z * list Z,
                 (e.1, if (100 <? length e.2)%nat then lastN 50 e.2 else e.2))
            (botMessageIds st))
         st)
  ∧ (∀ st c,
       messageIdsOf c (cleanupOldMessageIds st)
       = (if (100 <? length (messageIdsOf c st))%nat
          then lastN 50 (messageIdsOf c st) else messageIdsOf c st)
       ∧ messageIdsOf c (cleanupOldMessageIds st) `suffix_of` messageIdsOf c st
       ∧ (length (messageIdsOf c (cleanupOldMessageIds st)) ≤ 100)%nat)
  ∧ (∀ st, cleanupOldMessageIds (cleanupOldMessageIds st) = cleanupOldMessageIds st)
  ∧ (∀ validateWalletAddress formatTimestamp now inactivityLimit maxWallets evs,
       let st := (run validateWalletAddress formatTimestamp evs
                    (new_bot now inactivityLimit maxWallets)).1 in
       cleanupOldMessageIds st = st).
Proof.
  split_and!.
  - intros st. unfold cleanupOldMessageIds. f_equal. apply map_ext. intros [k v]. simpl.
    unfold MAX_MESSAGES_PER_USER, lastN.
    destruct (Z.gtb_spec (Z.of_nat (length v)) (50 * 2));
      destruct (Nat.ltb_spec 100 (length v)); try lia; [|done].
    do 2 f_equal. lia.
  - intros st c. rewrite messageIdsOf_cleanup. simpl.
    destruct (Z.gtb_spec (Z.of_nat (length (messageIdsOf c st))) 100);
      destruct (Nat.ltb_spec 100 (length (messageIdsOf c st))); try lia.
    + split_and!; [done | apply suffix_drop |].
      pose proof (lastN_length 50 (messageIdsOf c st)). lia.
    + split_and!; [done | done | lia].
  - intros st. unfold cleanupOldMessageIds, with_botMessageIds. simpl. f_equal.
    rewrite map_map. apply map_ext. intros [k v]. simpl.
    unfold MAX_MESSAGES_PER_USER.
    destruct (Z.gtb_spec (Z.of_nat (length v)) (50 * 2)) as [Hbig|Hsmall]; simpl.
    + rewrite length_drop.
      destruct (Z.gtb_spec
                  (Z.of_nat (length v - Z.to_nat (Z.of_nat (length v) - 50))) (50 * 2));
        [lia | done].
    + destruct (Z.gtb_spec (Z.of_nat (length v)) (50 * 2)); [lia | done].
  - intros validateWalletAddress formatTimestamp now inactivityLimit maxWallets evs st.
    apply cleanupOldMessageIds_bounded.
    apply (run_invariant validateWalletAddress formatTimestamp
             (λ st, idsBounded (botMessageIds st))).
    + intros ev st'. apply step_idsBounded.
    + constructor.
Qed.

(** A list of a hundred and one ids is cut to its last fifty, a list of a
    hundred is kept. *)
Lemma periodic_cleanup_finds_nothing_witness :
  botMessageIds
    (cleanupOldMessageIds
       (with_botMessageIds [(1, seqZ 1 101); (2, seqZ 1 100)] (new_bot 0 300000 3)))
  = [(1, seqZ 52 50); (2, seqZ 1 100)].
Proof.
  destruct periodic_cleanup_finds_nothing as [Hexact _].
  rewrite Hexact. vm_compute. reflexivity.
Defined.

(** ** An accepted [/track] undone by [/untrack] *)

Lemma idsBounded_messageIdsOf (c : Z) (st : Bot) :
  idsBounded (botMessageIds st) → (length (messageIdsOf c st) ≤ 50)%nat.
Proof.
  intros Hb. unfold messageIdsOf.
  destruct (JsMap.get c (botMessageIds st)) as [v|] eqn:Hget; simpl; [|lia].
  apply JsMap_get_Some in Hget. unfold idsBounded in Hb. rewrite Forall_forall in Hb.
  specialize (Hb _ Hget). unfold MAX_MESSAGES_PER_USER in Hb. simpl in Hb. lia.
Qed.

(** The end of a send in a state whose lists are bounded: the chat's list
    takes the delivered id, every other list stays. *)
Lemma sendAndTrackMessage_resume_bounded (chatId c : Z) (outcome : SendOutcome) (st : Bot) :
  idsBounded (botMessageIds st) →
  let st' := (sendAndTrackMessage_resume chatId outcome st).1.1 in
  messageIdsOf c st'
  = (if bool_decide (c = chatId)
     then lastN 50 (messageIdsOf chatId st ++ delivered outcome)
     else messageIdsOf c st)
  ∧ idsBounded (botMessageIds st')
  ∧ lastUserActivity st' = lastUserActivity st.
Proof.
  intros Hb st'. subst st'. split_and!.
  - case_bool_decide as Hc.
    + subst c. destruct outcome as [id| |].
      * apply sendAndTrackMessage_resume_sent.
      * simpl. rewrite app_nil_r, lastN_all; [done | by apply idsBounded_messageIdsOf].
      * simpl. rewrite app_nil_r, lastN_all; [done | by apply idsBounded_messageIdsOf].
    + destruct outcome as [id| |]; [|done..].
      pose proof (step_idsBounded (λ _, true) (λ _, "") (SendEnded chatId (Sent id)) st Hb)
        as Hb'.
      simpl in Hb' |- *.
      set (ids := if JsMap.has chatId (botMessageIds st) then _ else _) in *.
      set (st1 := with_botMessageIds _ st) in *.
      assert (messageIdsOf c st1 = messageIdsOf c st) as H1.
      { unfold messageIdsOf. subst st1 ids. simpl. rewrite JsMap_get_set_ne by done.
        destruct (JsMap.has chatId (botMessageIds st)); [done|].
        by rewrite JsMap_get_set_ne. }
      match goal with |- context [if ?b then _ else _] => destruct b end; [|done].
      rewrite <- H1. rewrite messageIdsOf_cleanup_small; [done|].
      rewrite H1. pose proof (idsBounded_messageIdsOf c st Hb). lia.
  - pose proof (step_idsBounded (λ _, true) (λ _, "") (SendEnded chatId outcome) st Hb)
      as Hb'.
    simpl in Hb'.
    by destruct (sendAndTrackMessage_resume chatId outcome st) as [[st1 effs] r].
  - destruct outcome; simpl; [|done..].
    by match goal with |- context [if ?b then cleanupOldMessageIds _ else _] => destruct b end.
Qed.

(** X2: in a state the bot can be in, an accepted [/track] followed by the
    [/untrack] of the same address, both replies having been sent, leaves
    every chat's wallet set and the engine's tracked wallets, order included,
    as they were before the two commands.  The state is not the former one:
    the chat keeps an entry in [userWallets], new and empty if it had none,
    so that a further [/untrack] is answered 'not found' where it was
    answered 'not tracking any wallets'; the activity time is that of the
    second command; and the ids of the replies that were delivered stand at
    the end of the chat's stored message ids, of which the last fifty are
    kept.  The other chats' stored ids are unchanged. *)
Theorem track_then_untrack_round_trip
    (validateWalletAddress : string → bool) (formatTimestamp : Z → string)
    (now0 inactivityLimit maxWallets : Z) (evs : list Event)
    (chatId : Z) (arg : string) (now1 now2 : Z) (reply1 reply2 : SendOutcome) :
  let st := (run validateWalletAddress formatTimestamp evs
               (new_bot now0 inactivityLimit maxWallets)).1 in
  trackAccepts validateWalletAddress chatId arg st = true →
  let st2 := (untrack chatId arg now2
                (track validateWalletAddress chatId arg now1 st).1).1 in
  let st4 := (sendAndTrackMessage_resume chatId reply2
                (sendAndTrackMessage_resume chatId reply1 st2).1.1).1.1 in
  (∀ c, walletsOf c st4 = walletsOf c st)
  ∧ trackedWallets (websocket st4) = trackedWallets (websocket st)
  ∧ JsMap.keys (userWallets st4)
    = (if JsMap.has chatId (userWallets st) then JsMap.keys (userWallets st)
       else JsMap.keys (userWallets st) ++ [chatId])
  ∧ lastUserActivity st4 = now2
  ∧ botMessageIds st2 = botMessageIds st
  ∧ messageIdsOf chatId st4
    = lastN (Z.to_nat MAX_MESSAGES_PER_USER)
        (messageIdsOf chatId st ++ delivered reply1 ++ delivered reply2)
  ∧ (∀ c, c ≠ chatId → messageIdsOf c st4 = messageIdsOf c st)
  ∧ (∀ now3,
       (untrack chatId arg now3 st4).2 = [SendTracked chatId MsgWalletNotFound]
       ∧ (untrack chatId arg now3 st).2
         = [SendTracked chatId
              (if JsMap.has chatId (userWallets st) then MsgWalletNotFound
               else MsgNotTrackingAny)]).
Proof.
  intros st Hacc st2 st4.
  assert (consistent st) as Hc.
  { apply (run_invariant validateWalletAddress formatTimestamp consistent).
    - intros ev st'. apply step_consistent.
    - apply new_bot_consistent. }
  assert (idsBounded (botMessageIds st)) as Hb.
  { apply (run_invariant validateWalletAddress formatTimestamp
             (λ st, idsBounded (botMessageIds st))).
    - intros ev st'. apply step_idsBounded.
    - constructor. }
  destruct (track_untrack_sets validateWalletAddress chatId arg now1 now2 st Hc Hacc)
    as (Hw2 & Ht2 & Hids2).
  fold st2 in Hw2, Ht2, Hids2.
  set (st3 := (sendAndTrackMessage_resume chatId reply1 st2).1.1) in *.
  pose proof (sendAndTrackMessage_resume_frame chatId reply1 st2) as [Hu3 Hws3].
  pose proof (sendAndTrackMessage_resume_frame chatId reply2 st3) as [Hu4 Hws4].
  fold st3 in Hu3, Hws3. fold st4 in Hu4, Hws4.
  assert (idsBounded (botMessageIds st2)) as Hb2 by by rewrite Hids2.
  assert (∀ c, messageIdsOf c st2 = messageIdsOf c st) as Hm2.
  { intros c. unfold messageIdsOf. by rewrite Hids2. }
  pose proof (λ c, sendAndTrackMessage_resume_bounded chatId c reply1 st2 Hb2) as H3.
  fold st3 in H3. simpl in H3.
  assert (idsBounded (botMessageIds st3)) as Hb3 by apply (H3 chatId).
  pose proof (λ c, sendAndTrackMessage_resume_bounded chatId c reply2 st3 Hb3) as H4.
  fold st4 in H4. simpl in H4.
  assert (JsString.trim arg ∉ walletsOf chatId st) as Hnew.
  { unfold trackAccepts in Hacc. apply andb_true_iff in Hacc as [Hacc _].
    apply andb_true_iff in Hacc as [_ Hnew]. apply negb_true_iff in Hnew.
    by apply JsSet_has_false. }
  assert (validateWalletAddress (JsString.trim arg) = true) as Hvalid.
  { unfold trackAccepts in Hacc. by apply andb_true_iff in Hacc as [[? _]%andb_true_iff _]. }
  assert (∀ c, walletsOf c st4 = walletsOf c st) as Hw4.
  { intros c. unfold walletsOf. rewrite Hu4, Hu3. apply Hw2. }
  assert (JsMap.keys (userWallets st4)
          = (if JsMap.has chatId (userWallets st) then JsMap.keys (userWallets st)
             else JsMap.keys (userWallets st) ++ [chatId])) as Hkeys.
  { rewrite Hu4, Hu3. subst st2. rewrite untrack_keys, track_keys, Hvalid. simpl.
    by destruct (JsMap.has chatId (userWallets st)). }
  split_and!.
  - exact Hw4.
  - by rewrite Hws4, Hws3.
  - exact Hkeys.
  - destruct (H4 chatId) as (_ & _ & ->). destruct (H3 chatId) as (_ & _ & ->).
    subst st2. rewrite untrack_eq. simpl.
    destruct (JsMap.get chatId _); [|done].
    repeat match goal with |- context [if ?b then _ else _] => destruct b end; done.
  - exact Hids2.
  - destruct (H4 chatId) as (-> & _). destruct (H3 chatId) as (-> & _).
    rewrite !bool_decide_eq_true_2 by done. rewrite Hm2.
    change (Z.to_nat MAX_MESSAGES_PER_USER) with 50%nat.
    by rewrite lastN_lastN_app, <- app_assoc.
  - intros c Hne. destruct (H4 c) as (-> & _). destruct (H3 c) as (-> & _).
    rewrite !bool_decide_eq_false_2 by done. apply Hm2.
  - intros now3. split.
    + rewrite untrack_miss by by rewrite Hw4.
      assert (JsMap.has chatId (userWallets st4) = true) as ->; [|done].
      apply JsMap_has_keys. rewrite Hkeys.
      destruct (JsMap.has chatId (userWallets st)) eqn:Hhas.
      * by apply JsMap_has_keys.
      * apply elem_of_app. right. left.
    + by rewrite untrack_miss.
Qed.

(** Chat 2 tracks [V] and [W]; chat 1, which had no entry, tracks and
    untracks [W], and both replies are delivered. *)
Lemma track_then_untrack_round_trip_witness :
  let st := (run (λ _, true) (λ _, "") [Track 2 "V" 0; Track 2 "W" 1]
               (new_bot 0 300000 3)).1 in
  let st4 := (sendAndTrackMessage_resume 1 (Sent 12)
                (sendAndTrackMessage_resume 1 (Sent 11)
                   (untrack 1 "W" 7 (track (λ _, true) 1 "W" 6 st).1).1).1.1).1.1 in
  trackedWallets (websocket st4) = ["V"; "W"]
  ∧ JsMap.keys (userWallets st4) = [2; 1]
  ∧ messageIdsOf 1 st4 = [11; 12]
  ∧ (untrack 1 "W" 8 st4).2 = [SendTracked 1 MsgWalletNotFound]
  ∧ (untrack 1 "W" 8 st).2 = [SendTracked 1 MsgNotTrackingAny].
Proof.
  intros st st4.
  destruct (track_then_untrack_round_trip (λ _, true) (λ _, "") 0 300000 3
              [Track 2 "V" 0; Track 2 "W" 1] 1 "W" 6 7 (Sent 11) (Sent 12))
    as (_ & Ht & Hk & _ & _ & Hm & _ & Hnext).
  - vm_compute. reflexivity.
  - fold st in Ht, Hk, Hm, Hnext. fold st4 in Ht, Hk, Hm, Hnext.
    destruct (Hnext 8) as [Hn4 Hn0].
    rewrite Ht, Hk, Hm, Hn4, Hn0. clear. vm_compute. repeat split.
Defined.

(** ** Clearing the messages of a chat *)

Lemma deleteAll_counts (deleteSucceeds : Z → bool) (messageIds : list Z) :
  (deleteAll deleteSucceeds messageIds).1
  = Z.of_nat (length (List.filter deleteSucceeds messageIds))
  ∧ (deleteAll deleteSucceeds messageIds).2
    = Z.of_nat (length (List.filter (λ i, negb (deleteSucceeds i)) messageIds)).
Proof.
  unfold deleteAll.
  assert (∀ d f,
            let r := fold_left
                       (λ (counts : Z * Z) (messageId : Z),
                          if deleteSucceeds messageId then (counts.1 + 1, counts.2)
                          else (counts.1, counts.2 + 1)) messageIds (d, f) in
            r.1 = d + Z.of_nat (length (List.filter deleteSucceeds messageIds))
            ∧ r.2 = f + Z.of_nat (length (List.filter (λ i, negb (deleteSucceeds i))
                                            messageIds))) as H.
  { induction messageIds as [|i l IH]; intros d f; simpl; [lia|].
    destruct (deleteSucceeds i); simpl.
    - destruct (IH (d + 1) f) as [-> ->]. lia.
    - destruct (IH d (f + 1)) as [-> ->]. lia. }
  destruct (H 0 0) as [-> ->]. lia.
Qed.

(** X9: [clearBotMessages], when no other handler touches the chat's list
    meanwhile, passes every stored id of the chat to [deleteMessage] once, in
    order, and reports as deleted the ids whose deletion succeeded and as
    failed the others, so the two counts add up to the number of stored
    ids.  Afterwards the chat's list is empty whether or not the deletions
    succeeded, the other chats' lists and all tracking are as before, and
    clearing again reports that there is nothing to clear. *)
Theorem clear_forgets_every_stored_id
    (deleteSucceeds : Z → bool) (chatId : Z) (st : Bot) :
  let r := clearBotMessages deleteSucceeds chatId st in
  r.2.1 = messageIdsOf chatId st
  ∧ r.2.2 = (if bool_decide (messageIdsOf chatId st = []) then NoMessagesToClear
             else MessagesCleared
                    (Z.of_nat (length (List.filter deleteSucceeds (messageIdsOf chatId st))))
                    (Z.of_nat (length (messageIdsOf chatId st))
                     - Z.of_nat (length (List.filter deleteSucceeds
                                           (messageIdsOf chatId st)))))
  ∧ messageIdsOf chatId r.1 = []
  ∧ (∀ c, c ≠ chatId → messageIdsOf c r.1 = messageIdsOf c st)
  ∧ userWallets r.1 = userWallets st ∧ websocket r.1 = websocket st
  ∧ ∀ deleteSucceeds',
      (clearBotMessages deleteSucceeds' chatId r.1).2 = ([], NoMessagesToClear).
Proof.
  intros r. subst r. unfold clearBotMessages.
  destruct (messageIdsOf chatId st) as [|i l] eqn:Hids; simpl.
  - rewrite Hids. simpl. split_and!; done.
  - assert (messageIdsOf chatId (clearBotMessages_end chatId st) = []) as Hnow.
    { unfold messageIdsOf, clearBotMessages_end. simpl. by rewrite JsMap_get_set_eq. }
    rewrite Hnow. simpl. split_and!; try done.
    + pose proof (deleteAll_counts deleteSucceeds (i :: l)) as [-> ->]. f_equal.
      pose proof (filter_length deleteSucceeds (i :: l)) as Hsplit. simpl in *. lia.
    + intros c Hne. unfold messageIdsOf, clearBotMessages_end. simpl.
      by rewrite JsMap_get_set_ne.
Qed.

(** ** The settings of a chat *)

Section SettingsFacts.

Import UserSettings.

Lemma settingsOf_set (c chatId : Z) (v : Config) (us : JsMap.t Config) :
  settingsOf c (JsMap.set chatId v us)
  = if bool_decide (c = chatId) then v else settingsOf c us.
Proof.
  unfold settingsOf. case_bool_decide as Hc.
  - subst c. by rewrite JsMap_get_set_eq.
  - by rewrite JsMap_get_set_ne.
Qed.

Lemma ensureSettings_settingsOf (c chatId : Z) (us : JsMap.t Config) :
  settingsOf c (ensureSettings chatId us) = settingsOf c us.
Proof.
  unfold ensureSettings, JsMap.has.
  destruct (JsMap.get chatId us) eqn:Hget; [done|].
  rewrite settingsOf_set. case_bool_decide as Hc; [|done].
  subst c. unfold settingsOf. by rewrite Hget.
Qed.

Lemma ensureSettings_has (chatId : Z) (us : JsMap.t Config) :
  JsMap.has chatId (ensureSettings chatId us) = true.
Proof.
  unfold ensureSettings, JsMap.has.
  destruct (JsMap.get chatId us) eqn:Hget; [by rewrite Hget|].
  by rewrite JsMap_get_set_eq.
Qed.

(** [handleSettingsConfig] with its first step named. *)
Lemma handleSettingsConfig_unfold (chatId : Z) (setting value : string)
    (us : JsMap.t Config) :
  handleSettingsConfig chatId setting value us
  = handleSettingsConfig chatId setting value (ensureSettings chatId us).
Proof. unfold handleSettingsConfig. by rewrite ensureSettings_has. Qed.

Lemma toUpperCase_buffer (value : string) :
  value ∈ ["4kb"; "8kb"; "16kb"; "32kb"] →
  JsCase.toUpperCase value ∈ ["4KB"; "8KB"; "16KB"; "32KB"].
Proof.
  rewrite !elem_of_cons.
  intros [-> | [-> | [-> | [-> | ?%elem_of_nil]]]]; [| | | |done].
  - left. reflexivity.
  - right; left. reflexivity.
  - do 2 right; left. reflexivity.
  - do 3 right; left. reflexivity.
Qed.

End SettingsFacts.

Ltac settings_cases :=
  repeat match goal with
         | |- context [String.eqb ?a ?b] => destruct (String.eqb_spec a b); try subst a
         end;
  repeat match goal with
         | |- context [UserSettings.includes ?v ?l] =>
             let H := fresh "Hin" in
             destruct (UserSettings.includes v l) eqn:H;
             [apply bool_decide_eq_true in H | apply bool_decide_eq_false in H]
         end.

(** X10: [handleSettingsConfig] leaves the settings of every other chat as
    they are.  When it answers with an update, the named field of the chat
    holds the value shown in the answer and the chat's other fields are
    unchanged; [reset] gives the chat the default settings; a refused value
    and an unknown parameter change nothing that any chat is shown. *)
Theorem settings_change_one_field_of_one_chat
    (chatId : Z) (setting value : string) (us : JsMap.t UserSettings.Config) :
  let r := UserSettings.handleSettingsConfig chatId setting value us in
  (∀ c, c ≠ chatId → UserSettings.settingsOf c r.1 = UserSettings.settingsOf c us)
  ∧ match r.2 with
    | UserSettings.Updated s shown =>
        s = setting
        ∧ (setting, shown) ∈ UserSettings.fields (UserSettings.settingsOf chatId r.1)
        ∧ ∀ k v, k ≠ setting →
            ((k, v) ∈ UserSettings.fields (UserSettings.settingsOf chatId r.1)
             ↔ (k, v) ∈ UserSettings.fields (UserSettings.settingsOf chatId us))
    | UserSettings.ResetComplete =>
        setting = "reset"
        ∧ UserSettings.settingsOf chatId r.1 = UserSettings.defaultSettings
    | UserSettings.InvalidSetting s =>
        s = setting
        ∧ UserSettings.settingsOf chatId r.1 = UserSettings.settingsOf chatId us
    | UserSettings.UnknownParameter =>
        UserSettings.settingsOf chatId r.1 = UserSettings.settingsOf chatId us
    end.
Proof.
  intros r. subst r. rewrite handleSettingsConfig_unfold.
  pose proof (ensureSettings_settingsOf chatId chatId us) as Hsame.
  assert (∀ c, UserSettings.settingsOf c (UserSettings.ensureSettings chatId us)
               = UserSettings.settingsOf c us) as Hall
    by (intros c; apply ensureSettings_settingsOf).
  pose proof (ensureSettings_has chatId us) as Hhas.
  revert Hsame Hall Hhas. generalize (UserSettings.ensureSettings chatId us) as us'.
  intros us' Hsame Hall Hhas. unfold UserSettings.handleSettingsConfig.
  rewrite Hhas; cbv zeta;
    fold (UserSettings.settingsOf chatId us');
    rewrite ?settingsOf_set, ?bool_decide_eq_true_2 by done; rewrite ?Hsame.
  all: settings_cases; simpl.
  all: rewrite ?settingsOf_set, ?bool_decide_eq_true_2, ?Hsame by done.
  all: (split;
        [intros c Hc; rewrite ?settingsOf_set, ?bool_decide_eq_false_2 by done;
         rewrite ?settingsOf_set, ?bool_decide_eq_false_2 by done; apply Hall |]).
  all: try (split; [done|]); try done.
  all: unfold UserSettings.fields; simpl.
  all: (split; [rewrite !elem_of_cons; tauto |]).
  all: intros k v Hk; rewrite !elem_of_cons.
  all: assert (∀ x y : string, (k, v) = (x, y) ↔ k = x ∧ v = y) as Hpair
         by (intros x y; split; [by intros [= -> ->] | by intros [-> ->]]).
  all: rewrite !Hpair; tauto.
Qed.

Lemma handleSettingsConfig_other (chatId c : Z) (setting value : string)
    (us : JsMap.t UserSettings.Config) :
  c ≠ chatId →
  UserSettings.settingsOf c (UserSettings.handleSettingsConfig chatId setting value us).1
  = UserSettings.settingsOf c us.
Proof.
  intros Hne. rewrite handleSettingsConfig_unfold.
  rewrite <- (ensureSettings_settingsOf c chatId us).
  generalize (UserSettings.ensureSettings chatId us) as us'. intros us'.
  unfold UserSettings.handleSettingsConfig.
  destruct (JsMap.has chatId us'); cbv zeta; settings_cases; simpl;
    rewrite ?settingsOf_set, ?bool_decide_eq_false_2 by done; done.
Qed.

Lemma handleSettingsConfig_allowed (chatId : Z) (setting value : string)
    (us : JsMap.t UserSettings.Config) :
  (∀ c, UserSettings.allowed (UserSettings.settingsOf c us)) →
  ∀ c, UserSettings.allowed
         (UserSettings.settingsOf c
            (UserSettings.handleSettingsConfig chatId setting value us).1).
Proof.
  intros Hall c. destruct (decide (c = chatId)) as [->|Hne].
  2: { rewrite handleSettingsConfig_other by done. apply Hall. }
  specialize (Hall chatId). rewrite handleSettingsConfig_unfold.
  pose proof (ensureSettings_settingsOf chatId chatId us) as Hsame.
  pose proof (ensureSettings_has chatId us) as Hhas.
  revert Hsame Hhas. generalize (UserSettings.ensureSettings chatId us) as us'.
  intros us' Hsame Hhas. unfold UserSettings.handleSettingsConfig.
  rewrite Hhas; cbv zeta. fold (UserSettings.settingsOf chatId us'). rewrite Hsame.
  destruct Hall as (H1 & H2 & H3 & H4 & H5 & H6 & H7 & H8).
  settings_cases; simpl; rewrite ?settingsOf_set, ?bool_decide_eq_true_2, ?Hsame by done.
  all: unfold UserSettings.allowed; simpl; split_and!; try done.
  all: try (by apply toUpperCase_buffer).
  all: rewrite !elem_of_cons; auto 10.
Qed.

Lemma defaultSettings_allowed : UserSettings.allowed UserSettings.defaultSettings.
Proof.
  unfold UserSettings.allowed. simpl. split_and!; try done; rewrite !elem_of_cons; auto 10.
Qed.

(** X11: whatever commands and buttons have been used, every field of the
    settings a chat is shown holds one of the values that
    [handleSettingsConfig] lists for it (the buffer in upper case), and the
    algorithm version is the one the bot starts with. *)
Theorem settings_hold_listed_values (calls : list UserSettings.Call) (chatId : Z) :
  UserSettings.allowed (UserSettings.settingsOf chatId (UserSettings.run calls)).
Proof.
  unfold UserSettings.run.
  assert (∀ us, (∀ c, UserSettings.allowed (UserSettings.settingsOf c us)) →
                ∀ c, UserSettings.allowed
                       (UserSettings.settingsOf c
                          (fold_left (λ us call, UserSettings.step call us) calls us)))
    as Hrun.
  { induction calls as [|call calls IH]; intros us Hus; simpl; [done|].
    apply IH. destruct call as [k setting value|k m1 m2|k]; simpl.
    - by apply handleSettingsConfig_allowed.
    - by apply handleSettingsConfig_allowed.
    - intros c. by rewrite ensureSettings_settingsOf. }
  apply Hrun. intros c. apply defaultSettings_allowed.
Qed.

Lemma lowerChar_upperChar (c : ascii) :
  JsCase.lowerChar (JsCase.upperChar c) = JsCase.lowerChar c.
Proof. by destruct c as [[] [] [] [] [] [] [] []]. Qed.

Lemma toLowerCase_toUpperCase (s : string) :
  JsCase.toLowerCase (JsCase.toUpperCase s) = JsCase.toLowerCase s.
Proof.
  induction s as [|c s IH]; [done|].
  cbn [JsCase.toLowerCase JsCase.toUpperCase]. by rewrite lowerChar_upperChar, IH.
Qed.

Lemma toLowerCase_idemp (s : string) :
  JsCase.toLowerCase (JsCase.toLowerCase s) = JsCase.toLowerCase s.
Proof.
  induction s as [|c s IH]; [done|].
  cbn [JsCase.toLowerCase]. rewrite IH. f_equal.
  by destruct c as [[] [] [] [] [] [] [] []].
Qed.

(** X12: the [/settings <setting> <value>] command does not depend on the
    case its two words are typed in.  A buffer size is stored and shown in
    upper case however it was typed, while [handleSettingsConfig] itself, as
    a button calls it, accepts the lower-case spelling only. *)
Theorem settings_command_ignores_case
    (chatId : Z) (m1 m2 : string) (us : JsMap.t UserSettings.Config) :
  UserSettings.settingsCommand chatId (JsCase.toUpperCase m1) (JsCase.toUpperCase m2) us
  = UserSettings.settingsCommand chatId m1 m2 us
  ∧ UserSettings.settingsCommand chatId (JsCase.toLowerCase m1) (JsCase.toLowerCase m2) us
    = UserSettings.settingsCommand chatId m1 m2 us
  ∧ (JsCase.toLowerCase m1 = "buffer" →
     JsCase.toLowerCase m2 ∈ ["4kb"; "8kb"; "16kb"; "32kb"] →
     let r := UserSettings.settingsCommand chatId m1 m2 us in
     r.2 = UserSettings.Updated "buffer" (JsCase.toUpperCase (JsCase.toLowerCase m2))
     ∧ UserSettings.websocketBuffer (UserSettings.settingsOf chatId r.1)
       = JsCase.toUpperCase (JsCase.toLowerCase m2))
  ∧ (UserSettings.handleSettingsConfig chatId "buffer" "16KB" us).2
    = UserSettings.InvalidSetting "buffer".
Proof.
  unfold UserSettings.settingsCommand. split_and!.
  - by rewrite !toLowerCase_toUpperCase.
  - by rewrite !toLowerCase_idemp.
  - intros -> Hin. unfold UserSettings.handleSettingsConfig. cbv zeta.
    change (String.eqb "buffer" "latency") with false.
    change (String.eqb "buffer" "precision") with false.
    change (String.eqb "buffer" "buffer") with true. cbv iota.
    unfold UserSettings.includes. rewrite bool_decide_eq_true_2 by done. simpl.
    by rewrite settingsOf_set, bool_decide_eq_true_2.
  - unfold UserSettings.handleSettingsConfig. cbv zeta.
    change (String.eqb "buffer" "latency") with false.
    change (String.eqb "buffer" "precision") with false.
    change (String.eqb "buffer" "buffer") with true. cbv iota.
    unfold UserSettings.includes. rewrite bool_decide_eq_false_2; [done|].
    rewrite !elem_of_cons, elem_of_nil. intros [? | [? | [? | [? | []]]]]; discriminate.
Qed.

Lemma settings_command_ignores_case_witness :
  (UserSettings.settingsCommand 1 "Buffer" "16Kb" []).2
  = UserSettings.Updated "buffer" "16KB".
Proof.
  destruct (settings_command_ignores_case 1 "Buffer" "16Kb" []) as (_ & _ & H & _).
  apply H.
  - reflexivity.
  - rewrite !elem_of_cons. do 2 right. left. reflexivity.
Defined.

(** ** The signal configuration *)

Section SignalsFacts.

Import UserSignals.



Lemma JsMap_elem_of_set_inv {V} (k : Z) (v : V) (m : JsMap.t V) (e : Z * V) :
  e ∈ JsMap.set k v m → e = (k, v) ∨ e ∈ m.
Proof.
  induction m as [|[k' v'] m IH]; simpl.
  - intros ?%list_elem_of_singleton. by left.
  - case_bool_decide.
    + intros [-> | ?]%elem_of_cons; [by left | right; by right].
    + intros [-> | ?]%elem_of_cons; [right; left | ].
      destruct IH as [-> | ?]; [done | by left | right; by right].
Qed.

Lemma configOf_ensureSignals (c chatId : Z) (st : State) :
  configOf c (ensureSignals chatId st) = configOf c st.
Proof.
  unfold ensureSignals, JsMap.has, configOf.
  destruct (JsMap.get chatId (userSignals st)) eqn:Hget; [done|]. simpl.
  destruct (decide (c = chatId)) as [->|Hne].
  - by rewrite JsMap_get_set_eq, Hget.
  - by rewrite JsMap_get_set_ne.
Qed.

Lemma ensureSignals_frame (chatId : Z) (st : State) :
  objects (ensureSignals chatId st) = objects st
  ∧ defaultSignalConfig (ensureSignals chatId st) = defaultSignalConfig st.
Proof. unfold ensureSignals. by destruct (JsMap.has chatId (userSignals st)). Qed.









Lemma enabled_step (call : Call) (c : Z) (st : State) :
  enabled (configOf c (step call st))
  = match call with
    | ToggleCall k _ =>
        if bool_decide (k = c) then negb (enabled (configOf c st))
        else enabled (configOf c st)
    | _ => enabled (configOf c st)
    end
  ∧ defaultSignalConfig (step call st) = defaultSignalConfig st.
Proof.
  destruct call as [chatId now|chatId category|chatId]; simpl.
  - destruct (ensureSignals_frame chatId st) as [_ Hdef]. split; [|done].
    unfold configOf at 1. simpl. rewrite Hdef. case_bool_decide as Hc.
    + subst c. rewrite JsMap_get_set_eq. simpl. by rewrite configOf_ensureSignals.
    + rewrite JsMap_get_set_ne by done.
      rewrite <- (configOf_ensureSignals c chatId st). unfold configOf. by rewrite Hdef.
  - destruct (ensureSignals_frame chatId st) as [_ Hdef]. split; [|done].
    by rewrite <- (configOf_ensureSignals c chatId st).
  - destruct (ensureSignals_frame chatId st) as [_ Hdef]. split; [|done].
    by rewrite configOf_ensureSignals.
Qed.




End SignalsFacts.



Section ToggleFacts.

Import UserSignals.

Lemma allWellFormed_configOf (c : Z) (st : State) :
  allWellFormed st → wellFormed (configOf c st).
Proof.
  intros [Hd He]. unfold configOf.
  destruct (JsMap.get c (userSignals st)) as [v|] eqn:Hget; simpl; [|done].
  apply JsMap_get_Some in Hget. by apply (He (c, v)).
Qed.

Lemma allWellFormed_ensureSignals (chatId : Z) (st : State) :
  allWellFormed st → allWellFormed (ensureSignals chatId st).
Proof.
  intros [Hd He]. unfold ensureSignals.
  destruct (JsMap.has chatId (userSignals st)); [done|].
  split; [done|]. simpl. intros e [-> | Hin]%JsMap_elem_of_set_inv; [done|]. by apply He.
Qed.

Lemma step_allWellFormed (call : Call) (st : State) :
  allWellFormed st → allWellFormed (step call st).
Proof.
  intros Hwf. destruct call as [chatId now|chatId category|chatId]; simpl.
  - pose proof (allWellFormed_ensureSignals chatId st Hwf) as Hwf'.
    pose proof (allWellFormed_configOf chatId _ Hwf') as (Hs & Hr & Hm).
    destruct Hwf' as [Hd He]. split; [done|]. simpl.
    intros e [-> | Hin]%JsMap_elem_of_set_inv; [|by apply He].
    split_and!; [|done..]. unfold stamped. simpl.
    by destruct (enabled (configOf chatId (ensureSignals chatId st))).
  - by apply allWellFormed_ensureSignals.
  - by apply allWellFormed_ensureSignals.
Qed.

Lemma run_allWellFormed (calls : list Call) : allWellFormed (run calls).
Proof.
  unfold run.
  assert (allWellFormed initial) as Hinit.
  { split; [|by intros e ?%elem_of_nil]. by split_and!. }
  revert Hinit. generalize initial as st.
  induction calls as [|call calls IH]; intros st Hwf; simpl; [done|].
  by apply IH, step_allWellFormed.
Qed.

End ToggleFacts.

(** X14: the signals of a chat are enabled exactly when
    [handleSignalsToggle] has been called for that chat an odd number of
    times, whatever other chats did and whatever categories were switched;
    a configuration has an activation time exactly while it is enabled, and
    its risk level and confidence threshold stay the ones the bot starts
    with. *)
Theorem signals_follow_the_chat_own_toggles (calls : list UserSignals.Call) (c : Z) :
  let cfg := UserSignals.configOf c (UserSignals.run calls) in
  UserSignals.enabled cfg = Nat.odd (UserSignals.toggles c calls)
  ∧ UserSignals.stamped cfg
  ∧ UserSignals.riskLevel cfg = "medium"
  ∧ UserSignals.minConfidence cfg = 75.
Proof.
  intros cfg. split; [|apply (allWellFormed_configOf c), run_allWellFormed].
  subst cfg. unfold UserSignals.run.
  assert (∀ st,
            UserSignals.enabled
              (UserSignals.configOf c (fold_left (λ st c, UserSignals.step c st) calls st))
            = xorb (UserSignals.enabled (UserSignals.configOf c st))
                (Nat.odd (UserSignals.toggles c calls))) as Hrun.
  { induction calls as [|call calls IH]; intros st; simpl.
    { by rewrite xorb_false_r. }
    rewrite IH. destruct (enabled_step call c st) as [-> _].
    unfold UserSignals.toggles.
    destruct call as [chatId now|chatId k|chatId]; simpl; [|done..].
    case_bool_decide; [|done]. simpl length.
    rewrite Nat.odd_succ, <- Nat.negb_odd.
    by destruct (UserSignals.enabled _), (Nat.odd _). }
  by rewrite Hrun.
Qed.

(** ** The buttons *)

Lemma switch_elem_of (data : string) (cs : list (string * Buttons.Action)) :
  data ∈ map fst cs → (data, Buttons.switch data cs) ∈ cs.
Proof.
  induction cs as [|[label action] cs IH]; simpl; [by intros ?%elem_of_nil|].
  destruct (String.eqb_spec data label) as [->|Hne]; [left|].
  intros [-> | Hin]%elem_of_cons; [done|]. right. by apply IH.
Qed.

(** The keyboards only hold labels of the [switch]. *)
Lemma reachableButtons_cases (n : nat) (data : string) :
  data ∈ Buttons.reachableButtons n → data ∈ map fst Buttons.cases.
Proof.
  revert data. induction n as [|n IH]; intros data; simpl.
  - intros Hin. revert data Hin. apply Forall_forall.
    apply (bool_decide_unpack _). vm_compute. exact I.
  - intros [Hin | Hin]%elem_of_app; [by apply IH|].
    apply list_elem_of_In, in_flat_map in Hin as (d & Hd%list_elem_of_In & Hin%list_elem_of_In).
    apply IH in Hd. revert data Hin. apply Forall_forall. revert d Hd. apply Forall_forall.
    apply (bool_decide_unpack _). vm_compute. exact I.
Qed.

Lemma handleSettingsConfig_reply (chatId : Z) (setting value : string)
    (us : JsMap.t UserSettings.Config) :
  (UserSettings.handleSettingsConfig chatId setting value us).2
  = (UserSettings.handleSettingsConfig 0 setting value []).2.
Proof. unfold UserSettings.handleSettingsConfig. cbv zeta. settings_cases; done. Qed.

(** X15: every button that a keyboard of the bot offers, however deep in
    the menus, has a case in the [callback_query] switch.  A button that sets
    a setting passes a value that [handleSettingsConfig] accepts (or is the
    reset), a button that opens a setting gets that setting's own keyboard,
    and a button that switches a signal category names one of the five
    categories. *)
Theorem every_offered_button_is_handled (n : nat) (data : string) :
  data ∈ Buttons.reachableButtons n →
  Buttons.dispatch data ≠ Buttons.UnknownCommand
  ∧ (∀ setting value chatId us,
       Buttons.dispatch data = Buttons.SettingsConfig setting value →
       (UserSettings.handleSettingsConfig chatId setting value us).2
       ∈ [UserSettings.Updated setting value; UserSettings.ResetComplete])
  ∧ (∀ option,
       Buttons.dispatch data = Buttons.SettingsOption option →
       Buttons.optionKeyboard option ≠ ["settings"])
  ∧ (∀ category,
       Buttons.dispatch data = Buttons.SignalsCategory category →
       UserSignals.categoryName category ≠ ""
       ∧ is_Some (UserSignals.getProp category
                    (UserSignals.categoriesOf 0 UserSignals.initial))).
Proof.
  intros Hin%reachableButtons_cases%switch_elem_of.
  fold (Buttons.dispatch data) in Hin.
  assert (Forall (λ p : string * Buttons.Action,
            p.2 ≠ Buttons.UnknownCommand
            ∧ match p.2 with
              | Buttons.SettingsConfig setting value =>
                  (UserSettings.handleSettingsConfig 0 setting value []).2
                  ∈ [UserSettings.Updated setting value; UserSettings.ResetComplete]
              | Buttons.SettingsOption option => Buttons.optionKeyboard option ≠ ["settings"]
              | Buttons.SignalsCategory category =>
                  UserSignals.categoryName category ≠ ""
                  ∧ is_Some (UserSignals.getProp category
                               (UserSignals.categoriesOf 0 UserSignals.initial))
              | _ => True
              end) Buttons.cases) as Hall.
  { unfold Buttons.cases.
    repeat (apply Forall_cons; split;
            [split; [discriminate|]; cbn [snd];
             first [ exact I
                   | apply (bool_decide_unpack _); vm_compute; exact I
                   | split; [discriminate | by eexists]
                   | discriminate ] |]).
    constructor. }
  rewrite Forall_forall in Hall. specialize (Hall _ Hin) as [Hknown Hcase].
  simpl in *. split_and!.
  - done.
  - intros setting value chatId us Heq. rewrite Heq in Hcase.
    by rewrite handleSettingsConfig_reply.
  - intros option Heq. by rewrite Heq in Hcase.
  - intros category Heq. by rewrite Heq in Hcase.
Qed.

Lemma every_offered_button_is_handled_witness :
  Buttons.dispatch "risk_aggressive" ≠ Buttons.UnknownCommand.
Proof.
  apply (every_offered_button_is_handled 1 "risk_aggressive").
  apply (bool_decide_unpack _). vm_compute. exact I.
Defined.

(** ** The test of the environment variables *)

Lemma fold_sticky {A} (P : A → bool) (l : list A) (b : bool) :
  fold_left (λ (acc : bool) (x : A), if P x then true else acc) l b = b || existsb P l.
Proof.
  revert b. induction l as [|x l IH]; intros b; simpl; [by rewrite orb_false_r|].
  rewrite IH. destruct (P x), b; done.
Qed.

Lemma splitComma_nonempty (s : string) : EnvCheck.splitComma s ≠ [].
Proof.
  induction s as [|c s IH]; simpl; [done|].
  destruct (Ascii.eqb c ","); [done|]. by destruct (EnvCheck.splitComma s).
Qed.

Lemma splitComma_trailing (s : string) :
  EnvCheck.splitComma (s +:+ ",") = EnvCheck.splitComma s ++ [""].
Proof.
  induction s as [|c s IH]; [done|].
  change (String c s +:+ ",") with (String c (s +:+ ",")).
  cbn [EnvCheck.splitComma]. rewrite IH.
  destruct (Ascii.eqb c ","); [done|].
  pose proof (splitComma_nonempty s). by destruct (EnvCheck.splitComma s).
Qed.

Lemma hasErrors_eq (token keys : option string) :
  EnvCheck.hasErrors token keys
  = negb (EnvCheck.isSet token) || negb (EnvCheck.isSet keys)
    || match keys with
       | Some k => existsb EnvCheck.keyInvalid (map JsString.trim (EnvCheck.splitComma k))
       | None => false
       end.
Proof.
  unfold EnvCheck.hasErrors. cbv zeta. rewrite (fold_sticky (λ v, negb (EnvCheck.isSet v))).
  simpl existsb. rewrite orb_false_r.
  destruct keys as [k|]; [|by rewrite orb_false_r]. simpl.
  destruct (JsString.truthy k) eqn:Hk.
  - by rewrite (fold_sticky EnvCheck.keyInvalid).
  - simpl. by rewrite !orb_true_r.
Qed.

(** X16: the test of the environment variables ends without error exactly
    when the bot token is set and not empty, the key list is set and not
    empty, and every comma-separated piece of the key list has, once
    trimmed, at least 32 characters.  So a key list that ends with a comma
    is refused, whatever the keys before it. *)
Theorem env_test_passes_exactly_valid_configurations (token keys : option string) :
  (EnvCheck.exitCode token keys = 0
   ↔ EnvCheck.isSet token = true
     ∧ ∃ k, keys = Some k ∧ k ≠ ""
            ∧ Forall (λ piece, (32 ≤ String.length (JsString.trim piece))%nat)
                (EnvCheck.splitComma k))
  ∧ (EnvCheck.exitCode token keys = 0 ∨ EnvCheck.exitCode token keys = 1)
  ∧ ∀ k, EnvCheck.exitCode token (Some (k +:+ ",")) = 1.
Proof.
  assert (∀ k, existsb EnvCheck.keyInvalid (map JsString.trim (EnvCheck.splitComma k)) = false
               ↔ Forall (λ piece, (32 ≤ String.length (JsString.trim piece))%nat)
                   (EnvCheck.splitComma k)) as Hkeys.
  { intros k. induction (EnvCheck.splitComma k) as [|p ps IH]; simpl.
    { split; [constructor | done]. }
    rewrite Forall_cons, <- IH, orb_false_iff. unfold EnvCheck.keyInvalid.
    destruct (Nat.ltb_spec (String.length (JsString.trim p)) 32) as [Hlt|Hge].
    - rewrite orb_true_r. split; [intros [? _]; done | intros [? _]; lia].
    - rewrite orb_false_r.
      assert (JsString.truthy (JsString.trim p) = true) as ->.
      { destruct (JsString.trim p); [simpl in Hge; lia | done]. }
      simpl. tauto. }
  unfold EnvCheck.exitCode. split_and!.
  - rewrite hasErrors_eq. destruct (EnvCheck.isSet token); simpl.
    2: { split; [done | by intros [? _]]. }
    destruct keys as [k|]; simpl.
    2: { split; [done | by intros (_ & k & ? & _)]. }
    destruct k as [|c k]; simpl JsString.truthy; cbn [negb orb].
    { split; [done | by intros (_ & k & [= <-] & ? & _)]. }
    destruct (existsb _ _) eqn:Hex.
    + split; [done|]. intros (_ & k' & [= <-] & _ & Hall). apply Hkeys in Hall. congruence.
    + split; [|done]. intros _. split; [done|]. exists (String c k).
      split_and!; [done..|]. by apply Hkeys.
  - destruct (EnvCheck.hasErrors token keys); auto.
  - intros k. rewrite hasErrors_eq. simpl. rewrite splitComma_trailing, map_app, existsb_app.
    change (existsb EnvCheck.keyInvalid (map JsString.trim [""])) with true.
    by rewrite !orb_true_r.
Qed.

Lemma env_test_passes_exactly_valid_configurations_witness :
  EnvCheck.exitCode (Some "t") (Some " 0123456789abcdef0123456789abcdef ,0123456789abcdef0123456789abcdeX")
  = 0.
Proof.
  apply (proj1 (env_test_passes_exactly_valid_configurations _ _)).
  split; [reflexivity|]. eexists. split_and!; [reflexivity | discriminate |].
  apply (bool_decide_unpack _). vm_compute. exact I.
Defined.

(** ** The activity clock *)

Lemma step_activity (validateWalletAddress : string → bool) (formatTimestamp : Z → string)
    (ev : Event) (st : Bot) :
  lastUserActivity (step validateWalletAddress formatTimestamp ev st).1
  = default (lastUserActivity st) (commandTime ev)
  ∧ INACTIVITY_LIMIT (step validateWalletAddress formatTimestamp ev st).1
    = INACTIVITY_LIMIT st.
Proof.
  destruct ev as [chatId arg now|chatId arg now|chatId now|data|chatId outcome
                 |chatId outcome|chatId|now]; simpl.
  - unfold track.
    repeat match goal with |- context [if ?b then _ else _] => destruct b end; done.
  - rewrite untrack_eq. simpl. destruct (JsMap.get chatId (userWallets st)); [|done].
    repeat match goal with |- context [if ?b then _ else _] => destruct b end; done.
  - done.
  - done.
  - destruct outcome; simpl; [|done..].
    by match goal with |- context [if ?b then _ else _] => destruct b end.
  - unfold notifyUsers_settled. destruct outcome; simpl; [|done..].
    by match goal with |- context [if ?b then _ else _] => destruct b end.
  - done.
  - unfold inactivityMonitor_tick.
    by match goal with |- context [if ?b then _ else _] => destruct b end.
Qed.

Lemma run_activity (validateWalletAddress : string → bool) (formatTimestamp : Z → string)
    (evs : list Event) (st : Bot) :
  lastUserActivity (run validateWalletAddress formatTimestamp evs st).1
  = lastCommandTime (lastUserActivity st) evs
  ∧ INACTIVITY_LIMIT (run validateWalletAddress formatTimestamp evs st).1
    = INACTIVITY_LIMIT st.
Proof.
  revert st. induction evs as [|ev evs IH]; intros st; simpl; [done|].
  destruct (step_activity validateWalletAddress formatTimestamp ev st) as [Ha Hl].
  destruct (step validateWalletAddress formatTimestamp ev st) as [st1 effs1].
  specialize (IH st1).
  destruct (run validateWalletAddress formatTimestamp evs st1) as [st2 effs2].
  simpl in *. destruct IH as [-> ->]. by rewrite Ha, Hl.
Qed.

(** X17: the bot keeps one activity clock for all chats: it shows the time
    of the last command of any chat, and neither transactions, nor the end
    of a send, nor the monitor move it.  The monitor resets the wallets of
    every chat exactly when the inactivity limit has elapsed since that
    command and some chat holds a wallet; so a command of one chat postpones
    the reset for all of them. *)
Theorem one_activity_clock_for_all_chats
    (validateWalletAddress : string → bool) (formatTimestamp : Z → string)
    (now0 inactivityLimit maxWallets : Z) (evs : list Event) (now : Z) :
  let st := (run validateWalletAddress formatTimestamp evs
               (new_bot now0 inactivityLimit maxWallets)).1 in
  lastUserActivity st = lastCommandTime now0 evs
  ∧ (now - lastCommandTime now0 evs < inactivityLimit →
     inactivityMonitor_tick now st = (st, []))
  ∧ (inactivityLimit ≤ now - lastCommandTime now0 evs →
     requestedWallets st ≠ [] →
     inactivityMonitor_tick now st = handleInactivityCleanup st
     ∧ userWallets (inactivityMonitor_tick now st).1 = []
     ∧ lastUserActivity (inactivityMonitor_tick now st).1 = lastCommandTime now0 evs).
Proof.
  intros st.
  destruct (run_activity validateWalletAddress formatTimestamp evs
              (new_bot now0 inactivityLimit maxWallets)) as [Ha Hl].
  fold st in Ha, Hl. simpl in Ha, Hl. split_and!.
  - done.
  - intros Hearly. unfold inactivityMonitor_tick. rewrite Ha, Hl.
    destruct (Z.eqb_spec (Z.max 0 (inactivityLimit - (now - lastCommandTime now0 evs))) 0);
      [lia | done].
  - intros Hlate Hsome.
    assert (inactivityMonitor_tick now st = handleInactivityCleanup st) as Hfire.
    { unfold inactivityMonitor_tick. rewrite Ha, Hl.
      destruct (Z.eqb_spec (Z.max 0 (inactivityLimit - (now - lastCommandTime now0 evs))) 0);
        [|lia].
      rewrite getTotalTrackedWallets_length.
      destruct (requestedWallets st) as [|w l]; [done|].
      simpl length. by destruct (Z.gtb_spec (Z.of_nat (S (length l))) 0); [|lia]. }
    rewrite Hfire. split_and!; done.
Qed.

(** ** The notices of the inactivity reset *)

Lemma sends_map_RemoveWallet (l : list string) : sends (map RemoveWallet l) = [].
Proof. induction l as [|a l IH]; [done | exact IH]. Qed.

Lemma cleanup_notices_for (limit c : Z) (uw : JsMap.t JsSet.t) :
  NoDup (JsMap.keys uw) →
  List.filter (λ p : Z * Message, bool_decide (p.1 = c))
    (sends (flat_map
              (λ e : Z * JsSet.t,
                 if JsSet.size e.2 >? 0
                 then [SendPlain e.1 (MsgAutoCleanup limit (JsSet.size e.2))]
                 else []) uw))
  = if JsSet.size (default [] (JsMap.get c uw)) >? 0
    then [(c, MsgAutoCleanup limit (JsSet.size (default [] (JsMap.get c uw))))]
    else [].
Proof.
  induction uw as [|[k ws] uw IH]; simpl; [done|].
  intros [Hk Hnd]%NoDup_cons. specialize (IH Hnd).
  unfold sends in *. rewrite omap_app, List.filter_app, IH.
  case_bool_decide as Hkc.
  - subst k. assert (JsMap.get c uw = None) as -> by by apply JsMap_get_None.
    simpl. destruct (JsSet.size ws >? 0); simpl; [|done].
    by rewrite bool_decide_eq_true_2.
  - destruct (JsSet.size ws >? 0); simpl; [|done].
    by rewrite bool_decide_eq_false_2.
Qed.

(** X18: when the inactivity reset runs, every chat that holds a wallet is
    sent one notice, which tells the number of wallets it held, and a chat
    that holds none is sent nothing.  The notices are sent without being
    recorded, so the stored message ids are as before, and afterwards no
    chat holds a wallet. *)
Theorem reset_notifies_each_holder_once
    (validateWalletAddress : string → bool) (formatTimestamp : Z → string)
    (now0 inactivityLimit maxWallets : Z) (evs : list Event) (c : Z) :
  let st := (run validateWalletAddress formatTimestamp evs
               (new_bot now0 inactivityLimit maxWallets)).1 in
  let r := handleInactivityCleanup st in
  List.filter (λ p : Z * Message, bool_decide (p.1 = c)) (sends r.2)
  = (if JsSet.size (walletsOf c st) >? 0
     then [(c, MsgAutoCleanup inactivityLimit (JsSet.size (walletsOf c st)))]
     else [])
  ∧ Forall (λ e, ∀ chatId m, e ≠ SendTracked chatId m) r.2
  ∧ botMessageIds r.1 = botMessageIds st
  ∧ walletsOf c r.1 = [].
Proof.
  intros st r.
  assert (consistent st) as [Hnd _].
  { apply (run_invariant validateWalletAddress formatTimestamp consistent).
    - intros ev st'. apply step_consistent.
    - apply new_bot_consistent. }
  destruct (run_activity validateWalletAddress formatTimestamp evs
              (new_bot now0 inactivityLimit maxWallets)) as [_ Hl].
  fold st in Hl. simpl in Hl. subst r. unfold handleInactivityCleanup. simpl.
  split_and!.
  - unfold sends at 1. rewrite omap_app. fold (sends (map RemoveWallet (allWallets (userWallets st)))).
    rewrite sends_map_RemoveWallet, app_nil_r, Hl.
    apply (cleanup_notices_for inactivityLimit c (userWallets st) Hnd).
  - apply Forall_app. split.
    + clear Hnd. induction (userWallets st) as [|[k ws] uw IH]; simpl; [constructor|].
      apply Forall_app. split; [|done].
      destruct (JsSet.size ws >? 0); repeat constructor; intros; discriminate.
    + induction (allWallets (userWallets st)) as [|a l IH]; simpl; [constructor|].
      constructor; [intros; discriminate | done].
  - done.
  - done.
Qed.

(** ** The numbers in the answers *)

Lemma track_effects (validateWalletAddress : string → bool)
    (chatId : Z) (arg : string) (now : Z) (st : Bot) :
  let a := JsString.trim arg in
  (track validateWalletAddress chatId arg now st).2
  = if validateWalletAddress a then
      if JsSet.has a (walletsOf chatId st) then [SendTracked chatId (MsgAlreadyTracking a)]
      else if JsSet.size (walletsOf chatId st) >=? MAX_WALLETS_PER_USER st
      then [SendTracked chatId
              (MsgWalletLimitReached (MAX_WALLETS_PER_USER st) (walletsOf chatId st))]
      else [AddWallet a;
            SendTracked chatId
              (MsgWalletAdded a (JsSet.size (JsSet.add a (walletsOf chatId st)))
                 (MAX_WALLETS_PER_USER st))]
    else [SendTracked chatId MsgInvalidAddress].
Proof.
  intros a. subst a. unfold track.
  destruct (validateWalletAddress (JsString.trim arg)); simpl; [|done].
  set (st0 := updateUserActivity now st).
  set (st1 := if JsMap.has chatId (userWallets st) then st0 else _).
  assert (walletsOf chatId st1 = walletsOf chatId st) as Hw.
  { subst st1. destruct (JsMap.has chatId (userWallets st)) eqn:Hhas; [done|].
    by rewrite <- (walletsOf_set_empty chatId chatId st Hhas). }
  assert (MAX_WALLETS_PER_USER st1 = MAX_WALLETS_PER_USER st) as Hmax.
  { subst st1. by destruct (JsMap.has chatId (userWallets st)). }
  rewrite Hw, Hmax.
  destruct (JsSet.has (JsString.trim arg) (walletsOf chatId st)); [done|].
  by destruct (JsSet.size (walletsOf chatId st) >=? MAX_WALLETS_PER_USER st).
Qed.

Ltac invert_elem H :=
  repeat (apply elem_of_cons in H as [H|H]; [try discriminate H|]);
  try (by apply elem_of_nil in H).

(** X19: the answers of [/track] and [/untrack] describe the state the
    command leaves.  The count in 'wallet added' is the number of wallets the
    chat then holds, at most the limit; 'limit reached' lists exactly the
    chat's wallets, which are as many as the limit or more; 'stopped
    tracking' gives the number of wallets the chat still holds, and the chat
    no longer holds the address. *)
Theorem answers_describe_the_state_after
    (validateWalletAddress : string → bool) (chatId : Z) (arg : string) (now : Z) (st : Bot) :
  let a := JsString.trim arg in
  let r := track validateWalletAddress chatId arg now st in
  let u := untrack chatId arg now st in
  (∀ a' n limit,
     SendTracked chatId (MsgWalletAdded a' n limit) ∈ r.2 →
     a' = a ∧ a ∈ walletsOf chatId r.1
     ∧ n = JsSet.size (walletsOf chatId r.1)
     ∧ limit = MAX_WALLETS_PER_USER r.1 ∧ n ≤ limit)
  ∧ (∀ limit wallets,
       SendTracked chatId (MsgWalletLimitReached limit wallets) ∈ r.2 →
       wallets = walletsOf chatId r.1 ∧ limit = MAX_WALLETS_PER_USER r.1
       ∧ limit ≤ JsSet.size wallets ∧ (a ∉ wallets))
  ∧ (∀ a', SendTracked chatId (MsgAlreadyTracking a') ∈ r.2 →
           a' = a ∧ a ∈ walletsOf chatId r.1)
  ∧ (∀ a' yours total,
       SendTracked chatId (MsgStoppedTracking a' yours total) ∈ u.2 →
       a' = a ∧ (a ∉ walletsOf chatId u.1)
       ∧ yours = JsSet.size (walletsOf chatId u.1)).
Proof.
  intros a r u. subst r u.
  pose proof (track_effects validateWalletAddress chatId arg now st) as Heff.
  pose proof (track_walletsOf validateWalletAddress chatId arg now st chatId) as Hw.
  pose proof (track_MAX validateWalletAddress chatId arg now st) as Hmax.
  simpl in Heff. fold a in Heff, Hw. unfold trackAccepts in Hw. fold a in Hw.
  rewrite bool_decide_eq_true_2 in Hw by done. simpl in Hw.
  rewrite Hmax, Hw, Heff. clear Heff Hw Hmax.
  split_and!.
  - intros a' n limit Hin.
    destruct (validateWalletAddress a); [|invert_elem Hin].
    destruct (JsSet.has a (walletsOf chatId st)) eqn:Hhas; [invert_elem Hin|].
    destruct (Z.geb_spec (JsSet.size (walletsOf chatId st)) (MAX_WALLETS_PER_USER st))
      as [Hfull|Hroom]; [invert_elem Hin|].
    simpl. invert_elem Hin. injection Hin as -> -> ->.
    split_and!; try done.
    + apply JsSet_elem_of_add. by left.
    + rewrite JsSet_size_add by done. lia.
  - intros limit wallets Hin.
    destruct (validateWalletAddress a); [|invert_elem Hin].
    destruct (JsSet.has a (walletsOf chatId st)) eqn:Hhas; [invert_elem Hin|].
    destruct (Z.geb_spec (JsSet.size (walletsOf chatId st)) (MAX_WALLETS_PER_USER st))
      as [Hfull|Hroom]; [|invert_elem Hin].
    simpl. invert_elem Hin. injection Hin as -> ->.
    split_and!; [done | done | lia | by apply JsSet_has_false].
  - intros a' Hin.
    destruct (validateWalletAddress a); [|invert_elem Hin].
    destruct (JsSet.has a (walletsOf chatId st)) eqn:Hhas.
    + simpl. invert_elem Hin. injection Hin as ->. split; [done | by apply JsSet_has_true].
    + destruct (JsSet.size (walletsOf chatId st) >=? MAX_WALLETS_PER_USER st);
        invert_elem Hin.
  - intros a' yours total.
    pose proof (untrack_walletsOf chatId arg now st chatId) as Hw.
    rewrite bool_decide_eq_true_2 in Hw by done. fold a in Hw. rewrite Hw. clear Hw.
    rewrite untrack_eq. fold a. simpl. unfold walletsOf.
    destruct (JsMap.get chatId (userWallets st)) as [ws|]; simpl;
      [|intros Hin; invert_elem Hin].
    destruct (JsSet.has a ws); [|intros Hin; invert_elem Hin].
    assert (a ∉ JsSet.delete a ws) as Hgone.
    { rewrite JsSet_elem_of_delete. by intros [? _]. }
    destruct (walletStillTrackedByOthers _ _ _); simpl; intros Hin; invert_elem Hin;
      injection Hin as -> -> ->; done.
Qed.

Lemma answers_describe_the_state_after_witness :
  let st := (run (λ _, true) (λ _, "") [Track 1 "A" 0; Track 2 "A" 1; Track 1 "B" 2]
               (new_bot 0 300000 3)).1 in
  ("A" ∉ walletsOf 1 (untrack 1 " A" 3 st).1)
  ∧ 1 = JsSet.size (walletsOf 1 (untrack 1 " A" 3 st).1).
Proof.
  intros st.
  destruct (answers_describe_the_state_after (λ _, true) 1 " A" 3 st) as (_ & _ & _ & H).
  apply (H "A" 1 2). vm_compute. left.
Defined.

(** ** Where a chat's wallets come from *)

Lemma step_wallet_origin (validateWalletAddress : string → bool)
    (formatTimestamp : Z → string) (ev : Event) (st : Bot) (c : Z) (a : string) :
  a ∈ walletsOf c (step validateWalletAddress formatTimestamp ev st).1 →
  a ∈ walletsOf c st
  ∨ ∃ arg now, ev = Track c arg now ∧ a = JsString.trim arg
               ∧ validateWalletAddress a = true.
Proof.
  destruct ev as [chatId arg now|chatId arg now|chatId now|data|chatId outcome
                 |chatId outcome|chatId|now]; simpl.
  - rewrite track_walletsOf. case_bool_decide as Hc; simpl; [|by left]. subst chatId.
    destruct (trackAccepts validateWalletAddress c arg st) eqn:Hacc; [|by left].
    intros [-> | Hin]%JsSet_elem_of_add; [|by left].
    right. exists arg, now. split_and!; [done..|].
    unfold trackAccepts in Hacc. by apply andb_true_iff in Hacc as [[? _]%andb_true_iff _].
  - rewrite untrack_walletsOf. case_bool_decide as Hc; [|by left]. subst chatId.
    intros [_ Hin]%JsSet_elem_of_delete. by left.
  - by left.
  - by left.
  - pose proof (sendAndTrackMessage_resume_frame chatId outcome st) as [H _].
    destruct (sendAndTrackMessage_resume chatId outcome st) as [[st1 effs] r].
    simpl in *. unfold walletsOf. rewrite H. by left.
  - pose proof (notifyUsers_settled_frame chatId outcome st) as (H & _ & _).
    unfold walletsOf. rewrite H. by left.
  - by left.
  - unfold inactivityMonitor_tick.
    match goal with |- context [if ?b then _ else _] => destruct b end; [|by left].
    unfold walletsOf. simpl. by intros ?%elem_of_nil.
Qed.

(** X20: after any sequence of events, every wallet that a chat holds is
    the trimmed argument of a [/track] command of that same chat, and an
    address that the validator accepts.  So no command of one chat, no
    transaction and no send puts a wallet into another chat's set. *)
Theorem wallets_come_from_own_track_commands
    (validateWalletAddress : string → bool) (formatTimestamp : Z → string)
    (now0 inactivityLimit maxWallets : Z) (evs : list Event) (c : Z) (a : string) :
  a ∈ walletsOf c (run validateWalletAddress formatTimestamp evs
                     (new_bot now0 inactivityLimit maxWallets)).1 →
  ∃ arg now, Track c arg now ∈ evs ∧ a = JsString.trim arg
             ∧ validateWalletAddress a = true.
Proof.
  assert (∀ st, a ∈ walletsOf c (run validateWalletAddress formatTimestamp evs st).1 →
                a ∈ walletsOf c st
                ∨ ∃ arg now, Track c arg now ∈ evs ∧ a = JsString.trim arg
                             ∧ validateWalletAddress a = true) as Hrun.
  { induction evs as [|ev evs IH]; intros st; simpl; [by left|].
    pose proof (step_wallet_origin validateWalletAddress formatTimestamp ev st c a) as Hstep.
    destruct (step validateWalletAddress formatTimestamp ev st) as [st1 effs1].
    specialize (IH st1).
    destruct (run validateWalletAddress formatTimestamp evs st1) as [st2 effs2].
    simpl in *. intros Hin.
    destruct (IH Hin) as [Hin1 | (arg & now & Hev & Ha & Hv)].
    - destruct (Hstep Hin1) as [? | (arg & now & -> & Ha & Hv)]; [by left|].
      right. exists arg, now. split_and!; [left | done..].
    - right. exists arg, now. split_and!; [by right | done..]. }
  intros Hin. destruct (Hrun _ Hin) as [Hnone | H]; [|done].
  by apply elem_of_nil in Hnone.
Qed.

Lemma wallets_come_from_own_track_commands_witness :
  ∃ arg now, Track 1 arg now ∈ [Track 1 " A " 0; OtherCommand 2 1]
             ∧ "A" = JsString.trim arg ∧ (λ _ : string, true) "A" = true.
Proof.
  apply (wallets_come_from_own_track_commands (λ _, true) (λ _, "") 0 300000 3
           [Track 1 " A " 0; OtherCommand 2 1] 1 "A").
  vm_compute. left.
Defined.
